(** * The RTI start-time barrier of [rti.c]

    A shallow embedding of [src/lib/C/rti.c]: the wire format of the
    start-time proposal, the read loop and the response writes of the
    per-federate thread [federate], the mutex/condition-variable barrier
    around [max_start_time] and [num_feds_proposed_start], and the accept
    loop of [connect_to_federates].  Threads are interleaved at every
    statement that touches shared state. *)

From Stdlib Require Import ZArith Lia List Bool Permutation.
From Stdlib.Strings Require Import Byte String.
From stdpp Require Import base list.
Import ListNotations.

Local Open Scope Z_scope.

(** * Definitions *)

(** ** Machine integers *)

Definition INT_MAX : Z := 2 ^ 31 - 1.

(** Wrap-around of a C [int] (two's complement, 32 bits). *)
Definition wrap32 (z : Z) : Z := (z + 2 ^ 31) mod 2 ^ 32 - 2 ^ 31.

(** Wrap-around of a C [long long] ([instant_t]), 64 bits. *)
Definition wrap64 (z : Z) : Z := (z + 2 ^ 63) mod 2 ^ 64 - 2 ^ 63.

Definition is_int (z : Z) : Prop := - 2 ^ 31 <= z <= INT_MAX.
Definition is_ll (z : Z) : Prop := - 2 ^ 63 <= z < 2 ^ 63.

(** ** Bytes *)

Definition Z_of_byte (b : byte) : Z := Z.of_N (Byte.to_N b).

Definition byte_of_Z (z : Z) : byte :=
  match Byte.of_N (Z.to_N (z mod 256)) with
  | Some b => b
  | None => x00
  end.

(** Unsigned value of a byte string, least significant byte first. *)
Fixpoint le_value (bs : list byte) : Z :=
  match bs with
  | [] => 0
  | b :: bs' => Z_of_byte b + 256 * le_value bs'
  end.

(** The [n] low-order bytes of [z], least significant first (two's
    complement for a negative [z]). *)
Fixpoint le_bytes (n : nat) (z : Z) : list byte :=
  match n with
  | O => []
  | S n' => byte_of_Z z :: le_bytes n' (z / 256)
  end.

(** The 8-byte big-endian (network order) image of a [long long], and the
    signed value of 8 bytes received in network order. *)
Definition be64_bytes (v : Z) : list byte := rev (le_bytes 8 v).
Definition be64_value (bs : list byte) : Z := wrap64 (le_value (rev bs)).

(** ** Sockets

    A connection is described by what the operating system will answer to
    the calls made on it: [incoming] lists the outcomes waiting for
    successive [read] calls (a chunk of bytes that has arrived, or a
    failure); the end of the list is the end of the stream.  [wr_oracle]
    lists the outcomes of successive [write] calls; when it is exhausted
    every write is complete.  [sent] collects the bytes that really went to
    the peer. *)

Inductive rd_event :=
| Chunk (bs : list byte)
| RdFail.

Inductive wr_event :=
| WrLen (n : nat)
| WrFail.

Record socket := mkSocket {
  fd : Z;
  incoming : list rd_event;
  wr_oracle : list wr_event;
  sent : list byte;
  is_open : bool
}.

Definition set_incoming (evs : list rd_event) (s : socket) : socket :=
  mkSocket (fd s) evs (wr_oracle s) (sent s) (is_open s).

Definition set_written (o : list wr_event) (out : list byte) (s : socket) : socket :=
  mkSocket (fd s) (incoming s) o (out) (is_open s).

(** [read] on the event queue: at most [count] bytes of the first chunk
    are delivered and the rest of the chunk stays queued; [0] is returned
    only at the end of the stream (or for [count = 0]). *)
Fixpoint read_events (evs : list rd_event) (count : nat)
  : Z * list byte * list rd_event :=
  match evs with
  | [] => (0, [], [])
  | RdFail :: evs' => (-1, [], evs')
  | Chunk [] :: evs' => read_events evs' count
  | Chunk bs :: evs' =>
      if (length bs <=? count)%nat
      then (Z.of_nat (length bs), bs, evs')
      else (Z.of_nat count, take count bs, Chunk (drop count bs) :: evs')
  end.

Definition usable (s : socket) : bool := (0 <=? fd s) && is_open s.

(** [read(fd, dst, count)]: the return value, the bytes stored at [dst],
    and the connection afterwards.  A negative or closed descriptor fails. *)
Definition read (s : socket) (count : nat) : Z * list byte * socket :=
  if usable s then
    let '(more, data, evs') := read_events (incoming s) count in
    (more, data, set_incoming evs' s)
  else (-1, [], s).

(** [write(fd, src, length src)]: the return value and the connection
    afterwards.  A short write transmits a prefix of [src].  Only calls
    that return are described: a [write] that raises SIGPIPE and kills the
    process has no outcome here. *)
Definition write (s : socket) (src : list byte) : Z * socket :=
  if usable s then
    match wr_oracle s with
    | [] => (Z.of_nat (length src), set_written [] (sent s ++ src) s)
    | WrFail :: o => (-1, set_written o (sent s) s)
    | WrLen n :: o =>
        let k := Nat.min n (length src) in
        (Z.of_nat k, set_written o (sent s ++ take k src) s)
    end
  else (-1, s).

Definition close (s : socket) : socket :=
  mkSocket (fd s) (incoming s) (wr_oracle s) (sent s) false.

(** Storing [data] into an array at offset [off]. *)
Definition store_at (arr : list byte) (off : nat) (data : list byte) : list byte :=
  take off arr ++ data ++ drop (off + length data) arr.

(** ** The program *)

Section Rti.

(** The message tag [TIMESTAMP] comes from [rti.h]; its value is a
    parameter of the development. *)
Variable TIMESTAMP : byte.

(** Byte order of the host running the RTI. *)
Variable little_endian : bool.

(** The number of federates that [main] assigns to [number_of_federates]
    (line 211; the source fixes it to 2 and marks that with a FIXME). *)
Variable configured_federates : Z.

(** *** Helpers of [util.c] *)

(** The value of [*((long long* )p)] where [p] points at the bytes [bs]. *)
Definition load_ll (bs : list byte) : Z :=
  wrap64 (le_value (if little_endian then bs else rev bs)).

(** The bytes found at [(void* )(&v)] for a [long long v]. *)
Definition store_ll (v : Z) : list byte :=
  if little_endian then le_bytes 8 v else rev (le_bytes 8 v).

(** Modelled from the spec: [swap_bytes_if_little_endian_ll] of [util.c],
    which is not under src/.  The spec describes it as the generic
    byte-order conversion between network (big-endian) order and the local
    integer representation: the eight bytes are reversed on a
    little-endian host and left alone otherwise. *)
Definition swap_bytes_if_little_endian_ll (v : Z) : Z :=
  if little_endian then wrap64 (le_value (rev (le_bytes 8 v))) else v.

(** How the process ended. *)
Inductive exit_kind :=
| Fatal (msg : string)
| Normal.

(** Modelled from the spec: [error] of [util.c], which is not under src/.
    The spec says a transport fault terminates the process immediately
    with a diagnostic. *)
Definition error (msg : string) : exit_kind := Fatal msg.

(** *** [create_server], lines 76-103

    [socket_ret] and [bind_ret] are the results of the [socket] and [bind]
    calls. *)
Definition create_server (socket_ret bind_ret : Z) : exit_kind + Z :=
  if socket_ret <? 0 then inl (error "ERROR on creating RTI socket")
  else if negb (bind_ret =? 0) then inl (error "ERROR on binding RTI socket")
  else inr socket_ret.

(** *** The read loop of [federate], lines 116-124 *)

Inductive recv_result :=
| RecvFatal (s : socket)
| RecvEof (s : socket) (buffer : list byte) (bytes_read : Z)
| RecvDone (s : socket) (buffer : list byte) (bytes_read : Z)
| RecvOutOfFuel.

Fixpoint read_loop (fuel : nat) (s : socket) (buffer : list byte) (bytes_read : Z)
  : recv_result :=
  if bytes_read <? 9 then
    match fuel with
    | O => RecvOutOfFuel
    | S fuel' =>
        let '(more, data, s') := read s (Z.to_nat (8 + 1 - bytes_read)) in
        if more <? 0 then RecvFatal s'
        else if more =? 0 then RecvEof s' buffer bytes_read
        else read_loop fuel' s'
               (store_at buffer (Z.to_nat bytes_read) data)
               (wrap32 (bytes_read + more))
    end
  else RecvDone s buffer bytes_read.

(** Every iteration that continues has read at least one byte, so nine
    iterations are enough. *)
Definition read_fuel : nat := 9.

(** [buffer[0]] and [*((long long* )(&(buffer[1])))]. *)
Definition buffer_tag (buffer : list byte) : byte := default x00 (buffer !! 0%nat).
Definition buffer_payload (buffer : list byte) : list byte := take 8 (drop 1 buffer).

(** Line 137. *)
Definition decode_timestamp (buffer : list byte) : Z :=
  swap_bytes_if_little_endian_ll (load_ll (buffer_payload buffer)).

(** *** Threads and shared state *)

(** Program points of [federate], named after the line executed next.
    [L153_blocked] is a thread suspended inside [pthread_cond_wait] (the
    mutex is released); [L153_woken] is a thread that has been woken and
    must take the mutex again before [pthread_cond_wait] returns. *)
Inductive loc :=
| L110 | L140 | L141 | L142 | L145 | L147 | L151
| L153_blocked | L153_woken
| L156 | L165 | L170 | L175
| L122_returned | L177_returned.

Record thread := mkThread {
  pc : loc;
  sock : socket;
  buffer : list byte;
  timestamp : Z;
  message : Z
}.

Definition at_loc (l : loc) (t : thread) : thread :=
  mkThread l (sock t) (buffer t) (timestamp t) (message t).

(** What [accept] returns for one federate, with the contents of the
    stack memory that becomes the uninitialised [buffer] of its thread. *)
Record conn := mkConn {
  c_sock : socket;
  c_stack : list byte
}.

(** The answers of the operating system to [main] and
    [connect_to_federates]. *)
Record env := mkEnv {
  socket_ret : Z;
  bind_ret : Z;
  malloc_ret : N;
  connections : list conn
}.

(** Program points of the main thread: line 208, line 211, the head of the
    accept loop (line 192) and of the join loop (line 220) with the value
    of [i], and the end of [main]. *)
Inductive main_loc :=
| M208 | M211
| M192 (i : Z)
| M220 (i : Z)
| M224.

Inductive diag :=
| Expected_TIMESTAMP (got : byte).

Record state := mkState {
  sys : env;
  number_of_federates : Z;
  max_start_time : Z;
  num_feds_proposed_start : Z;
  mutex : option nat;
  fed_socket_descriptor : N;
  threads : list thread;
  main_pc : main_loc;
  stderr : list diag;
  exited : option exit_kind
}.

Definition init (e : env) : state :=
  mkState e 0 0 0 None 0%N [] M208 [] None.

Definition set_thread (i : nat) (t : thread) (s : state) : state :=
  mkState (sys s) (number_of_federates s) (max_start_time s)
    (num_feds_proposed_start s) (mutex s) (fed_socket_descriptor s)
    (<[i := t]> (threads s)) (main_pc s) (stderr s) (exited s).

Definition set_mutex (m : option nat) (s : state) : state :=
  mkState (sys s) (number_of_federates s) (max_start_time s)
    (num_feds_proposed_start s) m (fed_socket_descriptor s)
    (threads s) (main_pc s) (stderr s) (exited s).

Definition set_max_start_time (v : Z) (s : state) : state :=
  mkState (sys s) (number_of_federates s) v
    (num_feds_proposed_start s) (mutex s) (fed_socket_descriptor s)
    (threads s) (main_pc s) (stderr s) (exited s).

Definition set_num_feds_proposed_start (v : Z) (s : state) : state :=
  mkState (sys s) (number_of_federates s) (max_start_time s)
    v (mutex s) (fed_socket_descriptor s)
    (threads s) (main_pc s) (stderr s) (exited s).

Definition set_main (m : main_loc) (s : state) : state :=
  mkState (sys s) (number_of_federates s) (max_start_time s)
    (num_feds_proposed_start s) (mutex s) (fed_socket_descriptor s)
    (threads s) m (stderr s) (exited s).

Definition log (d : list diag) (s : state) : state :=
  mkState (sys s) (number_of_federates s) (max_start_time s)
    (num_feds_proposed_start s) (mutex s) (fed_socket_descriptor s)
    (threads s) (main_pc s) (stderr s ++ d) (exited s).

Definition exit (k : exit_kind) (s : state) : state :=
  mkState (sys s) (number_of_federates s) (max_start_time s)
    (num_feds_proposed_start s) (mutex s) (fed_socket_descriptor s)
    (threads s) (main_pc s) (stderr s) (Some k).

(** [pthread_cond_broadcast]: every thread suspended on the condition
    variable is woken. *)
Definition wake (t : thread) : thread :=
  match pc t with
  | L153_blocked => at_loc L153_woken t
  | _ => t
  end.

Definition broadcast (s : state) : state :=
  mkState (sys s) (number_of_federates s) (max_start_time s)
    (num_feds_proposed_start s) (mutex s) (fed_socket_descriptor s)
    (map wake (threads s)) (main_pc s) (stderr s) (exited s).

(** *** [federate], lines 109-178, one statement at a time

    [federate i t s] runs the next statement of thread [i], whose locals
    are [t], in the state [s]; [None] means that the thread cannot run
    (it waits for the mutex or for the condition, or it has returned). *)

(** Lines 110-137: the read loop, the tag check and the decoding touch
    only the thread's own connection and locals. *)
Definition federate_receive (i : nat) (t : thread) (s : state) : option state :=
  match read_loop read_fuel (sock t) (buffer t) 0 with
  | RecvFatal _ => Some (exit (error "ERROR on RTI reading from socket") s)
  | RecvEof sk buf _ =>
      Some (set_thread i (mkThread L122_returned sk buf (timestamp t) (message t)) s)
  | RecvDone sk buf _ =>
      let warning :=
        if Byte.eqb (buffer_tag buf) TIMESTAMP then []
        else [Expected_TIMESTAMP (buffer_tag buf)] in
      Some (log warning
              (set_thread i (mkThread L140 sk buf (decode_timestamp buf) (message t)) s))
  | RecvOutOfFuel => None
  end.

Definition federate (i : nat) (t : thread) (s : state) : option state :=
  match pc t with
  | L110 => federate_receive i t s
  | L140 =>
      (* pthread_mutex_lock(&mutex) *)
      match mutex s with
      | None => Some (set_mutex (Some i) (set_thread i (at_loc L141 t) s))
      | Some _ => None
      end
  | L141 =>
      (* num_feds_proposed_start++ *)
      Some (set_num_feds_proposed_start (wrap32 (num_feds_proposed_start s + 1))
              (set_thread i (at_loc L142 t) s))
  | L142 =>
      (* if (timestamp > max_start_time) max_start_time = timestamp *)
      Some (set_thread i (at_loc L145 t)
              (if timestamp t >? max_start_time s
               then set_max_start_time (timestamp t) s
               else s))
  | L145 =>
      if num_feds_proposed_start s =? number_of_federates s
      then Some (set_thread i (at_loc L147 t) s)
      else Some (set_thread i (at_loc L151 t) s)
  | L147 =>
      (* pthread_cond_broadcast(&received_start_times) *)
      Some (set_thread i (at_loc L156 t) (broadcast s))
  | L151 =>
      if num_feds_proposed_start s <? number_of_federates s
      then (* pthread_cond_wait releases the mutex and suspends *)
        Some (set_mutex None (set_thread i (at_loc L153_blocked t) s))
      else Some (set_thread i (at_loc L156 t) s)
  | L153_blocked => None
  | L153_woken =>
      (* pthread_cond_wait takes the mutex again before it returns *)
      match mutex s with
      | None => Some (set_mutex (Some i) (set_thread i (at_loc L151 t) s))
      | Some _ => None
      end
  | L156 =>
      (* pthread_mutex_unlock(&mutex) *)
      Some (set_mutex None (set_thread i (at_loc L165 t) s))
  | L165 =>
      let '(bytes_written, sk) := write (sock t) [TIMESTAMP] in
      if bytes_written <? 0
      then Some (exit (error "ERROR sending message ID to federate") s)
      else Some (set_thread i
                   (mkThread L170 sk (buffer t) (timestamp t) (message t)) s)
  | L170 =>
      let message := swap_bytes_if_little_endian_ll (max_start_time s) in
      let '(bytes_written, sk) := write (sock t) (store_ll message) in
      if bytes_written <? 0
      then Some (exit (error "ERROR sending start time to federate") s)
      else Some (set_thread i
                   (mkThread L175 sk (buffer t) (timestamp t) message) s)
  | L175 =>
      Some (set_thread i
              (mkThread L177_returned (close (sock t)) (buffer t) (timestamp t)
                 (message t)) s)
  | L122_returned | L177_returned => None
  end.

(** *** [connect_to_federates] and [main] *)

(** [p < 0] for a pointer [p]: an address is an unsigned quantity. *)
Definition pointer_lt_0 (p : N) : bool := Z.of_N p <? 0.

Definition spawn (t : thread) (s : state) : state :=
  mkState (sys s) (number_of_federates s) (max_start_time s)
    (num_feds_proposed_start s) (mutex s) (fed_socket_descriptor s)
    (threads s ++ [t]) (main_pc s) (stderr s) (exited s).

Definition set_globals (n : Z) (p : N) (s : state) : state :=
  mkState (sys s) n (max_start_time s)
    (num_feds_proposed_start s) (mutex s) p
    (threads s) (main_pc s) (stderr s) (exited s).

(** One iteration of the loop of lines 192-202.  The next [accept] returns
    the next connection of the environment, or blocks when there is none.
    The test of line 198 is on the pointer [fed_socket_descriptor], not on
    the descriptor just stored in [fed_socket_descriptor[i]]. *)
Definition connect_to_federates (i : Z) (s : state) : option state :=
  if i <? number_of_federates s then
    match connections (sys s) !! length (threads s) with
    | None => None
    | Some c =>
        if pointer_lt_0 (fed_socket_descriptor s)
        then Some (exit (error "ERROR on server accept") s)
        else Some (set_main (M192 (wrap32 (i + 1)))
                     (spawn (mkThread L110 (c_sock c) (c_stack c) 0 0) s))
    end
  else Some (set_main (M220 0) s).

Definition returned (l : loc) : bool :=
  match l with
  | L122_returned | L177_returned => true
  | _ => false
  end.

Definition main (s : state) : option state :=
  match main_pc s with
  | M208 =>
      match create_server (socket_ret (sys s)) (bind_ret (sys s)) with
      | inl k => Some (exit k s)
      | inr _ => Some (set_main M211 s)
      end
  | M211 =>
      (* number_of_federates = ...; entry of connect_to_federates *)
      Some (set_main (M192 0)
              (set_globals configured_federates (malloc_ret (sys s)) s))
  | M192 i => connect_to_federates i s
  | M220 i =>
      if i <? number_of_federates s then
        (* pthread_join(thread_ids[i], ...) *)
        match threads s !! Z.to_nat i with
        | Some t =>
            if returned (pc t) then Some (set_main (M220 (wrap32 (i + 1))) s)
            else None
        | None => None
        end
      else Some (set_main M224 s)
  | M224 => Some (exit Normal s)
  end.

(** *** Interleaving *)

(** One scheduling decision: the main thread runs a statement, the thread
    of federate [i] runs a statement, or the thread of federate [i] wakes
    from [pthread_cond_wait] without a broadcast (a spurious wakeup). *)
Inductive action :=
| Main
| Thread (i : nat)
| Wakeup (i : nat).

Definition exec (a : action) (s : state) : option state :=
  match exited s with
  | Some _ => None
  | None =>
      match a with
      | Main => main s
      | Thread i =>
          match threads s !! i with
          | Some t => federate i t s
          | None => None
          end
      | Wakeup i =>
          match threads s !! i with
          | Some t =>
              match pc t with
              | L153_blocked => Some (set_thread i (at_loc L153_woken t) s)
              | _ => None
              end
          | None => None
          end
      end
  end.

Fixpoint run (sched : list action) (s : state) : option state :=
  match sched with
  | [] => Some s
  | a :: sched' =>
      match exec a s with
      | Some s' => run sched' s'
      | None => None
      end
  end.

Definition reachable (e : env) (s : state) : Prop :=
  exists sched, run sched (init e) = Some s.

(** ** Notions used in the statements *)

(** The bytes a connection delivers before its stream ends or fails, and
    whether it fails. *)
Fixpoint stream_data (evs : list rd_event) : list byte :=
  match evs with
  | Chunk bs :: evs' => bs ++ stream_data evs'
  | _ => []
  end.

Fixpoint stream_fails (evs : list rd_event) : bool :=
  match evs with
  | [] => false
  | RdFail :: _ => true
  | Chunk _ :: evs' => stream_fails evs'
  end.

(** The maximum of a list of instants and 0, the initial value of
    [max_start_time]; and the plain maximum of a non-empty list. *)
Definition max0 (l : list Z) : Z := fold_right Z.max 0 l.

Fixpoint list_max (t : Z) (l : list Z) : Z :=
  match l with
  | [] => t
  | t' :: l' => Z.max t (list_max t' l')
  end.

(** Program points classified by what the thread has done so far:
    [counted] after line 141, [accepted] after lines 141-144,
    [holds_mutex] between lock and unlock, [released] once the test of
    line 145 or of line 151 has let the thread through, [responded] after
    both writes. *)
Definition counted (l : loc) : bool :=
  match l with
  | L110 | L140 | L141 | L122_returned => false
  | _ => true
  end.

Definition accepted (l : loc) : bool :=
  match l with
  | L110 | L140 | L141 | L142 | L122_returned => false
  | _ => true
  end.

Definition holds_mutex (l : loc) : bool :=
  match l with
  | L141 | L142 | L145 | L147 | L151 | L156 => true
  | _ => false
  end.

Definition released (l : loc) : bool :=
  match l with
  | L147 | L156 | L165 | L170 | L175 | L177_returned => true
  | _ => false
  end.

Definition responded (l : loc) : bool :=
  match l with
  | L175 | L177_returned => true
  | _ => false
  end.

Fixpoint count_threads (p : loc -> bool) (ts : list thread) : nat :=
  match ts with
  | [] => 0
  | t :: ts' => ((if p (pc t) then 1 else 0) + count_threads p ts')%nat
  end.

(** The maximum of 0 and the instants of the accepted proposals. *)
Fixpoint aggregate (ts : list thread) : Z :=
  match ts with
  | [] => 0
  | t :: ts' =>
      if accepted (pc t) then Z.max (timestamp t) (aggregate ts')
      else aggregate ts'
  end.

(** The instant a connection proposes: what the thread serving it decodes,
    when its read loop gets nine bytes. *)
Definition conn_proposal (c : conn) : option Z :=
  match read_loop read_fuel (c_sock c) (c_stack c) 0 with
  | RecvDone _ buf _ => Some (decode_timestamp buf)
  | _ => None
  end.

(** The integer a peer decodes from the eight bytes handed to the second
    [write]. *)
Definition response_value (t : thread) : Z :=
  be64_value (store_ll (message t)).

(** A peer that sends a complete proposal with tag [tag] and instant [v],
    in chunks of any sizes, possibly followed by more. *)
Definition sends (c : conn) (tag : byte) (v : Z) : Prop :=
  usable (c_sock c) = true /\
  take 9 (stream_data (incoming (c_sock c))) = tag :: be64_bytes v.

(** The part of a connection that reading does not touch. *)
Definition same_peer (s s' : socket) : Prop :=
  fd s' = fd s /\ wr_oracle s' = wr_oracle s /\ sent s' = sent s /\
  is_open s' = is_open s.

(** What relates a thread to the connection it serves: before its first
    step it has the connection and the stack memory as [accept] and
    [pthread_create] left them; afterwards [timestamp] is the instant the
    connection proposes, or the thread has returned at line 122 because the
    connection proposes nothing. *)
Definition serves (t : thread) (c : conn) : Prop :=
  match pc t with
  | L110 => sock t = c_sock c /\ buffer t = c_stack c
  | L122_returned => conn_proposal c = None
  | _ => conn_proposal c = Some (timestamp t)
  end.

Definition started (m : main_loc) : bool :=
  match m with
  | M208 | M211 => false
  | _ => true
  end.

(** The invariant of the runs from [init e]. *)
Record Inv (e : env) (s : state) : Prop := mkInv {
  inv_sys : sys s = e;
  inv_started : started (main_pc s) = true ->
                number_of_federates s = configured_federates;
  inv_main : match main_pc s with
             | M208 | M211 => threads s = []
             | M192 i => i = Z.of_nat (length (threads s))
             | _ => True
             end;
  inv_len : Z.of_nat (length (threads s)) <= configured_federates;
  inv_count : num_feds_proposed_start s
              = Z.of_nat (count_threads counted (threads s));
  inv_max : max_start_time s = aggregate (threads s);
  inv_holder : forall i t, threads s !! i = Some t ->
               (holds_mutex (pc t) = true <-> mutex s = Some i);
  inv_owner : forall i, mutex s = Some i -> is_Some (threads s !! i);
  inv_released : forall i t, threads s !! i = Some t ->
                 released (pc t) = true ->
                 num_feds_proposed_start s = configured_federates /\
                 forall j tj, threads s !! j = Some tj ->
                              accepted (pc tj) = true;
  inv_conn : forall i t, threads s !! i = Some t ->
             exists c, connections e !! i = Some c /\ serves t c
}.

(** All the federates have been accepted by the barrier: [max_start_time]
    is final. *)
Definition settled (s : state) : Prop :=
  Z.of_nat (length (threads s)) = configured_federates /\
  forall j tj, threads s !! j = Some tj -> accepted (pc tj) = true.

(** The control flow of [federate] between program points. *)
Definition edge (l l' : loc) : bool :=
  match l, l' with
  | L110, L140 | L110, L122_returned
  | L140, L141 | L141, L142 | L142, L145
  | L145, L147 | L145, L151 | L147, L156
  | L151, L153_blocked | L151, L156
  | L153_blocked, L153_woken | L153_woken, L151
  | L156, L165 | L165, L170 | L170, L175 | L175, L177_returned => true
  | _, _ => false
  end.

(** What one statement of a thread does to its locals and connection, in
    a state [s], with the tests that guard the two ways into the wait
    loop. *)
Definition evolves (s : state) (t t' : thread) : Prop :=
  edge (pc t) (pc t') = true /\
  (pc t = L151 -> pc t' = L153_blocked ->
   num_feds_proposed_start s < number_of_federates s) /\
  (pc t = L145 -> pc t' = L151 ->
   num_feds_proposed_start s <> number_of_federates s) /\
  (pc t <> L110 -> timestamp t' = timestamp t) /\
  message t' = match pc t with
               | L170 => swap_bytes_if_little_endian_ll (max_start_time s)
               | _ => message t
               end /\
  match pc t with
  | L110 => same_peer (sock t) (sock t')
  | L165 => exists w, write (sock t) [TIMESTAMP] = (w, sock t') /\ 0 <= w
  | L170 => exists w, write (sock t) (store_ll (message t')) = (w, sock t') /\ 0 <= w
  | L175 => sock t' = close (sock t)
  | _ => sock t' = sock t
  end.

(** The value in [message] once a thread has executed line 170. *)
Definition answered (s : state) : Prop :=
  forall i t, threads s !! i = Some t -> responded (pc t) = true ->
              message t = swap_bytes_if_little_endian_ll (max_start_time s).

(** The instants proposed by the federates that get a thread. *)
Definition proposals (e : env) : list Z :=
  omap conn_proposal (take (Z.to_nat configured_federates) (connections e)).

(** The number of statements a thread still has to execute inside the
    barrier once the counter is full, and the sum over all threads. *)
Definition rank (l : loc) : nat :=
  match l with
  | L142 => 7
  | L145 => 6
  | L147 => 5
  | L153_blocked => 4
  | L153_woken => 3
  | L151 => 2
  | L156 => 1
  | _ => 0
  end.

Fixpoint potential (ts : list thread) : nat :=
  match ts with
  | [] => 0
  | t :: ts' => (rank (pc t) + potential ts')%nat
  end.

(** A thread that has been counted and has not yet decided between
    broadcasting and waiting. *)
Definition pending (l : loc) : bool :=
  match l with
  | L142 | L145 | L147 => true
  | _ => false
  end.

(** A thread that has left the barrier. *)
Definition passed (l : loc) : bool :=
  match l with
  | L165 | L170 | L175 | L177_returned => true
  | _ => false
  end.

(** No wakeup is lost: while a thread is suspended on the condition
    variable, either some federate is still to be counted or the thread
    that will broadcast is on its way. *)
Definition signalled (s : state) : Prop :=
  num_feds_proposed_start s < number_of_federates s \/
  (exists k tk, threads s !! k = Some tk /\ pending (pc tk) = true) \/
  (forall j tj, threads s !! j = Some tj -> pc tj <> L153_blocked).

Definition is_thread_action (a : action) : Prop :=
  match a with
  | Thread _ => True
  | _ => False
  end.

(** The connection of a thread against the connection [accept] returned,
    up to the bytes still to be read: untouched until the first write, then
    after one write, after both, and closed. *)
Definition transmitted (t : thread) (c : conn) : Prop :=
  let first := snd (write (c_sock c) [TIMESTAMP]) in
  let second := snd (write first (store_ll (message t))) in
  match pc t with
  | L110 => True
  | L170 => same_peer first (sock t)
  | L175 => same_peer second (sock t)
  | L177_returned => same_peer (close second) (sock t)
  | _ => same_peer (c_sock c) (sock t)
  end.

(** What the main thread has established once it is past the accept loop:
    one thread per federate, those already joined have returned; and the
    process only ends normally with all of them returned. *)
Definition joining (s : state) : Prop :=
  match main_pc s with
  | M220 i =>
      exited s <> Some Normal /\
      0 <= i <= configured_federates /\
      Z.of_nat (length (threads s)) = configured_federates /\
      forall k t, Z.of_nat k < i -> threads s !! k = Some t ->
                  returned (pc t) = true
  | M224 =>
      Z.of_nat (length (threads s)) = configured_federates /\
      forall k t, threads s !! k = Some t -> returned (pc t) = true
  | _ => exited s <> Some Normal
  end.

(** A measure of the statements a thread has before it outside the
    release of the barrier: before it is counted and suspended, and after
    it has left the barrier; and the sum over all threads. *)
Definition effort (l : loc) : nat :=
  match l with
  | L110 => 8
  | L140 => 7
  | L141 => 6
  | L142 => 5
  | L145 => 4
  | L151 => 3
  | L165 => 3
  | L170 => 2
  | L175 => 1
  | _ => 0
  end.

Fixpoint workload (ts : list thread) : nat :=
  match ts with
  | [] => 0
  | t :: ts' => (effort (pc t) + workload ts')%nat
  end.

(** A connection that is open and on which no [write] fails. *)
Definition reliable (sk : socket) : Prop :=
  usable sk = true /\ Forall (fun ev => ev <> WrFail) (wr_oracle sk).

(** ** Scenarios

    Concrete environments and schedules on which the statements below are
    evaluated. *)

(** A federate on descriptor [descriptor] whose bytes arrive in the given
    chunks, with the outcomes [o] for the writes of the response; the
    thread serving it finds [junk] in its buffer. *)
Definition peer (descriptor : Z) (chunks : list (list byte)) (o : list wr_event)
  : conn :=
  mkConn (mkSocket descriptor (map Chunk chunks) o [] true) [xaa; xbb; xcc].

Definition world (cs : list conn) : env := mkEnv 3 0 4096%N cs.

(** Lines 208 and 211 of [main], then [n] iterations of the accept loop. *)
Definition startup (n : nat) : list action := Main :: Main :: repeat Main n.

(** Thread [i] reads its proposal, is counted and suspends itself in
    [pthread_cond_wait]. *)
Definition arrive_and_wait (i : nat) : list action := repeat (Thread i) 6.

(** Thread [i] reads its proposal, finds the counter full, broadcasts,
    answers and returns. *)
Definition arrive_last (i : nat) : list action := repeat (Thread i) 10.

(** Thread [i], woken by the broadcast, leaves the barrier, answers and
    returns. *)
Definition resume (i : nat) : list action := repeat (Thread i) 6.

Definition state_after (e : env) (sched : list action) : state :=
  default (init e) (run sched (init e)).

Definition thread_of (s : state) (i : nat) : thread :=
  default (mkThread L110 (mkSocket 0 [] [] [] false) [] 0 0) (threads s !! i).

(** Two federates that both propose a negative instant, -7 and -3. *)
Definition negative_pair : env :=
  world [peer 4 [TIMESTAMP :: take 3 (be64_bytes (-7)); drop 3 (be64_bytes (-7))] [];
         peer 5 [[TIMESTAMP]; be64_bytes (-3) ++ [x11; x33]] []].

(** Scenario A of the specification, in the two orders of connection. *)
Definition scenario_A : env :=
  world [peer 4 [TIMESTAMP :: be64_bytes 100] [];
         peer 5 [[TIMESTAMP]; take 5 (be64_bytes 200); drop 5 (be64_bytes 200)] []].

Definition scenario_A_swapped : env :=
  world [peer 4 [[TIMESTAMP]; take 5 (be64_bytes 200); drop 5 (be64_bytes 200)] [];
         peer 5 [TIMESTAMP :: be64_bytes 100] []].

(** Scenario C of the specification: the first federate sends the tag
    [tag] with instant 300, the second [TIMESTAMP] with instant 150. *)
Definition scenario_C (tag : byte) : env :=
  world [peer 4 [tag :: be64_bytes 300] [];
         peer 5 [take 4 (TIMESTAMP :: be64_bytes 150);
                 drop 4 (TIMESTAMP :: be64_bytes 150)] []].

(** Scenario D of the specification: a federate that disconnects after
    five bytes. *)
Definition scenario_D : env :=
  world [peer 4 [[TIMESTAMP; x00]; [x00; x00; x01]] [];
         peer 5 [TIMESTAMP :: be64_bytes 150] []].

(** A failing [accept]. *)
Definition refused : env := world [peer (-1) [] []].

(** One federate whose connection takes none of the tag byte and three
    bytes of the instant. *)
Definition lossy : env :=
  world [peer 4 [TIMESTAMP :: be64_bytes 5] [WrLen 0; WrLen 3]].

(** A complete run of two federates: the first waits, the second
    broadcasts. *)
Definition full_run : list action :=
  startup 2 ++ arrive_and_wait 0 ++ arrive_last 1 ++ resume 0.

(** The schedules and states used below. *)
Definition accepted_run : list action :=
  startup 2 ++ arrive_and_wait 0 ++ repeat (Thread 1) 4.

Definition answer_run : list action := repeat (Thread 1) 6 ++ resume 0.

Definition swapped_run : list action :=
  startup 2 ++ arrive_and_wait 1 ++ arrive_last 0 ++ resume 1.

Definition released_run : list action := startup 1 ++ repeat (Thread 0) 7.

Definition negative_final : state := state_after negative_pair full_run.
Definition scenario_A_accepted : state := state_after scenario_A accepted_run.
Definition scenario_A_final : state := state_after scenario_A full_run.
Definition scenario_A_swapped_final : state :=
  state_after scenario_A_swapped swapped_run.
Definition scenario_C_connected (tag : byte) : state :=
  state_after (scenario_C tag) (startup 2).
Definition scenario_C_final (tag : byte) : state :=
  state_after (scenario_C tag) full_run.
Definition scenario_D_connected : state := state_after scenario_D (startup 2).
Definition refused_listening : state := state_after refused [Main; Main].
Definition lossy_released : state := state_after lossy released_run.

(** More runs: thread 0 of scenario A inside the critical section and
    suspended in the barrier; a complete run up to the return of [main];
    scenario D once the first federate has left and the second waits; a
    single federate where two are expected; a failing [socket]; a
    connection that fails after two bytes. *)
Definition shutdown : list action := repeat Main 5.

Definition scenario_A_locked : state :=
  state_after scenario_A (startup 2 ++ [Thread 0; Thread 0]).
Definition scenario_A_waiting : state :=
  state_after scenario_A (startup 2 ++ arrive_and_wait 0).
Definition scenario_A_exited : state :=
  state_after scenario_A (full_run ++ shutdown).
Definition scenario_D_left : state :=
  state_after scenario_D (startup 2 ++ [Thread 0]).
Definition scenario_D_stalled : state :=
  state_after scenario_D (startup 2 ++ [Thread 0] ++ arrive_and_wait 1).
Definition lonely_waiting : state :=
  state_after lossy (startup 1 ++ arrive_and_wait 0).
Definition no_socket : env := mkEnv (-1) 0 4096%N [].
Definition no_socket_exited : state := state_after no_socket [Main].
Definition refused_exited : state :=
  state_after refused (startup 1 ++ [Thread 0]).
Definition broken : env :=
  world [mkConn (mkSocket 4 [Chunk [TIMESTAMP; x00]; RdFail] [] [] true) []].
Definition broken_connected : state := state_after broken (startup 1).

(** A stream of eleven bytes that arrive in three chunks and then fails,
    and a stream that ends after five bytes. *)
Definition chunked_socket : socket :=
  mkSocket 4 (map Chunk [[x02; x00; x00]; [x00; x00; x00; x00; x00];
                         [x01; x2c; x55]] ++ [RdFail]) [] [] true.

Definition short_socket : socket :=
  mkSocket 4 (map Chunk [[x02; x00]; [x00; x00; x01]]) [] [] true.

(** * Proofs *)

(** ** Machine integers and bytes *)

Lemma wrap32_id z : is_int z -> wrap32 z = z.
Proof.
  unfold is_int, INT_MAX, wrap32. intros H.
  rewrite Z.mod_small; lia.
Qed.

Lemma wrap64_id z : is_ll z -> wrap64 z = z.
Proof.
  unfold is_ll, wrap64. intros H.
  rewrite Z.mod_small; lia.
Qed.

Lemma wrap64_range z : is_ll (wrap64 z).
Proof.
  unfold is_ll, wrap64.
  pose proof (Z.mod_pos_bound (z + 2 ^ 63) (2 ^ 64) ltac:(lia)). lia.
Qed.

Lemma wrap64_congr a b k : a = b + k * 2 ^ 64 -> wrap64 a = wrap64 b.
Proof.
  intros ->. unfold wrap64.
  replace (b + k * 2 ^ 64 + 2 ^ 63) with (b + 2 ^ 63 + k * 2 ^ 64) by lia.
  now rewrite Z.mod_add by lia.
Qed.

Lemma Z_of_byte_range b : 0 <= Z_of_byte b < 256.
Proof.
  unfold Z_of_byte. pose proof (Byte.to_N_bounded b). lia.
Qed.

Lemma byte_of_Z_of_byte b : byte_of_Z (Z_of_byte b) = b.
Proof.
  unfold byte_of_Z. rewrite Z.mod_small by apply Z_of_byte_range.
  unfold Z_of_byte. rewrite N2Z.id, Byte.of_to_N. reflexivity.
Qed.

Lemma Z_of_byte_of_Z z : Z_of_byte (byte_of_Z z) = z mod 256.
Proof.
  unfold byte_of_Z, Z_of_byte.
  pose proof (Z.mod_pos_bound z 256 ltac:(lia)) as Hb.
  destruct (Byte.of_N (Z.to_N (z mod 256))) as [b|] eqn:E.
  - apply Byte.to_of_N in E. rewrite E. lia.
  - apply Byte.of_N_None_iff in E. lia.
Qed.

Lemma byte_of_Z_congr z k : byte_of_Z (z + k * 256) = byte_of_Z z.
Proof. unfold byte_of_Z. now rewrite Z.mod_add by lia. Qed.

Lemma le_bytes_length n z : length (le_bytes n z) = n.
Proof.
  revert z. induction n as [|n IH]; intros z; simpl; [|rewrite IH]; reflexivity.
Qed.

Lemma le_bytes_value bs : le_bytes (length bs) (le_value bs) = bs.
Proof.
  induction bs as [|b bs IH]; [reflexivity|].
  cbn [length le_bytes le_value]. f_equal.
  - replace (Z_of_byte b + 256 * le_value bs)
      with (Z_of_byte b + le_value bs * 256) by lia.
    rewrite byte_of_Z_congr. apply byte_of_Z_of_byte.
  - replace (Z_of_byte b + 256 * le_value bs)
      with (le_value bs * 256 + Z_of_byte b) by lia.
    rewrite Z.div_add_l by lia.
    rewrite Z.div_small by apply Z_of_byte_range.
    now rewrite Z.add_0_r.
Qed.

Lemma le_value_bytes n z : le_value (le_bytes n z) = z mod 256 ^ Z.of_nat n.
Proof.
  revert z. induction n as [|n IH]; intros z.
  - simpl. now rewrite Z.mod_1_r.
  - cbn [le_bytes le_value]. rewrite IH, Z_of_byte_of_Z.
    rewrite Nat2Z.inj_succ, Z.pow_succ_r by lia.
    rewrite Z.rem_mul_r by lia. reflexivity.
Qed.

Lemma le_bytes_congr n z k :
  le_bytes n (z + k * 256 ^ Z.of_nat n) = le_bytes n z.
Proof.
  revert z k. induction n as [|n IH]; intros z k; [reflexivity|].
  cbn [le_bytes]. rewrite Nat2Z.inj_succ, Z.pow_succ_r by lia.
  replace (z + k * (256 * 256 ^ Z.of_nat n))
    with (z + (k * 256 ^ Z.of_nat n) * 256) by lia.
  f_equal.
  - apply byte_of_Z_congr.
  - rewrite Z.div_add by lia. apply IH.
Qed.

Lemma le_bytes_wrap64 z : le_bytes 8 (wrap64 z) = le_bytes 8 z.
Proof.
  unfold wrap64.
  pose proof (Z.div_mod (z + 2 ^ 63) (2 ^ 64) ltac:(lia)) as H.
  replace ((z + 2 ^ 63) mod 2 ^ 64 - 2 ^ 63)
    with (z + (- ((z + 2 ^ 63) / 2 ^ 64)) * 256 ^ Z.of_nat 8).
  - apply le_bytes_congr.
  - change (256 ^ Z.of_nat 8) with (2 ^ 64). lia.
Qed.

Lemma wrap64_le_value_bytes z : is_ll z -> wrap64 (le_value (le_bytes 8 z)) = z.
Proof.
  intros Hz. rewrite le_value_bytes. change (256 ^ Z.of_nat 8) with (2 ^ 64).
  rewrite <- (wrap64_id z Hz) at 2.
  apply (wrap64_congr _ _ (- (z / 2 ^ 64))).
  pose proof (Z.div_mod z (2 ^ 64) ltac:(lia)). lia.
Qed.

(** ** The wire format: whatever the byte order of the host, the payload is
    read and written in network order *)

Lemma be64_bytes_length v : length (be64_bytes v) = 8%nat.
Proof. unfold be64_bytes. now rewrite List.length_rev, le_bytes_length. Qed.

Lemma be64_value_bytes v : is_ll v -> be64_value (be64_bytes v) = v.
Proof.
  intros Hv. unfold be64_value, be64_bytes.
  rewrite rev_involutive. now apply wrap64_le_value_bytes.
Qed.

Lemma be64_value_range bs : is_ll (be64_value bs).
Proof. apply wrap64_range. Qed.

Lemma swap_load_ll bs :
  length bs = 8%nat ->
  swap_bytes_if_little_endian_ll (load_ll bs) = be64_value bs.
Proof.
  intros Hlen. unfold swap_bytes_if_little_endian_ll, load_ll, be64_value.
  destruct little_endian; [|reflexivity].
  rewrite le_bytes_wrap64. rewrite <- Hlen, le_bytes_value. reflexivity.
Qed.

Lemma store_swap_ll v :
  store_ll (swap_bytes_if_little_endian_ll v) = be64_bytes v.
Proof.
  unfold swap_bytes_if_little_endian_ll, store_ll, be64_bytes.
  destruct little_endian; [|reflexivity].
  rewrite le_bytes_wrap64.
  replace 8%nat with (length (rev (le_bytes 8 v))) at 1
    by now rewrite List.length_rev, le_bytes_length.
  apply le_bytes_value.
Qed.

Lemma decode_timestamp_range buf : is_ll (decode_timestamp buf).
Proof.
  unfold decode_timestamp, swap_bytes_if_little_endian_ll, load_ll.
  destruct little_endian; apply wrap64_range.
Qed.

(** ** [read] against the stream of a connection *)

Lemma read_events_data evs count :
  (0 < count)%nat ->
  stream_data evs <> [] ->
  exists data evs',
    read_events evs count = (Z.of_nat (length data), data, evs') /\
    (0 < length data <= count)%nat /\
    stream_data evs = data ++ stream_data evs' /\
    stream_fails evs' = stream_fails evs.
Proof.
  intros Hc. induction evs as [|ev evs IH]; intros Hne; [done|].
  destruct ev as [bs|]; [|done].
  destruct bs as [|b bs].
  - cbn [read_events stream_data stream_fails app] in *. auto.
  - cbn [read_events stream_fails].
    destruct (Nat.leb_spec (length (b :: bs)) count) as [Hle|Hgt].
    + exists (b :: bs), evs. cbn [length] in *. repeat split; auto; lia.
    + exists (take count (b :: bs)), (Chunk (drop count (b :: bs)) :: evs).
      rewrite length_take. rewrite Nat.min_l by lia.
      repeat split; auto; try lia.
      cbn [stream_data]. rewrite app_assoc, take_drop. reflexivity.
Qed.

Lemma read_events_empty evs count :
  stream_data evs = [] ->
  exists evs',
    read_events evs count = (if stream_fails evs then -1 else 0, [], evs') /\
    (stream_fails evs = false -> evs' = []).
Proof.
  induction evs as [|ev evs IH]; intros He.
  - exists []. split; reflexivity.
  - destruct ev as [bs|].
    + destruct bs as [|b bs]; [|done].
      cbn [read_events stream_fails stream_data app] in *. auto.
    + exists evs. split; [reflexivity|done].
Qed.

Lemma store_at_prefix arr off data :
  (off <= length arr)%nat ->
  take (off + length data) (store_at arr off data) = take off arr ++ data.
Proof.
  intros Hle. unfold store_at.
  rewrite app_assoc.
  rewrite take_app_length'; [reflexivity|].
  rewrite length_app, length_take. lia.
Qed.

Lemma store_at_length arr off data :
  (off <= length arr)%nat ->
  (off + length data <= length (store_at arr off data))%nat.
Proof.
  intros Hle. unfold store_at. rewrite !length_app, length_take. lia.
Qed.

Lemma same_peer_refl s : same_peer s s.
Proof. unfold same_peer. auto. Qed.

Lemma same_peer_trans s1 s2 s3 : same_peer s1 s2 -> same_peer s2 s3 -> same_peer s1 s3.
Proof. unfold same_peer. intros (?&?&?&?) (?&?&?&?). repeat split; congruence. Qed.

Lemma same_peer_usable s s' : same_peer s s' -> usable s' = usable s.
Proof. unfold same_peer, usable. intros (->&_&_&->). reflexivity. Qed.

Lemma same_peer_set_incoming evs s : same_peer s (set_incoming evs s).
Proof. unfold same_peer. auto. Qed.

(** The loop, started with [bytes_read = n] bytes already in [buffer]:
    it ends with nine bytes when the stream has that many, and otherwise
    at the failure or at the end of the stream. *)
Lemma read_loop_from fuel sk buf (n : nat) :
  usable sk = true ->
  (n <= 9)%nat ->
  (9 - n <= fuel)%nat ->
  (n <= length buf)%nat ->
  let data := stream_data (incoming sk) in
  if (9 - n <=? length data)%nat then
    exists sk' buf',
      read_loop fuel sk buf (Z.of_nat n) = RecvDone sk' buf' 9 /\
      take 9 buf' = take n buf ++ take (9 - n) data /\
      stream_data (incoming sk') = drop (9 - n) data /\
      stream_fails (incoming sk') = stream_fails (incoming sk) /\
      same_peer sk sk'
  else if stream_fails (incoming sk) then
    exists sk', read_loop fuel sk buf (Z.of_nat n) = RecvFatal sk'
  else
    exists sk' buf',
      read_loop fuel sk buf (Z.of_nat n)
      = RecvEof sk' buf' (Z.of_nat (n + length data)) /\
      take (n + length data) buf' = take n buf ++ data /\
      incoming sk' = [] /\
      same_peer sk sk'.
Proof.
  revert sk buf n. induction fuel as [|fuel IH]; intros sk buf n Hu Hn Hf Hb data.
  - assert (n = 9%nat) as -> by lia. cbn [read_loop].
    simpl. exists sk, buf. rewrite drop_0, take_0, app_nil_r.
    split_and!; auto using same_peer_refl.
  - cbn [read_loop].
    destruct (Z.ltb_spec (Z.of_nat n) 9) as [Hlt|Hge].
    2:{ assert (n = 9%nat) as -> by lia. simpl.
        exists sk, buf. rewrite drop_0, take_0, app_nil_r.
        split_and!; auto using same_peer_refl. }
    unfold read. rewrite Hu.
    replace (Z.to_nat (8 + 1 - Z.of_nat n)) with (9 - n)%nat by lia.
    assert (data = [] \/ data <> []) as [Hdata|Hdata]
      by (destruct data; [left|right]; done).
    + destruct (read_events_empty (incoming sk) (9 - n) Hdata) as (evs' & -> & Hnil).
      rewrite Hdata. cbn [length].
      destruct (Nat.leb_spec (9 - n) 0) as [?|_]; [lia|].
      destruct (stream_fails (incoming sk)); simpl.
      * eauto.
      * exists (set_incoming evs' sk), buf.
        rewrite Nat.add_0_r, app_nil_r.
        split_and!; auto using same_peer_set_incoming.
    + destruct (read_events_data (incoming sk) (9 - n)) as (d & evs' & -> & Hd & Hsplit & Hfail).
      { lia. } { exact Hdata. }
      destruct (Z.ltb_spec (Z.of_nat (length d)) 0) as [?|_]; [lia|].
      destruct (Z.eqb_spec (Z.of_nat (length d)) 0) as [?|_]; [lia|].
      rewrite wrap32_id by (unfold is_int, INT_MAX; lia).
      rewrite Nat2Z.id.
      replace (Z.of_nat n + Z.of_nat (length d)) with (Z.of_nat (n + length d)) by lia.
      set (sk1 := set_incoming evs' sk).
      specialize (IH sk1 (store_at buf n d) (n + length d)%nat).
      assert (Hu1 : usable sk1 = true) by exact Hu.
      specialize (IH Hu1 ltac:(lia) ltac:(lia)
                    ltac:(apply store_at_length; lia)).
      cbn zeta in IH. change (incoming sk1) with evs' in IH.
      rewrite store_at_prefix in IH by lia.
      fold data in Hsplit. rewrite Hsplit, length_app.
      destruct (Nat.leb_spec (9 - n) (length d + length (stream_data evs'))) as [Hlong|Hshort].
      * destruct (Nat.leb_spec (9 - (n + length d)) (length (stream_data evs'))) as [_|?]; [|lia].
        destruct IH as (sk' & buf' & -> & Hbuf & Hrest & Hf' & Hsame).
        exists sk', buf'. split_and!.
        -- reflexivity.
        -- rewrite Hbuf, <- app_assoc. f_equal.
           rewrite take_app. f_equal.
           ++ rewrite take_ge by lia. reflexivity.
           ++ now replace (9 - n - length d)%nat with (9 - (n + length d))%nat by lia.
        -- rewrite Hrest, drop_app.
           rewrite (drop_ge d) by lia. simpl.
           now replace (9 - n - length d)%nat with (9 - (n + length d))%nat by lia.
        -- congruence.
        -- eapply same_peer_trans; [apply (same_peer_set_incoming evs')|exact Hsame].
      * destruct (Nat.leb_spec (9 - (n + length d)) (length (stream_data evs'))) as [?|_]; [lia|].
        rewrite <- Hfail.
        destruct (stream_fails evs').
        -- exact IH.
        -- destruct IH as (sk' & buf' & -> & Hbuf & Hnil & Hsame).
           exists sk', buf'. split_and!.
           ++ do 2 f_equal. lia.
           ++ rewrite Nat.add_assoc, Hbuf, <- app_assoc. reflexivity.
           ++ exact Hnil.
           ++ eapply same_peer_trans; [apply (same_peer_set_incoming evs')|exact Hsame].
Qed.

(** ** Counting threads and aggregating their instants *)

Lemma count_threads_app p l1 l2 :
  count_threads p (l1 ++ l2) = (count_threads p l1 + count_threads p l2)%nat.
Proof. induction l1 as [|t l1 IH]; cbn [count_threads app]; lia. Qed.

Lemma count_threads_le p l : (count_threads p l <= length l)%nat.
Proof.
  induction l as [|t l IH]; cbn [count_threads length]; [lia|].
  destruct (p (pc t)); lia.
Qed.

Lemma count_threads_all p l :
  count_threads p l = length l ->
  forall i t, l !! i = Some t -> p (pc t) = true.
Proof.
  induction l as [|t0 l IH]; intros Hc i t Hi; [done|].
  cbn [count_threads length] in Hc.
  pose proof (count_threads_le p l).
  destruct (p (pc t0)) eqn:Hp; [|lia].
  destruct i as [|i]; cbn in Hi.
  - congruence.
  - eapply IH; [lia|exact Hi].
Qed.

Lemma count_threads_insert p l i t t' :
  l !! i = Some t ->
  (count_threads p (<[i:=t']> l) + (if p (pc t) then 1 else 0)
   = count_threads p l + (if p (pc t') then 1 else 0))%nat.
Proof.
  revert i. induction l as [|t0 l IH]; intros i Hi; [done|].
  destruct i as [|i]; simpl in Hi |- *.
  - injection Hi as ->. destruct (p (pc t)), (p (pc t')); lia.
  - specialize (IH i Hi). rewrite <- !Nat.add_assoc. f_equal. exact IH.
Qed.

Lemma count_threads_wake p l :
  p L153_woken = p L153_blocked ->
  count_threads p (map wake l) = count_threads p l.
Proof.
  intros Hp. induction l as [|t l IH]; [reflexivity|].
  cbn [map count_threads]. rewrite IH. f_equal.
  unfold wake. destruct (pc t) eqn:E; cbn; rewrite ?E; try reflexivity.
  now rewrite Hp.
Qed.

Lemma aggregate_nonneg l : 0 <= aggregate l.
Proof.
  induction l as [|t l IH]; cbn [aggregate]; [lia|].
  destruct (accepted (pc t)); lia.
Qed.

Lemma aggregate_app l1 l2 :
  aggregate (l1 ++ l2) = Z.max (aggregate l1) (aggregate l2).
Proof.
  pose proof (aggregate_nonneg l2).
  induction l1 as [|t l1 IH]; cbn [aggregate app]; [lia|].
  destruct (accepted (pc t)); lia.
Qed.

Lemma aggregate_insert_same l i t t' :
  l !! i = Some t ->
  accepted (pc t') = accepted (pc t) ->
  timestamp t' = timestamp t ->
  aggregate (<[i:=t']> l) = aggregate l.
Proof.
  intros Hi Ha Ht.
  revert i Hi. induction l as [|t0 l IH]; intros i Hi; [done|].
  destruct i as [|i]; simpl in Hi |- *.
  - injection Hi as ->. now rewrite Ha, Ht.
  - now rewrite (IH i Hi).
Qed.

Lemma aggregate_insert_rejected l i t t' :
  l !! i = Some t ->
  accepted (pc t) = false ->
  accepted (pc t') = false ->
  aggregate (<[i:=t']> l) = aggregate l.
Proof.
  intros Hi Ha Ha'.
  revert i Hi. induction l as [|t0 l IH]; intros i Hi; [done|].
  destruct i as [|i]; simpl in Hi |- *.
  - injection Hi as ->. now rewrite Ha, Ha'.
  - now rewrite (IH i Hi).
Qed.

Lemma aggregate_insert_new l i t t' :
  l !! i = Some t ->
  accepted (pc t) = false ->
  accepted (pc t') = true ->
  aggregate (<[i:=t']> l) = Z.max (timestamp t') (aggregate l).
Proof.
  intros Hi Ha Ha'.
  revert i Hi. induction l as [|t0 l IH]; intros i Hi; [done|].
  destruct i as [|i]; simpl in Hi |- *.
  - injection Hi as ->. now rewrite Ha, Ha'.
  - rewrite (IH i Hi). destruct (accepted (pc t0)); lia.
Qed.

Lemma aggregate_wake l : aggregate (map wake l) = aggregate l.
Proof.
  induction l as [|t l IH]; [reflexivity|].
  cbn [map aggregate]. rewrite IH.
  unfold wake. destruct (pc t) eqn:E; cbn; rewrite ?E; reflexivity.
Qed.

Lemma aggregate_all l :
  (forall i t, l !! i = Some t -> accepted (pc t) = true) ->
  aggregate l = max0 (map timestamp l).
Proof.
  induction l as [|t l IH]; intros Hall; [reflexivity|].
  cbn [aggregate map max0 fold_right].
  rewrite (Hall 0%nat t eq_refl).
  fold (max0 (map timestamp l)). rewrite <- IH; [reflexivity|].
  intros i t' Hi. apply (Hall (S i)). exact Hi.
Qed.

Lemma max0_nonneg l : 0 <= max0 l.
Proof. induction l as [|z l IH]; cbn; [lia|]. fold (max0 l). lia. Qed.

Lemma max0_perm l1 l2 : Permutation l1 l2 -> max0 l1 = max0 l2.
Proof.
  induction 1 as [|z l1 l2 _ IH|y z l|l1 l2 l3 _ IH1 _ IH2]; cbn;
    fold max0 in *; try fold (max0 l1); try fold (max0 l2); try fold (max0 l);
    lia.
Qed.

Lemma max0_list_max z l : max0 (z :: l) = Z.max 0 (list_max z l).
Proof.
  revert z. induction l as [|z' l IH]; intros z; [cbn; lia|].
  cbn [list_max]. specialize (IH z').
  cbn [max0 fold_right] in *. fold (max0 l) in *. lia.
Qed.

Lemma max0_all_negative l : Forall (fun z => z < 0) l -> max0 l = 0.
Proof.
  induction 1 as [|z l Hz _ IH]; [reflexivity|].
  cbn [max0 fold_right]. fold (max0 l). lia.
Qed.

Lemma max0_range l : Forall is_ll l -> is_ll (max0 l).
Proof.
  induction 1 as [|z l Hz _ IH]; [unfold is_ll; cbn; lia|].
  cbn [max0 fold_right]. fold (max0 l). unfold is_ll in *. lia.
Qed.

Lemma wake_lookup (l : list thread) j tj :
  map wake l !! j = Some tj -> exists t0, l !! j = Some t0 /\ tj = wake t0.
Proof.
  rewrite list_lookup_fmap. destruct (l !! j) as [t0|]; [|done].
  cbn. intros [= <-]. eauto.
Qed.

(** ** The invariant *)

Hypothesis federates_range : 1 <= configured_federates <= INT_MAX.

Lemma init_inv e : Inv e (init e).
Proof.
  constructor; cbn; try done; try lia.
Qed.

Lemma lookup_update (l : list thread) i t' j tj :
  <[i:=t']> l !! j = Some tj ->
  (j = i /\ tj = t') \/ (j <> i /\ l !! j = Some tj).
Proof.
  intros H. destruct (decide (j = i)) as [->|Hne].
  - left. split; [reflexivity|].
    destruct (decide (i < length l)%nat) as [Hlt|Hge].
    + rewrite list_lookup_insert_eq in H by exact Hlt. congruence.
    + rewrite list_insert_ge in H by lia.
      apply lookup_lt_Some in H. lia.
  - right. split; [exact Hne|].
    rewrite list_lookup_insert_ne in H by congruence. exact H.
Qed.

Lemma lookup_spawn (l : list thread) t' j tj :
  (l ++ [t']) !! j = Some tj ->
  l !! j = Some tj \/ (j = length l /\ tj = t').
Proof.
  intros H. destruct (decide (j < length l)%nat) as [Hlt|Hge].
  - left. rewrite lookup_app_l in H by exact Hlt. exact H.
  - right. rewrite lookup_app_r in H by lia.
    destruct (j - length l)%nat as [|k] eqn:E; simpl in H; [|done].
    split; [lia|congruence].
Qed.

Lemma accepted_counted l : accepted l = true -> counted l = true.
Proof. destruct l; done. Qed.

Lemma released_accepted l : released l = true -> accepted l = true.
Proof. destruct l; done. Qed.

Lemma counted_not_accepted l :
  counted l = true -> accepted l = false -> holds_mutex l = true.
Proof. destruct l; done. Qed.

Lemma count_threads_lt p (l : list thread) i t :
  l !! i = Some t -> p (pc t) = false ->
  (count_threads p l < length l)%nat.
Proof.
  intros Hi Hp.
  revert i Hi. induction l as [|t0 l IH]; intros i Hi; [done|].
  destruct i as [|i]; simpl in Hi |- *.
  - injection Hi as ->. rewrite Hp. pose proof (count_threads_le p l). lia.
  - specialize (IH i Hi). destruct (p (pc t0)); lia.
Qed.

(** A bound on the counter: it never exceeds the number of threads. *)
Lemma inv_count_le e s :
  Inv e s -> 0 <= num_feds_proposed_start s <= configured_federates.
Proof.
  intros HI. rewrite (inv_count _ _ HI).
  pose proof (count_threads_le counted (threads s)).
  pose proof (inv_len _ _ HI). lia.
Qed.

(** When the counter has reached the number of federates, every federate
    has a thread and every thread has been counted. *)
Lemma inv_full e s :
  Inv e s ->
  configured_federates <= num_feds_proposed_start s ->
  Z.of_nat (length (threads s)) = configured_federates /\
  num_feds_proposed_start s = configured_federates /\
  forall j tj, threads s !! j = Some tj -> counted (pc tj) = true.
Proof.
  intros HI Hn.
  pose proof (inv_count _ _ HI) as Hc.
  pose proof (count_threads_le counted (threads s)) as Hle.
  pose proof (inv_len _ _ HI) as Hlen.
  split_and!; try lia.
  apply count_threads_all. lia.
Qed.

(** The effect of one statement of thread [i] on the invariant, in terms
    of how the statement moves the thread between the classes of program
    points. *)
Lemma inv_update e s s' i t t' :
  Inv e s ->
  threads s !! i = Some t ->
  threads s' = <[i:=t']> (threads s) ->
  sys s' = sys s ->
  number_of_federates s' = number_of_federates s ->
  main_pc s' = main_pc s ->
  num_feds_proposed_start s'
  = num_feds_proposed_start s
    + (if counted (pc t') then 1 else 0) - (if counted (pc t) then 1 else 0) ->
  max_start_time s'
  = (if accepted (pc t) then max_start_time s
     else if accepted (pc t') then Z.max (timestamp t') (max_start_time s)
          else max_start_time s) ->
  (accepted (pc t) = true ->
   accepted (pc t') = true /\ timestamp t' = timestamp t) ->
  mutex s'
  = (if holds_mutex (pc t') then Some i
     else if holds_mutex (pc t) then None else mutex s) ->
  (holds_mutex (pc t') = true -> holds_mutex (pc t) = false -> mutex s = None) ->
  (released (pc t') = true -> released (pc t) = false ->
   holds_mutex (pc t) = true /\ accepted (pc t) = true /\
   configured_federates <= num_feds_proposed_start s) ->
  (forall c, serves t c -> serves t' c) ->
  Inv e s'.
Proof.
  intros HI Hi Hth Hsys Hnf Hmp Hnum Hmx Hacc Hmu Hfree Hrel Hsrv.
  pose proof HI as [Isys Ist Imain Ilen Icnt Imax Ihold Iown Irel Iconn].
  pose proof (count_threads_insert counted (threads s) i t t' Hi) as Hci.
  assert (Hlen' : length (threads s') = length (threads s))
    by (rewrite Hth; apply length_insert).
  assert (Hlook : forall j tj, threads s' !! j = Some tj ->
            (j = i /\ tj = t') \/ (j <> i /\ threads s !! j = Some tj))
    by (intros j tj; rewrite Hth; apply lookup_update).
  constructor.
  - congruence.
  - rewrite Hmp, Hnf. exact Ist.
  - rewrite Hmp, Hlen'.
    destruct (main_pc s); try exact Imain; rewrite Imain in Hi; done.
  - rewrite Hlen'. exact Ilen.
  - rewrite Hnum, Hth, Icnt.
    destruct (counted (pc t)), (counted (pc t')); lia.
  - rewrite Hmx, Hth, Imax.
    destruct (accepted (pc t)) eqn:Ea.
    + destruct (Hacc eq_refl) as [Ea' Hts].
      symmetry. eapply aggregate_insert_same; eauto.
    + destruct (accepted (pc t')) eqn:Ea'.
      * symmetry. eapply aggregate_insert_new; eauto.
      * symmetry. eapply aggregate_insert_rejected; eauto.
  - intros j tj Hj. rewrite Hmu.
    destruct (Hlook j tj Hj) as [[-> ->]|[Hne Hj0]].
    + destruct (holds_mutex (pc t')) eqn:Eh'; [done|].
      destruct (holds_mutex (pc t)) eqn:Eh; [done|].
      pose proof (Ihold i t Hi) as Hit. rewrite Eh in Hit.
      split; [done|]. intros Hm. apply Hit in Hm. done.
    + pose proof (Ihold j tj Hj0) as Hjt.
      pose proof (Ihold i t Hi) as Hit.
      destruct (holds_mutex (pc t')) eqn:Eh'.
      * destruct (holds_mutex (pc t)) eqn:Eh.
        -- assert (mutex s = Some i) as Hm by (apply Hit; reflexivity).
           rewrite Hm in Hjt. split; intros H.
           ++ apply Hjt in H. congruence.
           ++ congruence.
        -- rewrite (Hfree eq_refl eq_refl) in Hjt.
           split; intros H; [apply Hjt in H; done|congruence].
      * destruct (holds_mutex (pc t)) eqn:Eh; [|exact Hjt].
        assert (mutex s = Some i) as Hm by (apply Hit; reflexivity).
        rewrite Hm in Hjt. split; intros H; [|done].
        apply Hjt in H. congruence.
  - intros j. rewrite Hmu.
    assert (is_Some (threads s' !! i)) as Hsome.
    { apply lookup_lt_is_Some. rewrite Hlen'. eapply lookup_lt_Some; eauto. }
    destruct (holds_mutex (pc t')); [intros [= <-]; exact Hsome|].
    destruct (holds_mutex (pc t)); [done|].
    intros Hm. apply Iown in Hm.
    apply lookup_lt_is_Some. rewrite Hlen'. apply lookup_lt_is_Some. exact Hm.
  - (* released *)
    assert (Hold : forall k tk, threads s !! k = Some tk ->
              released (pc tk) = true ->
              num_feds_proposed_start s' = configured_federates /\
              forall j tj, threads s' !! j = Some tj -> accepted (pc tj) = true).
    { intros k tk Hk Hr. destruct (Irel k tk Hk Hr) as [Hn Hall].
      destruct (Hacc (Hall i t Hi)) as [Ea' _].
      rewrite Hnum, (accepted_counted _ Ea'), (accepted_counted _ (Hall i t Hi)).
      split; [lia|].
      intros j tj Hj. destruct (Hlook j tj Hj) as [[-> ->]|[_ Hj0]]; eauto. }
    intros j tj Hj Hr.
    destruct (Hlook j tj Hj) as [[-> ->]|[Hne Hj0]]; [|eauto].
    destruct (released (pc t)) eqn:Er; [eauto|].
    destruct (Hrel Hr eq_refl) as (Eh & Ea & Hn).
    destruct (inv_full e s HI Hn) as (_ & HnN & Hall).
    destruct (Hacc Ea) as [Ea' _].
    rewrite Hnum, (accepted_counted _ Ea'), (accepted_counted _ Ea).
    split; [lia|].
    intros k tk Hk. destruct (Hlook k tk Hk) as [[-> ->]|[Hne Hk0]]; [exact Ea'|].
    destruct (accepted (pc tk)) eqn:Ek; [reflexivity|].
    pose proof (counted_not_accepted _ (Hall k tk Hk0) Ek) as Hh.
    apply (Ihold k tk Hk0) in Hh.
    assert (mutex s = Some i) as Hm by (apply (Ihold i t Hi); exact Eh).
    congruence.
  - intros j tj Hj.
    destruct (Hlook j tj Hj) as [[-> ->]|[Hne Hj0]].
    + destruct (Iconn i t Hi) as (c & Hc & Hs).
      exists c. split; [exact Hc|apply Hsrv; exact Hs].
    + exact (Iconn j tj Hj0).
Qed.

Lemma inv_ext e s s' :
  Inv e s ->
  sys s' = sys s ->
  number_of_federates s' = number_of_federates s ->
  max_start_time s' = max_start_time s ->
  num_feds_proposed_start s' = num_feds_proposed_start s ->
  mutex s' = mutex s ->
  threads s' = threads s ->
  main_pc s' = main_pc s ->
  Inv e s'.
Proof.
  intros [Isys Ist Imain Ilen Icnt Imax Ihold Iown Irel Iconn] H1 H2 H3 H4 H5 H6 H7.
  constructor; rewrite ?H1, ?H2, ?H3, ?H4, ?H5, ?H6, ?H7; assumption.
Qed.

Lemma wake_class (p : loc -> bool) t :
  p L153_woken = p L153_blocked -> p (pc (wake t)) = p (pc t).
Proof.
  intros Hp. unfold wake. destruct (pc t) eqn:E; cbn; rewrite ?E; auto.
Qed.

Lemma wake_serves t c : serves t c -> serves (wake t) c.
Proof.
  unfold serves, wake. destruct (pc t) eqn:E; cbn; rewrite ?E; auto.
Qed.

Lemma inv_broadcast e s : Inv e s -> Inv e (broadcast s).
Proof.
  intros [Isys Ist Imain Ilen Icnt Imax Ihold Iown Irel Iconn].
  constructor; cbn [broadcast sys number_of_federates max_start_time
                      num_feds_proposed_start mutex threads main_pc].
  - exact Isys.
  - exact Ist.
  - rewrite length_map. destruct (main_pc s); try exact Imain.
    all: now rewrite Imain.
  - now rewrite length_map.
  - now rewrite count_threads_wake.
  - now rewrite aggregate_wake.
  - intros j tj Hj. apply wake_lookup in Hj as (t0 & Hj & ->).
    rewrite wake_class by reflexivity. eauto.
  - intros j Hm. apply Iown in Hm.
    apply lookup_lt_is_Some. rewrite length_map.
    now apply lookup_lt_is_Some.
  - intros j tj Hj Hr. apply wake_lookup in Hj as (t0 & Hj & ->).
    rewrite wake_class in Hr by reflexivity.
    destruct (Irel j t0 Hj Hr) as [Hn Hall]. split; [exact Hn|].
    intros k tk Hk. apply wake_lookup in Hk as (t1 & Hk & ->).
    rewrite wake_class by reflexivity. eauto.
  - intros j tj Hj. apply wake_lookup in Hj as (t0 & Hj & ->).
    destruct (Iconn j t0 Hj) as (c & Hc & Hs).
    eauto using wake_serves.
Qed.

(** Line 141 never overflows: an uncounted thread is still there. *)
Lemma incr_no_overflow e s i t :
  Inv e s -> threads s !! i = Some t -> counted (pc t) = false ->
  wrap32 (num_feds_proposed_start s + 1) = num_feds_proposed_start s + 1.
Proof.
  intros HI Hi Hc. apply wrap32_id.
  pose proof (count_threads_lt counted _ i t Hi Hc).
  pose proof (inv_len _ _ HI). rewrite (inv_count _ _ HI).
  unfold is_int, INT_MAX in *. lia.
Qed.

Ltac thread_update HI Hi t' :=
  eapply (inv_update _ _ _ _ _ t' HI Hi);
  [reflexivity|reflexivity|reflexivity|reflexivity|..].

Lemma federate_inv e s s' i t :
  Inv e s -> threads s !! i = Some t ->
  federate i t s = Some s' -> Inv e s'.
Proof.
  intros HI Hi Hex. unfold federate in Hex.
  destruct (pc t) eqn:Hpc.
  - (* lines 110-137 *)
    unfold federate_receive in Hex.
    destruct (read_loop read_fuel (sock t) (buffer t) 0) as [sk|sk buf n|sk buf n|] eqn:Hrd;
      [| | |done]; injection Hex as <-.
    + eapply inv_ext; [exact HI|reflexivity..].
    + thread_update HI Hi (mkThread L122_returned sk buf (timestamp t) (message t));
        cbn; rewrite ?Hpc; cbn; try done; try lia.
      intros c. unfold serves. rewrite Hpc. cbn.
      intros [Hs Hb]. unfold conn_proposal. now rewrite <- Hs, <- Hb, Hrd.
    + thread_update HI Hi (mkThread L140 sk buf (decode_timestamp buf) (message t));
        cbn; rewrite ?Hpc; cbn; try done; try lia.
      intros c. unfold serves. rewrite Hpc. cbn.
      intros [Hs Hb]. unfold conn_proposal. now rewrite <- Hs, <- Hb, Hrd.
  - (* line 140 *)
    destruct (mutex s) eqn:Hm; [done|]. injection Hex as <-.
    thread_update HI Hi (at_loc L141 t);
      cbn; rewrite ?Hpc; cbn; try done; try lia.
    unfold serves. cbn. now rewrite Hpc.
  - (* line 141 *)
    injection Hex as <-.
    thread_update HI Hi (at_loc L142 t);
      cbn; rewrite ?Hpc; cbn; try done; try lia.
    + rewrite (incr_no_overflow e s i t HI Hi) by now rewrite Hpc. lia.
    + apply (inv_holder _ _ HI i t Hi). now rewrite Hpc.
    + unfold serves. cbn. now rewrite Hpc.
  - (* lines 142-144 *)
    destruct (Z.gtb_spec (timestamp t) (max_start_time s)) as [Hgt|Hle];
      injection Hex as <-.
    + thread_update HI Hi (at_loc L145 t);
        cbn; rewrite ?Hpc; cbn; try done; try lia.
      * apply (inv_holder _ _ HI i t Hi). now rewrite Hpc.
      * unfold serves. cbn. now rewrite Hpc.
    + thread_update HI Hi (at_loc L145 t);
        cbn; rewrite ?Hpc; cbn; try done; try lia.
      * apply (inv_holder _ _ HI i t Hi). now rewrite Hpc.
      * unfold serves. cbn. now rewrite Hpc.
  - (* line 145 *)
    destruct (Z.eqb_spec (num_feds_proposed_start s) (number_of_federates s)) as [Heq|Hne];
      injection Hex as <-.
    + thread_update HI Hi (at_loc L147 t);
        cbn; rewrite ?Hpc; cbn; try done; try lia.
      * apply (inv_holder _ _ HI i t Hi). now rewrite Hpc.
      * intros _ _. split_and!; try done.
        rewrite Heq, (inv_started _ _ HI); [lia|].
        pose proof (inv_main _ _ HI) as Hmain.
        destruct (main_pc s); try done; rewrite Hmain in Hi; done.
      * unfold serves. cbn. now rewrite Hpc.
    + thread_update HI Hi (at_loc L151 t);
        cbn; rewrite ?Hpc; cbn; try done; try lia.
      * apply (inv_holder _ _ HI i t Hi). now rewrite Hpc.
      * unfold serves. cbn. now rewrite Hpc.
  - (* line 147 *)
    injection Hex as <-.
    assert (Hi' : threads (broadcast s) !! i = Some t).
    { cbn. rewrite list_lookup_fmap, Hi. cbn. unfold wake. now rewrite Hpc. }
    pose proof (inv_broadcast e s HI) as HI'.
    thread_update HI' Hi' (at_loc L156 t);
      cbn; rewrite ?Hpc; cbn; try done; try lia.
    + apply (inv_holder _ _ HI i t Hi). now rewrite Hpc.
    + unfold serves. cbn. now rewrite Hpc.
  - (* line 151 *)
    destruct (Z.ltb_spec (num_feds_proposed_start s) (number_of_federates s)) as [Hlt|Hge];
      injection Hex as <-.
    + thread_update HI Hi (at_loc L153_blocked t);
        cbn; rewrite ?Hpc; cbn; try done; try lia.
      unfold serves. cbn. now rewrite Hpc.
    + thread_update HI Hi (at_loc L156 t);
        cbn; rewrite ?Hpc; cbn; try done; try lia.
      * apply (inv_holder _ _ HI i t Hi). now rewrite Hpc.
      * intros _ _. split_and!; try done.
        rewrite <- (inv_started _ _ HI); [lia|].
        pose proof (inv_main _ _ HI) as Hmain.
        destruct (main_pc s); try done; rewrite Hmain in Hi; done.
      * unfold serves. cbn. now rewrite Hpc.
  - done.
  - (* waking inside pthread_cond_wait *)
    destruct (mutex s) eqn:Hm; [done|]. injection Hex as <-.
    thread_update HI Hi (at_loc L151 t);
      cbn; rewrite ?Hpc; cbn; try done; try lia.
    unfold serves. cbn. now rewrite Hpc.
  - (* line 156 *)
    injection Hex as <-.
    thread_update HI Hi (at_loc L165 t);
      cbn; rewrite ?Hpc; cbn; try done; try lia.
    unfold serves. cbn. now rewrite Hpc.
  - (* line 165 *)
    destruct (write (sock t) [TIMESTAMP]) as [w sk].
    destruct (w <? 0); injection Hex as <-.
    + eapply inv_ext; [exact HI|reflexivity..].
    + thread_update HI Hi (mkThread L170 sk (buffer t) (timestamp t) (message t));
        cbn; rewrite ?Hpc; cbn; try done; try lia.
      unfold serves. cbn. now rewrite Hpc.
  - (* lines 170-172 *)
    destruct (write (sock t) _) as [w sk].
    destruct (w <? 0); injection Hex as <-.
    + eapply inv_ext; [exact HI|reflexivity..].
    + thread_update HI Hi
        (mkThread L175 sk (buffer t) (timestamp t)
           (swap_bytes_if_little_endian_ll (max_start_time s)));
        cbn; rewrite ?Hpc; cbn; try done; try lia.
      unfold serves. cbn. now rewrite Hpc.
  - (* line 175 *)
    injection Hex as <-.
    thread_update HI Hi
      (mkThread L177_returned (close (sock t)) (buffer t) (timestamp t) (message t));
      cbn; rewrite ?Hpc; cbn; try done; try lia.
    unfold serves. cbn. now rewrite Hpc.
  - done.
  - done.
Qed.

Lemma inv_set_main e s s' :
  Inv e s ->
  sys s' = sys s ->
  max_start_time s' = max_start_time s ->
  num_feds_proposed_start s' = num_feds_proposed_start s ->
  mutex s' = mutex s ->
  threads s' = threads s ->
  (started (main_pc s') = true -> number_of_federates s' = configured_federates) ->
  match main_pc s' with
  | M208 | M211 => threads s = []
  | M192 i => i = Z.of_nat (length (threads s))
  | _ => True
  end ->
  Inv e s'.
Proof.
  intros [Isys Ist Imain Ilen Icnt Imax Ihold Iown Irel Iconn] H1 H3 H4 H5 H6 Hst Hm.
  constructor; rewrite ?H1, ?H3, ?H4, ?H5, ?H6; assumption.
Qed.

Lemma connect_to_federates_inv e s s' i :
  Inv e s -> main_pc s = M192 i ->
  connect_to_federates i s = Some s' -> Inv e s'.
Proof.
  intros HI Hmp Hex. unfold connect_to_federates in Hex.
  pose proof (inv_started _ _ HI) as Hnf. rewrite Hmp in Hnf.
  specialize (Hnf eq_refl).
  pose proof (inv_main _ _ HI) as Hi. rewrite Hmp in Hi.
  destruct (Z.ltb_spec i (number_of_federates s)) as [Hlt|Hge].
  2:{ injection Hex as <-. eapply inv_set_main; [exact HI|reflexivity..|done|done]. }
  pose proof (inv_sys _ _ HI) as Hsys.
  destruct (connections (sys s) !! length (threads s)) as [c|] eqn:Hc; [|done].
  destruct (pointer_lt_0 (fed_socket_descriptor s)); injection Hex as <-.
  { eapply inv_ext; [exact HI|reflexivity..]. }
  destruct HI as [Isys Ist Imain Ilen Icnt Imax Ihold Iown Irel Iconn].
  set (t0 := mkThread L110 (c_sock c) (c_stack c) 0 0).
  constructor; cbn [set_main spawn sys number_of_federates max_start_time
                      num_feds_proposed_start mutex threads main_pc].
  - exact Isys.
  - intros _. exact Hnf.
  - rewrite length_app. cbn [length].
    rewrite wrap32_id; [lia|]. unfold is_int, INT_MAX in *. lia.
  - rewrite length_app. cbn [length]. lia.
  - rewrite count_threads_app. cbn. lia.
  - rewrite aggregate_app. cbn. pose proof (aggregate_nonneg (threads s)). lia.
  - intros j tj Hj. apply lookup_spawn in Hj as [Hj|[-> ->]]; [eauto|].
    cbn. split; [done|]. intros Hm. apply Iown in Hm.
    apply lookup_lt_is_Some in Hm. lia.
  - intros j Hm. apply Iown in Hm. destruct Hm as [tj Hj].
    exists tj. apply lookup_app_l_Some. exact Hj.
  - assert (Hnone : forall k tk, threads s !! k = Some tk ->
              released (pc tk) = true -> False).
    { intros k tk Hk Hr. destruct (Irel k tk Hk Hr) as [Hn Hall].
      pose proof (count_threads_le counted (threads s)). lia. }
    intros j tj Hj Hr. apply lookup_spawn in Hj as [Hj|[-> ->]]; [|done].
    exfalso. eauto.
  - intros j tj Hj. apply lookup_spawn in Hj as [Hj|[-> ->]]; [eauto|].
    exists c. rewrite <- Isys. split; [exact Hc|]. unfold serves. cbn. auto.
Qed.

Lemma main_inv e s s' : Inv e s -> main s = Some s' -> Inv e s'.
Proof.
  intros HI Hex. unfold main in Hex.
  pose proof (inv_main _ _ HI) as Hm.
  pose proof (inv_started _ _ HI) as Hnf.
  destruct (main_pc s) eqn:Hmp.
  - destruct (create_server _ _); injection Hex as <-.
    + eapply inv_ext; [exact HI|reflexivity..].
    + eapply inv_set_main; [exact HI|reflexivity..|done|done].
  - injection Hex as <-.
    eapply inv_set_main; [exact HI|reflexivity..|done|].
    cbn. now rewrite Hm.
  - eapply connect_to_federates_inv; eauto.
  - destruct (i <? number_of_federates s).
    + destruct (threads s !! Z.to_nat i) as [t|]; [|done].
      destruct (returned (pc t)); [|done]. injection Hex as <-.
      eapply inv_set_main; [exact HI|reflexivity..|exact Hnf|done].
    + injection Hex as <-.
      eapply inv_set_main; [exact HI|reflexivity..|exact Hnf|done].
  - injection Hex as <-. eapply inv_ext; [exact HI|reflexivity..].
Qed.

Lemma exec_inv e a s s' : Inv e s -> exec a s = Some s' -> Inv e s'.
Proof.
  intros HI Hex. unfold exec in Hex.
  destruct (exited s); [done|].
  destruct a as [|i|i].
  - eapply main_inv; eauto.
  - destruct (threads s !! i) as [t|] eqn:Hi; [|done].
    eapply federate_inv; eauto.
  - destruct (threads s !! i) as [t|] eqn:Hi; [|done].
    destruct (pc t) eqn:Hpc; try done. injection Hex as <-.
    eapply (inv_update _ _ _ _ _ (at_loc L153_woken t) HI Hi);
      [reflexivity|reflexivity|reflexivity|reflexivity|..];
      cbn; rewrite ?Hpc; cbn; try done; try lia.
    unfold serves. cbn. now rewrite Hpc.
Qed.

Lemma run_inv e sched s s' : Inv e s -> run sched s = Some s' -> Inv e s'.
Proof.
  revert s. induction sched as [|a sched IH]; intros s HI Hrun; cbn in Hrun.
  - now injection Hrun as <-.
  - destruct (exec a s) as [s1|] eqn:Hex; [|done].
    eapply IH; [eapply exec_inv; eauto|exact Hrun].
Qed.

Lemma reachable_inv e s : reachable e s -> Inv e s.
Proof. intros [sched Hrun]. eapply run_inv; [apply init_inv|exact Hrun]. Qed.

Lemma run_app sched1 sched2 s :
  run (sched1 ++ sched2) s
  = match run sched1 s with Some s1 => run sched2 s1 | None => None end.
Proof.
  revert s. induction sched1 as [|a sched1 IH]; intros s; cbn; [reflexivity|].
  destruct (exec a s); [apply IH|reflexivity].
Qed.

Lemma reachable_run e sched s s' :
  reachable e s -> run sched s = Some s' -> reachable e s'.
Proof.
  intros [sched0 H0] H. exists (sched0 ++ sched). now rewrite run_app, H0.
Qed.

(** ** The shape of a step *)

Lemma read_same_peer s count more data s' :
  read s count = (more, data, s') -> same_peer s s'.
Proof.
  unfold read. destruct (usable s).
  - destruct (read_events (incoming s) count) as [[m d] evs].
    intros [= _ _ <-]. apply same_peer_set_incoming.
  - intros [= _ _ <-]. apply same_peer_refl.
Qed.

Lemma read_loop_same_peer fuel sk buf n :
  match read_loop fuel sk buf n with
  | RecvFatal sk' | RecvEof sk' _ _ | RecvDone sk' _ _ => same_peer sk sk'
  | RecvOutOfFuel => True
  end.
Proof.
  revert sk buf n. induction fuel as [|fuel IH]; intros sk buf n; cbn [read_loop].
  - destruct (n <? 9); [exact I|apply same_peer_refl].
  - destruct (n <? 9); [|apply same_peer_refl].
    destruct (read sk (Z.to_nat (8 + 1 - n))) as [[more data] sk1] eqn:Hr.
    apply read_same_peer in Hr.
    destruct (more <? 0); [exact Hr|].
    destruct (more =? 0); [exact Hr|].
    specialize (IH sk1 (store_at buf (Z.to_nat n) data) (wrap32 (n + more))).
    destruct (read_loop fuel sk1 _ _); eauto using same_peer_trans.
Qed.

Ltac shape_done Hpc :=
  unfold evolves; rewrite Hpc; cbn;
  split_and!; auto; try done; try lia.

Lemma federate_shape i t s s' :
  federate i t s = Some s' ->
  (threads s' = threads s /\ max_start_time s' = max_start_time s /\
   num_feds_proposed_start s' = num_feds_proposed_start s /\
   number_of_federates s' = number_of_federates s /\
   exists msg, exited s' = Some (Fatal msg)) \/
  (exists t',
     evolves s t t' /\
     exited s' = exited s /\
     number_of_federates s' = number_of_federates s /\
     (num_feds_proposed_start s' = num_feds_proposed_start s \/ pc t = L141) /\
     ((pc t <> L147 /\ threads s' = <[i:=t']> (threads s)) \/
      (pc t = L147 /\ threads s' = <[i:=t']> (map wake (threads s)))) /\
     (max_start_time s' = max_start_time s \/
      (pc t = L142 /\ max_start_time s' = timestamp t /\
       max_start_time s < timestamp t))).
Proof.
  intros Hex. unfold federate in Hex.
  destruct (pc t) eqn:Hpc.
  - unfold federate_receive in Hex.
    pose proof (read_loop_same_peer read_fuel (sock t) (buffer t) 0) as Hsame.
    destruct (read_loop read_fuel (sock t) (buffer t) 0) as [sk|sk buf n|sk buf n|];
      [| | |done]; injection Hex as <-.
    + left. cbn. eauto 10.
    + right. exists (mkThread L122_returned sk buf (timestamp t) (message t)).
      shape_done Hpc.
    + right. exists (mkThread L140 sk buf (decode_timestamp buf) (message t)).
      shape_done Hpc.
  - destruct (mutex s); [done|]. injection Hex as <-.
    right. exists (at_loc L141 t). shape_done Hpc.
  - injection Hex as <-.
    right. exists (at_loc L142 t). shape_done Hpc.
  - destruct (Z.gtb_spec (timestamp t) (max_start_time s)); injection Hex as <-.
    + right. exists (at_loc L145 t). shape_done Hpc.
    + right. exists (at_loc L145 t). shape_done Hpc.
  - destruct (Z.eqb_spec (num_feds_proposed_start s) (number_of_federates s));
      injection Hex as <-.
    + right. exists (at_loc L147 t). shape_done Hpc.
    + right. exists (at_loc L151 t). shape_done Hpc.
  - injection Hex as <-.
    right. exists (at_loc L156 t). shape_done Hpc.
  - destruct (Z.ltb_spec (num_feds_proposed_start s) (number_of_federates s));
      injection Hex as <-.
    + right. exists (at_loc L153_blocked t). shape_done Hpc.
    + right. exists (at_loc L156 t). shape_done Hpc.
  - done.
  - destruct (mutex s); [done|]. injection Hex as <-.
    right. exists (at_loc L151 t). shape_done Hpc.
  - injection Hex as <-.
    right. exists (at_loc L165 t). shape_done Hpc.
  - destruct (write (sock t) [TIMESTAMP]) as [w sk] eqn:Hw.
    destruct (Z.ltb_spec w 0); injection Hex as <-.
    + left. cbn. eauto 10.
    + right. exists (mkThread L170 sk (buffer t) (timestamp t) (message t)).
      shape_done Hpc; eauto.
  - destruct (write (sock t) _) as [w sk] eqn:Hw.
    destruct (Z.ltb_spec w 0); injection Hex as <-.
    + left. cbn. eauto 10.
    + right. exists (mkThread L175 sk (buffer t) (timestamp t)
                       (swap_bytes_if_little_endian_ll (max_start_time s))).
      shape_done Hpc; eauto.
  - injection Hex as <-.
    right. exists (mkThread L177_returned (close (sock t)) (buffer t)
                     (timestamp t) (message t)).
    shape_done Hpc.
  - done.
  - done.
Qed.

Lemma wake_evolves s t : wake t = t \/ evolves s t (wake t).
Proof.
  unfold wake. destruct (pc t) eqn:Hpc; auto.
  right. shape_done Hpc.
Qed.

Lemma main_shape s s' :
  main s = Some s' ->
  max_start_time s' = max_start_time s /\
  (threads s' = threads s \/
   exists i c,
     main_pc s = M192 i /\ i < number_of_federates s /\
     connections (sys s) !! length (threads s) = Some c /\
     threads s' = threads s ++ [mkThread L110 (c_sock c) (c_stack c) 0 0]).
Proof.
  unfold main, connect_to_federates. intros Hex.
  destruct (main_pc s) as [| |i|i|] eqn:Hmp.
  - destruct (create_server _ _); injection Hex as <-; auto.
  - injection Hex as <-; auto.
  - destruct (Z.ltb_spec i (number_of_federates s)); [|injection Hex as <-; auto].
    destruct (connections (sys s) !! length (threads s)) as [c|] eqn:Hc; [|done].
    destruct (pointer_lt_0 _); injection Hex as <-; [auto|].
    split; [reflexivity|]. right. exists i, c. auto.
  - destruct (i <? number_of_federates s); [|injection Hex as <-; auto].
    destruct (threads s !! Z.to_nat i) as [t|]; [|done].
    destruct (returned (pc t)); [|done]. injection Hex as <-; auto.
  - injection Hex as <-; auto.
Qed.

Lemma exec_shape a s s' :
  exec a s = Some s' ->
  (max_start_time s' = max_start_time s \/
   exists i t, threads s !! i = Some t /\ pc t = L142 /\
               max_start_time s' = timestamp t /\
               max_start_time s < timestamp t) /\
  (forall j tj', threads s' !! j = Some tj' ->
     (exists tj, threads s !! j = Some tj /\ (tj' = tj \/ evolves s tj tj')) \/
     (pc tj' = L110 /\
      exists i, main_pc s = M192 i /\ i < number_of_federates s)) /\
  (forall j tj, threads s !! j = Some tj ->
     exists tj', threads s' !! j = Some tj' /\ (tj' = tj \/ evolves s tj tj')).
Proof.
  intros Hex. unfold exec in Hex.
  destruct (exited s); [done|].
  destruct a as [|i|i].
  - apply main_shape in Hex as [Hmax [Hth|(i & c & Hmp & Hlt & Hc & Hth)]];
      rewrite Hth; (split; [auto|]); split.
    + intros j tj' Hj. left. eauto.
    + intros j tj Hj. eauto.
    + intros j tj' Hj. apply lookup_spawn in Hj as [Hj|[-> ->]]; [left; eauto|].
      right. cbn. eauto.
    + intros j tj Hj. exists tj. split; [|auto].
      apply lookup_app_l_Some. exact Hj.
  - destruct (threads s !! i) as [t|] eqn:Hi; [|done].
    apply federate_shape in Hex
      as [(Hth & Hmax & _)|(t' & Hev & _ & _ & _ & Hth & Hmax)].
    { rewrite Hth. split; [auto|]. split; eauto. }
    split.
    { destruct Hmax as [Hmax|(Hpc & Hmax & Hlt)]; [auto|]. right. eauto 10. }
    assert (Hlt : (i < length (threads s))%nat) by (eapply lookup_lt_Some; eauto).
    destruct Hth as [[_ Hth]|[Hpc Hth]]; rewrite Hth; split.
    + intros j tj' Hj. left.
      apply lookup_update in Hj as [[-> ->]|[Hne Hj]]; eauto.
    + intros j tj Hj. destruct (decide (j = i)) as [->|Hne].
      * exists t'. rewrite list_lookup_insert_eq by exact Hlt.
        split; [reflexivity|]. right. congruence.
      * exists tj. rewrite list_lookup_insert_ne by congruence. auto.
    + intros j tj' Hj. left.
      apply lookup_update in Hj as [[-> ->]|[Hne Hj]]; [eauto|].
      apply wake_lookup in Hj as (t0 & Hj & ->).
      exists t0. split; [exact Hj|]. apply wake_evolves.
    + intros j tj Hj. destruct (decide (j = i)) as [->|Hne].
      * exists t'. rewrite list_lookup_insert_eq by now rewrite length_map.
        split; [reflexivity|]. right. congruence.
      * exists (wake tj). rewrite list_lookup_insert_ne by congruence.
        rewrite list_lookup_fmap, Hj. split; [reflexivity|]. apply wake_evolves.
  - destruct (threads s !! i) as [t|] eqn:Hi; [|done].
    destruct (pc t) eqn:Hpc; try done. injection Hex as <-.
    assert (Hlt : (i < length (threads s))%nat) by (eapply lookup_lt_Some; eauto).
    assert (Hev : evolves s t (at_loc L153_woken t)) by shape_done Hpc.
    cbn. split; [auto|]. split.
    + intros j tj' Hj. left.
      apply lookup_update in Hj as [[-> ->]|[Hne Hj]]; eauto.
    + intros j tj Hj. destruct (decide (j = i)) as [->|Hne].
      * exists (at_loc L153_woken t). rewrite list_lookup_insert_eq by exact Hlt.
        split; [reflexivity|]. right. congruence.
      * exists tj. rewrite list_lookup_insert_ne by congruence. auto.
Qed.

(** ** The barrier: release, and the frozen maximum *)

Lemma edge_accepted l l' : edge l l' = true -> accepted l = true -> accepted l' = true.
Proof. destruct l, l'; done. Qed.

Lemma edge_responded l l' :
  edge l l' = true -> responded l' = true -> l = L170 \/ responded l = true.
Proof. destruct l, l'; auto; done. Qed.

Lemma evolves_accepted s t t' :
  t' = t \/ evolves s t t' -> accepted (pc t) = true -> accepted (pc t') = true.
Proof.
  intros [->|(He & _)]; [auto|]. now apply edge_accepted.
Qed.

Lemma released_settled e s i t :
  Inv e s -> threads s !! i = Some t -> released (pc t) = true -> settled s.
Proof.
  intros HI Hi Hr. destruct (inv_released _ _ HI i t Hi Hr) as [Hn Hall].
  split; [|exact Hall].
  apply (inv_full e s HI). lia.
Qed.

Lemma accepted_count_settled e s :
  Inv e s ->
  Z.of_nat (count_threads accepted (threads s)) = configured_federates ->
  settled s.
Proof.
  intros HI Hc.
  pose proof (count_threads_le accepted (threads s)).
  pose proof (inv_len _ _ HI).
  split; [lia|]. apply count_threads_all. lia.
Qed.

Lemma settled_count e s :
  Inv e s -> settled s -> num_feds_proposed_start s = configured_federates.
Proof.
  intros HI [Hlen Hall]. rewrite (inv_count _ _ HI), <- Hlen. f_equal.
  clear -Hall. induction (threads s) as [|t l IH]; [reflexivity|].
  cbn [count_threads length].
  rewrite (accepted_counted _ (Hall 0%nat t eq_refl)).
  rewrite IH; [reflexivity|]. intros j tj Hj. apply (Hall (S j)). exact Hj.
Qed.

(** Once every federate has been accepted, no step changes
    [max_start_time]. *)
Lemma settled_step e a s s' :
  Inv e s -> settled s -> exec a s = Some s' ->
  settled s' /\ max_start_time s' = max_start_time s.
Proof.
  intros HI [Hlen Hall] Hex.
  pose proof (exec_inv e a s s' HI Hex) as HI'.
  destruct (exec_shape a s s' Hex) as (Hmax & Hfw & Hbw).
  assert (Hall' : forall j tj', threads s' !! j = Some tj' -> accepted (pc tj') = true).
  { intros j tj' Hj. destruct (Hfw j tj' Hj) as [(tj & Hj0 & Hev)|(_ & i & Hmp & Hlt)].
    - eapply evolves_accepted; eauto.
    - pose proof (inv_main _ _ HI) as Hm. rewrite Hmp in Hm.
      pose proof (inv_started _ _ HI) as Hs. rewrite Hmp in Hs.
      specialize (Hs eq_refl). lia. }
  split; [split; [|exact Hall']|].
  - pose proof (inv_len _ _ HI').
    assert (length (threads s) <= length (threads s'))%nat; [|lia].
    destruct (length (threads s)) as [|n] eqn:En; [lia|].
    destruct (lookup_lt_is_Some_2 (threads s) n ltac:(lia)) as [tn Hn].
    destruct (Hbw n tn Hn) as (tn' & Hn' & _).
    apply lookup_lt_Some in Hn'. lia.
  - destruct Hmax as [Hmax|(i & t & Hi & Hpc & _)]; [exact Hmax|].
    specialize (Hall i t Hi). rewrite Hpc in Hall. done.
Qed.

Lemma settled_run e sched s s' :
  Inv e s -> settled s -> run sched s = Some s' ->
  settled s' /\ max_start_time s' = max_start_time s.
Proof.
  revert s. induction sched as [|a sched IH]; intros s HI Hs Hrun; cbn in Hrun.
  - injection Hrun as <-. auto.
  - destruct (exec a s) as [s1|] eqn:Hex; [|done].
    destruct (settled_step e a s s1 HI Hs Hex) as [Hs1 Hm1].
    destruct (IH s1 (exec_inv _ _ _ _ HI Hex) Hs1 Hrun) as [Hs' Hm'].
    split; [exact Hs'|congruence].
Qed.

(** [max_start_time] never decreases. *)
Lemma exec_monotone a s s' :
  exec a s = Some s' -> max_start_time s <= max_start_time s'.
Proof.
  intros Hex. destruct (exec_shape a s s' Hex) as ([Hmax|(i & t & _ & _ & Hmax & Hlt)] & _); lia.
Qed.

Lemma run_monotone sched s s' :
  run sched s = Some s' -> max_start_time s <= max_start_time s'.
Proof.
  revert s. induction sched as [|a sched IH]; intros s Hrun; cbn in Hrun.
  - injection Hrun as <-. lia.
  - destruct (exec a s) as [s1|] eqn:Hex; [|done].
    pose proof (exec_monotone a s s1 Hex). specialize (IH s1 Hrun). lia.
Qed.

Lemma answered_step e a s s' :
  Inv e s -> answered s -> exec a s = Some s' -> answered s'.
Proof.
  intros HI Ha Hex j tj' Hj Hr.
  destruct (exec_shape a s s' Hex) as (_ & Hfw & _).
  destruct (Hfw j tj' Hj) as [(tj & Hj0 & Hev)|(Hpc & _)].
  2:{ rewrite Hpc in Hr. done. }
  assert (Hrel : released (pc tj) = true).
  { destruct Hev as [->|(He & _)]; [destruct (pc tj); done|].
    destruct (pc tj), (pc tj'); done. }
  pose proof (released_settled e s j tj HI Hj0 Hrel) as Hs.
  destruct (settled_step e a s s' HI Hs Hex) as [_ ->].
  destruct Hev as [->|(He & _ & _ & _ & Hm & _)]; [eauto|].
  destruct (edge_responded _ _ He Hr) as [Hpc|Hr0].
  - rewrite Hpc in Hm. exact Hm.
  - rewrite Hm. rewrite <- (Ha j tj Hj0 Hr0).
    destruct (pc tj); try done.
Qed.

Lemma reachable_answered e s : reachable e s -> answered s.
Proof.
  intros [sched Hrun].
  assert (Hgen : forall s0, Inv e s0 -> answered s0 -> run sched s0 = Some s -> answered s).
  { clear Hrun. induction sched as [|a sched IH]; intros s0 HI Ha Hrun; cbn in Hrun.
    - now injection Hrun as <-.
    - destruct (exec a s0) as [s1|] eqn:Hex; [|done].
      eapply (IH s1); eauto using exec_inv, answered_step. }
  apply (Hgen (init e)); [apply init_inv| |exact Hrun].
  intros i t Hi. done.
Qed.

(** ** What a connection proposes *)

Lemma conn_proposal_range c v : conn_proposal c = Some v -> is_ll v.
Proof.
  unfold conn_proposal. destruct (read_loop _ _ _ _); try done.
  intros [= <-]. apply decode_timestamp_range.
Qed.

Lemma receive_sends c tag v :
  sends c tag v ->
  exists sk' buf',
    read_loop read_fuel (c_sock c) (c_stack c) 0 = RecvDone sk' buf' 9 /\
    buffer_tag buf' = tag /\
    buffer_payload buf' = be64_bytes v /\
    same_peer (c_sock c) sk'.
Proof.
  intros [Hu Hd].
  assert (Hlen : (9 <= length (stream_data (incoming (c_sock c))))%nat).
  { apply (f_equal length) in Hd. rewrite length_take in Hd.
    cbn [length] in Hd. rewrite be64_bytes_length in Hd. lia. }
  pose proof (read_loop_from read_fuel (c_sock c) (c_stack c) 0 Hu
                ltac:(lia) ltac:(unfold read_fuel; lia) ltac:(lia)) as H.
  cbn zeta in H. change (9 - 0)%nat with 9%nat in H.
  destruct (Nat.leb_spec 9 (length (stream_data (incoming (c_sock c))))) as [_|?];
    [|lia].
  destruct H as (sk' & buf' & Hrd & Hbuf & _ & _ & Hsame).
  exists sk', buf'. split; [exact Hrd|].
  rewrite take_0, app_nil_l, Hd in Hbuf.
  assert (Hb : buf' = (tag :: be64_bytes v) ++ drop 9 buf')
    by (rewrite <- Hbuf; symmetry; apply take_drop).
  split_and!; [| |exact Hsame].
  - unfold buffer_tag. rewrite Hb. reflexivity.
  - unfold buffer_payload. rewrite Hb.
    change (take 8 (be64_bytes v ++ drop 9 buf') = be64_bytes v).
    rewrite take_app_length'; [reflexivity|apply (be64_bytes_length v)].
Qed.

Lemma sends_proposal c tag v :
  sends c tag v -> is_ll v -> conn_proposal c = Some v.
Proof.
  intros Hs Hv. destruct (receive_sends c tag v Hs) as (sk' & buf' & Hrd & _ & Hp & _).
  unfold conn_proposal. rewrite Hrd. f_equal.
  unfold decode_timestamp. rewrite Hp, swap_load_ll by apply be64_bytes_length.
  now apply be64_value_bytes.
Qed.

Lemma proposals_range e : Forall is_ll (proposals e).
Proof.
  unfold proposals.
  induction (take _ (connections e)) as [|c l IH]; [constructor|].
  cbn. destruct (conn_proposal c) as [v|] eqn:E; [|exact IH].
  constructor; [eapply conn_proposal_range; eauto|exact IH].
Qed.

Lemma omap_proposals (cs : list conn) (l : list thread) :
  (forall i t, l !! i = Some t ->
     exists c, cs !! i = Some c /\ conn_proposal c = Some (timestamp t)) ->
  omap conn_proposal (take (length l) cs) = map timestamp l.
Proof.
  revert cs. induction l as [|t l IH]; intros cs H; [reflexivity|].
  destruct (H 0%nat t eq_refl) as (c & Hc & Hp).
  destruct cs as [|c0 cs]; [done|]. injection Hc as ->.
  cbn [length take omap map]. cbn. rewrite Hp. f_equal.
  apply IH. intros i ti Hi. apply (H (S i) ti Hi).
Qed.

(** In a settled state the thread instants are the proposals, in order,
    and [max_start_time] is their maximum with 0. *)
Lemma settled_proposals e s :
  Inv e s -> settled s ->
  proposals e = map timestamp (threads s) /\
  max_start_time s = max0 (proposals e).
Proof.
  intros HI [Hlen Hall].
  assert (Hp : proposals e = map timestamp (threads s)).
  { unfold proposals. rewrite <- Hlen, Nat2Z.id. apply omap_proposals.
    intros i t Hi. destruct (inv_conn _ _ HI i t Hi) as (c & Hc & Hs).
    exists c. split; [exact Hc|].
    specialize (Hall i t Hi). unfold serves in Hs.
    destruct (pc t); done. }
  split; [exact Hp|].
  rewrite Hp, (inv_max _ _ HI). now apply aggregate_all.
Qed.

Lemma proposals_of_sends e ts :
  Forall2 (fun c v => exists tag, sends c tag v) (connections e) ts ->
  Forall is_ll ts ->
  Z.of_nat (length ts) = configured_federates ->
  proposals e = ts.
Proof.
  intros Hs Hr Hlen. unfold proposals.
  rewrite <- Hlen, Nat2Z.id.
  rewrite <- (Forall2_length _ _ _ Hs), firstn_all.
  clear Hlen. induction Hs as [|c v cs ts [tag Hc] _ IH]; [reflexivity|].
  apply Forall_cons in Hr as [Hv Hr].
  cbn. rewrite (sends_proposal c tag v Hc Hv). f_equal. apply IH, Hr.
Qed.

(** The integer carried by the response of a thread that has executed
    both writes. *)
Lemma response_value_max e s i t :
  reachable e s -> threads s !! i = Some t -> responded (pc t) = true ->
  settled s /\
  message t = swap_bytes_if_little_endian_ll (max_start_time s) /\
  store_ll (message t) = be64_bytes (max0 (proposals e)) /\
  response_value t = max0 (proposals e).
Proof.
  intros Hreach Hi Hr.
  pose proof (reachable_inv e s Hreach) as HI.
  assert (Hrel : released (pc t) = true) by (destruct (pc t); done).
  pose proof (released_settled e s i t HI Hi Hrel) as Hs.
  destruct (settled_proposals e s HI Hs) as [_ Hmax].
  pose proof (reachable_answered e s Hreach i t Hi Hr) as Hm.
  split_and!; [exact Hs|exact Hm| |].
  - rewrite Hm, store_swap_ll, Hmax. reflexivity.
  - unfold response_value. rewrite Hm, store_swap_ll, Hmax.
    apply be64_value_bytes, max0_range, proposals_range.
Qed.

(** ** The read loop *)

Lemma stream_data_chunks chunks rest :
  stream_data (map Chunk chunks ++ rest) = concat chunks ++ stream_data rest.
Proof.
  induction chunks as [|bs chunks IH]; [reflexivity|].
  cbn [map app stream_data concat]. now rewrite IH, app_assoc.
Qed.

Lemma stream_fails_chunks chunks rest :
  stream_fails (map Chunk chunks ++ rest) = stream_fails rest.
Proof. induction chunks as [|bs chunks IH]; [reflexivity|exact IH]. Qed.

(** C8: the read loop accumulates the bytes of partial reads.  Whatever
    the sizes of the chunks in which the bytes arrive, when they add up to
    at least nine bytes the loop ends with [bytes_read = 9] and the first
    nine bytes of the stream in [buffer], leaving the rest of the stream
    unread; when the stream ends earlier the loop stops at the end of the
    stream with all of its bytes in [buffer]. *)
Theorem read_loop_accumulates sk junk chunks rest :
  usable sk = true ->
  incoming sk = map Chunk chunks ++ rest ->
  (9 <= length (concat chunks))%nat \/ rest = [] ->
  let data := concat chunks in
  if (9 <=? length data)%nat then
    exists sk' buffer',
      read_loop read_fuel sk junk 0 = RecvDone sk' buffer' 9 /\
      take 9 buffer' = take 9 data /\
      stream_data (incoming sk') = drop 9 data ++ stream_data rest
  else
    exists sk' buffer',
      read_loop read_fuel sk junk 0
      = RecvEof sk' buffer' (Z.of_nat (length data)) /\
      take (length data) buffer' = data /\
      stream_data (incoming sk') = [].
Proof.
  intros Hu Hin Hcase data.
  pose proof (read_loop_from read_fuel sk junk 0 Hu
                ltac:(lia) ltac:(unfold read_fuel; lia) ltac:(lia)) as H.
  cbn zeta in H. change (9 - 0)%nat with 9%nat in H.
  rewrite Hin, stream_data_chunks, stream_fails_chunks in H. fold data in H.
  rewrite length_app in H.
  destruct (Nat.leb_spec 9 (length data)) as [Hlong|Hshort].
  - destruct (Nat.leb_spec 9 (length data + length (stream_data rest))) as [_|?];
      [|lia].
    destruct H as (sk' & buf' & Hrd & Hbuf & Hrest & _).
    exists sk', buf'. split_and!; [exact Hrd| |].
    + rewrite Hbuf, take_0, app_nil_l, take_app_le by lia. reflexivity.
    + rewrite Hrest, drop_app_le by lia. reflexivity.
  - destruct Hcase as [?| ->]; [subst data; lia|].
    cbn [stream_data stream_fails length] in H. rewrite Nat.add_0_r, app_nil_r in H.
    destruct (Nat.leb_spec 9 (length data)) as [?|_]; [lia|].
    destruct H as (sk' & buf' & Hrd & Hbuf & Hnil & Hsame).
    rewrite take_0, app_nil_l in Hbuf.
    exists sk', buf'. split_and!; [exact Hrd|exact Hbuf|].
    now rewrite Hnil.
Qed.

(** ** What reaches the peer *)

Lemma same_peer_sym s1 s2 : same_peer s1 s2 -> same_peer s2 s1.
Proof. unfold same_peer. intros (?&?&?&?). auto. Qed.

Lemma write_same_peer s1 s2 src :
  same_peer s1 s2 ->
  fst (write s1 src) = fst (write s2 src) /\
  same_peer (snd (write s1 src)) (snd (write s2 src)).
Proof.
  intros Hs. pose proof (same_peer_usable _ _ Hs) as Hu.
  destruct Hs as (Hfd & Ho & Hsent & Hopen).
  unfold write. rewrite Hu, Ho, Hsent.
  destruct (usable s1); [|unfold same_peer; auto].
  destruct (wr_oracle s1) as [|[n|] o]; cbn; unfold same_peer; cbn; auto.
Qed.

Lemma close_same_peer s1 s2 : same_peer s1 s2 -> same_peer (close s1) (close s2).
Proof. unfold same_peer, close. cbn. intros (?&?&?&?). auto. Qed.

Lemma transmitted_evolves s t t' c :
  serves t c -> transmitted t c -> evolves s t t' -> transmitted t' c.
Proof.
  intros Hsrv Ht (He & _ & _ & _ & Hm & Hsk).
  unfold transmitted, serves in *.
  destruct (pc t) eqn:Hpc, (pc t') eqn:Hpc'; try done; cbn zeta in *;
    try (rewrite Hsk; exact Ht).
  - (* 110 -> 140 *) destruct Hsrv as [<- _]. exact Hsk.
  - (* 110 -> 122 *) destruct Hsrv as [<- _]. exact Hsk.
  - (* 165 -> 170 *)
    destruct Hsk as (w & Hw & _).
    destruct (write_same_peer _ _ [TIMESTAMP] Ht) as [_ Hs].
    rewrite Hw in Hs. exact Hs.
  - (* 170 -> 175 *)
    destruct Hsk as (w & Hw & _).
    destruct (write_same_peer _ _ (store_ll (message t')) Ht) as [_ Hs].
    rewrite Hw in Hs. exact Hs.
  - (* 175 -> 177 *)
    rewrite Hsk, Hm. now apply close_same_peer.
Qed.

Lemma transmitted_step e a s s' :
  Inv e s ->
  (forall i t c, threads s !! i = Some t -> connections e !! i = Some c ->
                 transmitted t c) ->
  exec a s = Some s' ->
  forall i t c, threads s' !! i = Some t -> connections e !! i = Some c ->
                transmitted t c.
Proof.
  intros HI Hall Hex i t' c Hi Hc.
  destruct (exec_shape a s s' Hex) as (_ & Hfw & _).
  destruct (Hfw i t' Hi) as [(t & Hi0 & Hev)|(Hpc & _)].
  - destruct Hev as [->|Hev]; [eauto|].
    destruct (inv_conn _ _ HI i t Hi0) as (c' & Hc' & Hsrv).
    assert (c' = c) as -> by congruence.
    eapply transmitted_evolves; eauto.
  - unfold transmitted. now rewrite Hpc.
Qed.

Lemma reachable_transmitted e s i t c :
  reachable e s -> threads s !! i = Some t -> connections e !! i = Some c ->
  transmitted t c.
Proof.
  intros [sched Hrun]. revert i t c.
  assert (Hgen : forall s0, Inv e s0 ->
            (forall i t c, threads s0 !! i = Some t -> connections e !! i = Some c ->
                           transmitted t c) ->
            run sched s0 = Some s ->
            forall i t c, threads s !! i = Some t -> connections e !! i = Some c ->
                          transmitted t c).
  { clear Hrun. induction sched as [|a sched IH]; intros s0 HI Ha Hrun; cbn in Hrun.
    - now injection Hrun as <-.
    - destruct (exec a s0) as [s1|] eqn:Hex; [|done].
      eapply (IH s1); eauto using exec_inv, transmitted_step. }
  apply (Hgen (init e)); [apply init_inv| |exact Hrun].
  intros i t c Hi. done.
Qed.

(** On a connection whose writes are all complete, a thread that has
    executed both writes has sent the tag and the eight bytes of its
    [message] after whatever had been sent before. *)
Lemma complete_writes_sent e s i t c :
  reachable e s -> threads s !! i = Some t -> connections e !! i = Some c ->
  responded (pc t) = true ->
  usable (c_sock c) = true -> wr_oracle (c_sock c) = [] ->
  sent (sock t) = sent (c_sock c) ++ TIMESTAMP :: store_ll (message t).
Proof.
  intros Hreach Hi Hc Hr Hu Ho.
  pose proof (reachable_transmitted e s i t c Hreach Hi Hc) as Ht.
  unfold transmitted in Ht. cbn zeta in Ht.
  assert (Hw : forall src,
            snd (write (snd (write (c_sock c) [TIMESTAMP])) src)
            = set_written [] ((sent (c_sock c) ++ [TIMESTAMP]) ++ src)
                (set_written [] (sent (c_sock c) ++ [TIMESTAMP]) (c_sock c))).
  { intros src. unfold write at 2. rewrite Hu, Ho. cbn [snd].
    unfold write. unfold usable in *. cbn. rewrite Hu. reflexivity. }
  rewrite Hw in Ht.
  destruct (pc t); try done.
  - destruct Ht as (_ & _ & -> & _). cbn [sent set_written].
    now rewrite <- app_assoc.
  - destruct Ht as (_ & _ & -> & _). cbn [sent set_written close].
    now rewrite <- app_assoc.
Qed.

(** The bytes sent to a federate whose writes are complete. *)
Lemma response_bytes_sent e s i t c :
  reachable e s -> threads s !! i = Some t -> connections e !! i = Some c ->
  responded (pc t) = true ->
  usable (c_sock c) = true -> wr_oracle (c_sock c) = [] ->
  sent (sock t)
  = sent (c_sock c) ++ TIMESTAMP :: be64_bytes (max0 (proposals e)).
Proof.
  intros Hreach Hi Hc Hr Hu Ho.
  rewrite (complete_writes_sent e s i t c Hreach Hi Hc Hr Hu Ho).
  destruct (response_value_max e s i t Hreach Hi Hr) as (_ & _ & -> & _).
  reflexivity.
Qed.

(** ** The claims about the barrier *)

Lemma thread_started e s i t :
  Inv e s -> threads s !! i = Some t ->
  number_of_federates s = configured_federates.
Proof.
  intros HI Hi. apply (inv_started _ _ HI).
  pose proof (inv_main _ _ HI) as Hm.
  destruct (main_pc s); try done; rewrite Hm in Hi; done.
Qed.

Lemma max_start_time_range e s : reachable e s -> is_ll (max_start_time s).
Proof.
  intros Hr. pose proof (reachable_inv e s Hr) as HI.
  rewrite (inv_max _ _ HI).
  assert (H : forall i t, threads s !! i = Some t -> accepted (pc t) = true ->
                          is_ll (timestamp t)).
  { intros i t Hi Ha. destruct (inv_conn _ _ HI i t Hi) as (c & _ & Hs).
    unfold serves in Hs. apply (conn_proposal_range c).
    destruct (pc t); done. }
  clear -H. induction (threads s) as [|t l IH]; [unfold is_ll; cbn; lia|].
  cbn [aggregate].
  assert (IH' : is_ll (aggregate l)).
  { apply IH. intros i ti Hi. apply (H (S i)). exact Hi. }
  destruct (accepted (pc t)) eqn:Ea; [|exact IH'].
  pose proof (H 0%nat t eq_refl Ea). unfold is_ll in *. lia.
Qed.

(** C3: [max_start_time] never decreases along a run; once all the
    federates have been accepted (each has executed lines 141-144) no
    further step changes it, and every thread that has answered carries
    exactly that value in its response. *)
Theorem max_start_time_monotone_then_frozen e s sched s' :
  reachable e s ->
  run sched s = Some s' ->
  max_start_time s <= max_start_time s' /\
  (Z.of_nat (count_threads accepted (threads s)) = configured_federates ->
   max_start_time s' = max_start_time s /\
   forall i t, threads s' !! i = Some t -> responded (pc t) = true ->
               store_ll (message t) = be64_bytes (max_start_time s) /\
               response_value t = max_start_time s).
Proof.
  intros Hreach Hrun. split; [eapply run_monotone; eauto|].
  intros Hall.
  pose proof (reachable_inv e s Hreach) as HI.
  pose proof (accepted_count_settled e s HI Hall) as Hs.
  destruct (settled_run e sched s s' HI Hs Hrun) as [Hs' Hmax].
  split; [exact Hmax|]. intros i t Hi Hr.
  pose proof (reachable_run e sched s s' Hreach Hrun) as Hreach'.
  pose proof (reachable_answered e s' Hreach' i t Hi Hr) as Hm.
  unfold response_value. rewrite Hm, store_swap_ll, Hmax.
  split; [reflexivity|].
  apply be64_value_bytes. eapply max_start_time_range; eauto.
Qed.

(** C7: the aggregated value does not depend on the order in which the
    federates connect nor on the interleaving of their threads.  Two runs
    whose federates propose the same instants up to a permutation agree on
    [max_start_time] once all proposals have been accepted. *)
Theorem aggregation_order_independent e1 e2 ts1 ts2 s1 s2 :
  Forall2 (fun c v => exists tag, sends c tag v) (connections e1) ts1 ->
  Forall2 (fun c v => exists tag, sends c tag v) (connections e2) ts2 ->
  Forall is_ll ts1 ->
  Z.of_nat (length ts1) = configured_federates ->
  Permutation ts1 ts2 ->
  reachable e1 s1 -> reachable e2 s2 ->
  Z.of_nat (count_threads accepted (threads s1)) = configured_federates ->
  Z.of_nat (count_threads accepted (threads s2)) = configured_federates ->
  max_start_time s1 = max_start_time s2 /\
  max_start_time s1 = max0 ts1.
Proof.
  intros Hs1 Hs2 Hr1 Hlen Hperm Hreach1 Hreach2 Ha1 Ha2.
  pose proof (reachable_inv e1 s1 Hreach1) as HI1.
  pose proof (reachable_inv e2 s2 Hreach2) as HI2.
  destruct (settled_proposals e1 s1 HI1 (accepted_count_settled e1 s1 HI1 Ha1)) as [_ ->].
  destruct (settled_proposals e2 s2 HI2 (accepted_count_settled e2 s2 HI2 Ha2)) as [_ ->].
  rewrite (proposals_of_sends e1 ts1 Hs1 Hr1 Hlen).
  rewrite (proposals_of_sends e2 ts2 Hs2).
  - split; [now apply max0_perm|reflexivity].
  - eapply Permutation_Forall; eauto.
  - rewrite <- Hlen. f_equal. symmetry. now apply Permutation_length.
Qed.

(** The integer sent back is the maximum of 0 and the proposals. *)
Lemma response_max0 e ts s i t :
  Forall2 (fun c v => sends c TIMESTAMP v) (connections e) ts ->
  Forall is_ll ts ->
  Z.of_nat (length ts) = configured_federates ->
  reachable e s ->
  threads s !! i = Some t ->
  responded (pc t) = true ->
  store_ll (message t) = be64_bytes (max0 ts) /\
  response_value t = max0 ts /\
  0 <= response_value t /\
  (Forall (fun v => v < 0) ts -> response_value t = 0) /\
  (forall c, connections e !! i = Some c -> wr_oracle (c_sock c) = [] ->
             sent (sock t) = sent (c_sock c) ++ TIMESTAMP :: be64_bytes (max0 ts)).
Proof.
  intros Hs Hr Hlen Hreach Hi Hresp.
  destruct (response_value_max e s i t Hreach Hi Hresp) as (_ & _ & Hst & Hv).
  assert (Hp : proposals e = ts).
  { apply proposals_of_sends; auto.
    eapply Forall2_impl; [exact Hs|]. cbn. eauto. }
  rewrite Hp in *. split_and!; auto.
  - rewrite Hv. apply max0_nonneg.
  - intros Hneg. rewrite Hv. now apply max0_all_negative.
  - intros c Hc Ho. rewrite <- Hp.
    apply (response_bytes_sent e s i t c Hreach Hi Hc Hresp); [|exact Ho].
    destruct (Forall2_lookup_l _ _ _ i c Hs Hc) as (v & _ & Hu & _). exact Hu.
Qed.

(** C9: because [max_start_time] starts at 0 and is only raised, the
    integer sent back to every federate is the maximum of 0 and the
    proposed instants: it is never negative, and it is 0 when every
    proposal is negative. *)
Theorem response_is_max_with_zero e ts s i t :
  Forall2 (fun c v => sends c TIMESTAMP v) (connections e) ts ->
  Forall is_ll ts ->
  Z.of_nat (length ts) = configured_federates ->
  reachable e s ->
  threads s !! i = Some t ->
  responded (pc t) = true ->
  store_ll (message t) = be64_bytes (max0 ts) /\
  response_value t = max0 ts /\
  0 <= response_value t /\
  (Forall (fun v => v < 0) ts -> response_value t = 0) /\
  (forall c, connections e !! i = Some c -> wr_oracle (c_sock c) = [] ->
             sent (sock t) = sent (c_sock c) ++ TIMESTAMP :: be64_bytes (max0 ts)).
Proof. apply response_max0. Qed.

(** ** No lost wakeup, and release of every waiting thread *)

Lemma pending_holds l : pending l = true -> holds_mutex l = true.
Proof. destruct l; done. Qed.

Lemma signalled_step e a s s' :
  Inv e s -> signalled s -> exec a s = Some s' -> signalled s'.
Proof.
  intros HI Hsig Hex. unfold exec in Hex.
  destruct (exited s); [done|].
  destruct a as [|i|i].
  - (* the main thread *)
    pose proof (inv_main _ _ HI) as Hmain.
    assert (Hempty : threads s' = [] -> signalled s').
    { intros He. right. right. intros j tj Hj. rewrite He in Hj. done. }
    unfold main, connect_to_federates in Hex.
    destruct (main_pc s) as [| |k|k|] eqn:Hmp.
    + apply Hempty. destruct (create_server _ _); injection Hex as <-; exact Hmain.
    + apply Hempty. injection Hex as <-. exact Hmain.
    + destruct (k <? number_of_federates s); [|injection Hex as <-; exact Hsig].
      destruct (connections (sys s) !! length (threads s)) as [c|]; [|done].
      destruct (pointer_lt_0 _); injection Hex as <-; [exact Hsig|].
      destruct Hsig as [Hlt|[(k0 & tk & Hk & Hp)|Hnone]].
      * left. exact Hlt.
      * right. left. exists k0, tk. split; [|exact Hp].
        cbn. apply lookup_app_l_Some. exact Hk.
      * right. right. intros j tj Hj. cbn in Hj.
        apply lookup_spawn in Hj as [Hj|[_ ->]]; [eauto|done].
    + destruct (k <? number_of_federates s); [|injection Hex as <-; exact Hsig].
      destruct (threads s !! Z.to_nat k) as [t|]; [|done].
      destruct (returned (pc t)); [|done]. injection Hex as <-. exact Hsig.
    + injection Hex as <-. exact Hsig.
  - (* a federate thread *)
    destruct (threads s !! i) as [t|] eqn:Hi; [|done].
    pose proof (inv_count_le e s HI) as Hle.
    pose proof (thread_started e s i t HI Hi) as Hnf.
    apply federate_shape in Hex
      as [(Hth & _ & Hnum & Hnf' & _)
         |(t' & (He & Hg1 & Hg2 & _) & _ & Hnf' & Hnum & Hth & _)].
    { unfold signalled. rewrite Hth, Hnum, Hnf'. exact Hsig. }
    assert (Hlt : (i < length (threads s))%nat) by (eapply lookup_lt_Some; eauto).
    unfold signalled. rewrite Hnf'.
    (* the stepping thread itself *)
    destruct (pending (pc t')) eqn:Hp'.
    { right. left. exists i, t'. split; [|exact Hp'].
      destruct Hth as [[_ ->]|[_ ->]]; apply list_lookup_insert_eq;
        rewrite ?length_map; exact Hlt. }
    destruct Hth as [[Hn147 Hth]|[Hpc Hth]].
    2:{ (* the broadcast *)
      right. right. intros j tj Hj. rewrite Hth in Hj.
      apply lookup_update in Hj as [[-> ->]|[Hne Hj]].
      - rewrite Hpc in He. destruct (pc t'); done.
      - apply wake_lookup in Hj as (t0 & _ & ->).
        unfold wake. destruct (pc t0) eqn:E; cbn; congruence. }
    assert (Hnum' : num_feds_proposed_start s' = num_feds_proposed_start s).
    { destruct Hnum as [Hnum|Hpc]; [exact Hnum|].
      rewrite Hpc in He. destruct (pc t'); done. }
    rewrite Hnum'.
    destruct Hsig as [Hsig|[(k & tk & Hk & Hp)|Hnone]].
    + left. exact Hsig.
    + destruct (decide (k = i)) as [->|Hne].
      * (* the pending thread has decided to wait *)
        assert (tk = t) as -> by congruence.
        left. assert (pc t = L145 /\ pc t' = L151) as [Hpc Hpc'].
        { destruct (pc t), (pc t'); done. }
        specialize (Hg2 Hpc Hpc'). lia.
      * right. left. exists k, tk. split; [|exact Hp].
        rewrite Hth, list_lookup_insert_ne by congruence. exact Hk.
    + assert (pc t' = L153_blocked \/ pc t' <> L153_blocked) as [Hb|Hnb]
        by (destruct (pc t'); auto; right; done).
      * left. apply Hg1; [|exact Hb]. destruct (pc t), (pc t'); done.
      * right. right. intros j tj Hj. rewrite Hth in Hj.
        apply lookup_update in Hj as [[-> ->]|[Hne Hj]]; eauto.
  - (* a spurious wakeup *)
    destruct (threads s !! i) as [t|] eqn:Hi; [|done].
    destruct (pc t) eqn:Hpc; try done. injection Hex as <-.
    destruct Hsig as [Hsig|[(k & tk & Hk & Hp)|Hnone]].
    + left. exact Hsig.
    + right. left. exists k, tk. split; [|exact Hp]. cbn.
      rewrite list_lookup_insert_ne; [exact Hk|].
      intros ->. rewrite Hi in Hk. injection Hk as <-. rewrite Hpc in Hp. done.
    + exfalso. eapply Hnone; eauto.
Qed.

Lemma reachable_signalled e s : reachable e s -> signalled s.
Proof.
  intros [sched Hrun].
  assert (Hgen : forall s0, Inv e s0 -> signalled s0 -> run sched s0 = Some s ->
                            signalled s).
  { clear Hrun. induction sched as [|a sched IH]; intros s0 HI Ha Hrun; cbn in Hrun.
    - now injection Hrun as <-.
    - destruct (exec a s0) as [s1|] eqn:Hex; [|done].
      eapply (IH s1); eauto using exec_inv, signalled_step. }
  apply (Hgen (init e)); [apply init_inv| |exact Hrun].
  right. right. intros j tj Hj. done.
Qed.

Lemma potential_insert (l : list thread) i t t' :
  l !! i = Some t ->
  (potential (<[i:=t']> l) + rank (pc t) = potential l + rank (pc t'))%nat.
Proof.
  revert i. induction l as [|t0 l IH]; intros i Hi; [done|].
  destruct i as [|i]; simpl in Hi |- *.
  - injection Hi as ->. lia.
  - specialize (IH i Hi). lia.
Qed.

Lemma potential_wake l : (potential (map wake l) <= potential l)%nat.
Proof.
  induction l as [|t l IH]; [done|].
  cbn [map potential].
  assert (rank (pc (wake t)) <= rank (pc t))%nat; [|lia].
  unfold wake. destruct (pc t) eqn:E; cbn; rewrite ?E; cbn; lia.
Qed.

Lemma potential_pos (l : list thread) :
  (0 < potential l)%nat -> exists j tj, l !! j = Some tj /\ (0 < rank (pc tj))%nat.
Proof.
  induction l as [|t l IH]; cbn [potential]; [lia|]. intros Hp.
  destruct (decide (0 < rank (pc t))%nat) as [Hr|Hr].
  - exists 0%nat, t. auto.
  - destruct IH as (j & tj & Hj & Hrj); [lia|]. exists (S j), tj. auto.
Qed.

Lemma potential_zero (l : list thread) i t :
  potential l = 0%nat -> l !! i = Some t -> rank (pc t) = 0%nat.
Proof.
  revert i. induction l as [|t0 l IH]; intros i Hp Hi; [done|].
  cbn [potential] in Hp. destruct i as [|i]; simpl in Hi.
  - injection Hi as ->. lia.
  - eapply IH; eauto. lia.
Qed.

(** With the counter full, some thread inside the barrier can run, and
    its statement brings the threads closer to the exit of the barrier. *)
Lemma barrier_progress e s :
  Inv e s -> signalled s ->
  exited s = None ->
  num_feds_proposed_start s = configured_federates ->
  (0 < potential (threads s))%nat ->
  exists i s',
    exec (Thread i) s = Some s' /\
    (potential (threads s') < potential (threads s))%nat /\
    exited s' = None /\
    num_feds_proposed_start s' = configured_federates.
Proof.
  intros HI Hsig Hexit Hnum Hpot.
  destruct (inv_full e s HI ltac:(lia)) as (_ & _ & Hcounted).
  destruct (potential_pos _ Hpot) as (j & tj & Hj & Hrank).
  pose proof (thread_started e s j tj HI Hj) as Hnf.
  assert (Hstep : forall i t t' s',
            threads s !! i = Some t ->
            federate i t s = Some s' ->
            (threads s' = <[i:=t']> (threads s) \/
             threads s' = <[i:=t']> (map wake (threads s)) /\ wake t = t) ->
            (rank (pc t') < rank (pc t))%nat ->
            exited s' = None ->
            num_feds_proposed_start s' = configured_federates ->
            exists i s',
              exec (Thread i) s = Some s' /\
              (potential (threads s') < potential (threads s))%nat /\
              exited s' = None /\
              num_feds_proposed_start s' = configured_federates).
  { intros i t t' s' Hi Hfs Hth Hr He Hn. exists i, s'.
    unfold exec. rewrite Hexit, Hi. split_and!; auto.
    destruct Hth as [->|[-> Hw]].
    - pose proof (potential_insert (threads s) i t t' Hi). lia.
    - assert (Hi' : map wake (threads s) !! i = Some t)
        by (rewrite list_lookup_fmap, Hi; cbn; congruence).
      pose proof (potential_insert _ i t t' Hi').
      pose proof (potential_wake (threads s)). lia. }
  destruct (mutex s) as [k|] eqn:Hm.
  - (* the holder of the mutex runs *)
    destruct (inv_owner _ _ HI k Hm) as [tk Hk].
    pose proof (proj2 (inv_holder _ _ HI k tk Hk) Hm) as Hh.
    pose proof (Hcounted k tk Hk) as Hc.
    destruct (pc tk) eqn:Hpc; try done.
    + (* line 142 *)
      eapply (Hstep k tk (at_loc L145 tk)); [exact Hk| | | | |].
      * unfold federate. rewrite Hpc. reflexivity.
      * left. destruct (timestamp tk >? max_start_time s); reflexivity.
      * rewrite Hpc. cbn. lia.
      * destruct (timestamp tk >? max_start_time s); exact Hexit.
      * destruct (timestamp tk >? max_start_time s); exact Hnum.
    + (* line 145 *)
      eapply (Hstep k tk (at_loc L147 tk)); [exact Hk| | | | |].
      * unfold federate. rewrite Hpc, Hnum, Hnf, Z.eqb_refl. reflexivity.
      * left. reflexivity.
      * rewrite Hpc. cbn. lia.
      * exact Hexit.
      * exact Hnum.
    + (* line 147 *)
      eapply (Hstep k tk (at_loc L156 tk)); [exact Hk| | | | |].
      * unfold federate. rewrite Hpc. reflexivity.
      * right. split; [reflexivity|]. unfold wake. now rewrite Hpc.
      * rewrite Hpc. cbn. lia.
      * exact Hexit.
      * exact Hnum.
    + (* line 151 *)
      eapply (Hstep k tk (at_loc L156 tk)); [exact Hk| | | | |].
      * unfold federate. rewrite Hpc, Hnum, Hnf, Z.ltb_irrefl. reflexivity.
      * left. reflexivity.
      * rewrite Hpc. cbn. lia.
      * exact Hexit.
      * exact Hnum.
    + (* line 156 *)
      eapply (Hstep k tk (at_loc L165 tk)); [exact Hk| | | | |].
      * unfold federate. rewrite Hpc. reflexivity.
      * left. reflexivity.
      * rewrite Hpc. cbn. lia.
      * exact Hexit.
      * exact Hnum.
  - (* the mutex is free: a woken thread takes it *)
    assert (Hfree : forall k tk, threads s !! k = Some tk -> holds_mutex (pc tk) = false).
    { intros k tk Hk. destruct (holds_mutex (pc tk)) eqn:Hh; [|reflexivity].
      apply (inv_holder _ _ HI k tk Hk) in Hh. congruence. }
    pose proof (Hfree j tj Hj) as Hh.
    destruct (pc tj) eqn:Hpc; try done; try (cbn in Hrank; lia).
    + (* suspended with a full counter: impossible *)
      exfalso. destruct Hsig as [Hlt|[(k & tk & Hk & Hp)|Hnone]].
      * lia.
      * apply pending_holds in Hp. rewrite (Hfree k tk Hk) in Hp. done.
      * eapply Hnone; eauto.
    + eapply (Hstep j tj (at_loc L151 tj)); [exact Hj| | | | |].
      * unfold federate. rewrite Hpc, Hm. reflexivity.
      * left. reflexivity.
      * rewrite Hpc. cbn. lia.
      * exact Hexit.
      * exact Hnum.
Qed.

(** Every thread leaves the barrier once the counter is full: from any
    state of a run in which [num_feds_proposed_start] has reached the
    number of federates, the threads alone (no spurious wakeup is needed)
    can run until each of them is past [pthread_mutex_unlock]. *)
Lemma barrier_releases_all e s :
  reachable e s ->
  exited s = None ->
  num_feds_proposed_start s = configured_federates ->
  exists sched s',
    run sched s = Some s' /\
    Forall is_thread_action sched /\
    exited s' = None /\
    forall i t, threads s' !! i = Some t -> passed (pc t) = true.
Proof.
  intros Hreach.
  pose proof (reachable_inv e s Hreach) as HI.
  pose proof (reachable_signalled e s Hreach) as Hsig.
  clear Hreach.
  remember (potential (threads s)) as n eqn:Hn.
  revert s HI Hsig Hn. induction n as [n IH] using lt_wf_ind.
  intros s HI Hsig Hn Hexit Hnum.
  destruct (decide (0 < n)%nat) as [Hpos|Hzero].
  - destruct (barrier_progress e s HI Hsig Hexit Hnum ltac:(lia))
      as (i & s1 & Hex & Hlt & Hexit1 & Hnum1).
    destruct (IH (potential (threads s1)) ltac:(lia) s1
                (exec_inv _ _ _ _ HI Hex)
                (signalled_step _ _ _ _ HI Hsig Hex) eq_refl Hexit1 Hnum1)
      as (sched & s' & Hrun & Hall & Hexit' & Hpassed).
    exists (Thread i :: sched), s'. split_and!; auto.
    + cbn. now rewrite Hex.
    + constructor; [exact I|exact Hall].
  - exists [], s. split_and!; auto.
    intros i t Hi.
    destruct (inv_full e s HI ltac:(lia)) as (_ & _ & Hcounted).
    pose proof (Hcounted i t Hi) as Hc.
    pose proof (potential_zero (threads s) i t ltac:(lia) Hi) as Hr.
    destruct (pc t); done.
Qed.

(** ** The barrier as a whole *)

Lemma aggregate_ge (l : list thread) i t :
  l !! i = Some t -> accepted (pc t) = true -> timestamp t <= aggregate l.
Proof.
  revert i. induction l as [|t0 l IH]; intros i Hi Ha; [done|].
  destruct i as [|i]; simpl in Hi; cbn [aggregate].
  - injection Hi as ->. rewrite Ha. lia.
  - specialize (IH i Hi Ha). destruct (accepted (pc t0)); lia.
Qed.

Lemma count_threads_full p (l : list thread) :
  (forall i t, l !! i = Some t -> p (pc t) = true) ->
  count_threads p l = length l.
Proof.
  induction l as [|t0 l IH]; intros Hall; [reflexivity|].
  cbn [count_threads length].
  rewrite (Hall 0%nat t0 eq_refl).
  rewrite IH; [reflexivity|]. intros j tj Hj. apply (Hall (S j)). exact Hj.
Qed.

(** C2: the barrier lets a thread through exactly when the number of
    proposals registered has reached the number of federates.  In every
    state of a run [num_feds_proposed_start] is the number of threads that
    have executed line 141.  Only if: a thread that is past the test of
    line 145 or 151 sees the counter equal to [number_of_federates], and
    all the federates have then had their proposal accepted; with fewer
    registered, no thread is past the barrier.  If: when as many threads
    as federates have executed line 141 the counter equals
    [number_of_federates] and the threads can all run to the end of the
    barrier without any spurious wakeup; the broadcast of line 147 leaves
    no thread suspended.  And all the threads that have answered carry the
    same value, the final [max_start_time]. *)
Theorem barrier_release e s :
  reachable e s ->
  num_feds_proposed_start s = Z.of_nat (count_threads counted (threads s)) /\
  (forall i t, threads s !! i = Some t -> released (pc t) = true ->
     num_feds_proposed_start s = number_of_federates s /\
     number_of_federates s = configured_federates /\
     Z.of_nat (count_threads accepted (threads s)) = configured_federates) /\
  (Z.of_nat (count_threads counted (threads s)) < configured_federates ->
   forall i t, threads s !! i = Some t -> released (pc t) = false) /\
  (exited s = None ->
   Z.of_nat (count_threads counted (threads s)) = configured_federates ->
   num_feds_proposed_start s = number_of_federates s /\
   exists sched s',
     run sched s = Some s' /\ Forall is_thread_action sched /\
     exited s' = None /\
     forall i t, threads s' !! i = Some t -> passed (pc t) = true) /\
  (exited s = None ->
   num_feds_proposed_start s = number_of_federates s ->
   exists sched s',
     run sched s = Some s' /\ Forall is_thread_action sched /\
     exited s' = None /\
     forall i t, threads s' !! i = Some t -> passed (pc t) = true) /\
  (forall i t s', threads s !! i = Some t -> pc t = L147 ->
     exec (Thread i) s = Some s' ->
     forall j tj, threads s' !! j = Some tj -> pc tj <> L153_blocked) /\
  (forall i j ti tj,
     threads s !! i = Some ti -> threads s !! j = Some tj ->
     responded (pc ti) = true -> responded (pc tj) = true ->
     response_value ti = response_value tj /\
     response_value ti = max_start_time s).
Proof.
  intros Hreach. pose proof (reachable_inv e s Hreach) as HI.
  pose proof (inv_count _ _ HI) as Hcount.
  split_and!.
  - exact Hcount.
  - intros i t Hi Hr.
    destruct (inv_released _ _ HI i t Hi Hr) as [Hn Hall].
    destruct (inv_full e s HI ltac:(lia)) as (Hlen & _ & _).
    rewrite (thread_started e s i t HI Hi).
    split_and!; [exact Hn|reflexivity|].
    rewrite (count_threads_full accepted (threads s) Hall). exact Hlen.
  - intros Hfew i t Hi. destruct (released (pc t)) eqn:Hr; [|reflexivity].
    destruct (inv_released _ _ HI i t Hi Hr) as [Hn _]. lia.
  - intros Hexit Hall.
    assert (Hnum : num_feds_proposed_start s = configured_federates) by lia.
    destruct (inv_full e s HI ltac:(lia)) as (Hlen & _ & _).
    destruct (lookup_lt_is_Some_2 (threads s) 0 ltac:(lia)) as [t0 H0].
    split.
    + rewrite (thread_started e s 0%nat t0 HI H0). exact Hnum.
    + apply (barrier_releases_all e s Hreach Hexit Hnum).
  - intros Hexit Hnum.
    destruct (threads s) as [|t0 l] eqn:Hth.
    + exists [], s. split_and!; auto. rewrite Hth. intros i t Hi. done.
    + apply (barrier_releases_all e s Hreach Hexit).
      rewrite Hnum. apply (thread_started e s 0%nat t0 HI).
      now rewrite Hth.
  - intros i t s' Hi Hpc Hex j tj Hj.
    unfold exec in Hex. destruct (exited s); [done|].
    rewrite Hi in Hex. unfold federate in Hex. rewrite Hpc in Hex.
    injection Hex as <-. cbn in Hj.
    apply lookup_update in Hj as [[-> ->]|[Hne Hj]]; [done|].
    apply wake_lookup in Hj as (t0 & _ & ->).
    unfold wake. destruct (pc t0) eqn:E; cbn; congruence.
  - intros i j ti tj Hi Hj Hri Hrj.
    destruct (response_value_max e s i ti Hreach Hi Hri) as (Hs & _ & _ & Hvi).
    destruct (response_value_max e s j tj Hreach Hj Hrj) as (_ & _ & _ & Hvj).
    destruct (settled_proposals e s HI Hs) as [_ Hmax].
    split; congruence.
Qed.

(** ** The claims about one connection *)

Lemma returned_forever a s s' i t :
  exec a s = Some s' -> threads s !! i = Some t -> returned (pc t) = true ->
  threads s' !! i = Some t.
Proof.
  intros Hex Hi Hr.
  destruct (exec_shape a s s' Hex) as (_ & _ & Hbw).
  destruct (Hbw i t Hi) as (t' & Hi' & [->|(He & _)]); [exact Hi'|].
  destruct (pc t), (pc t'); done.
Qed.

Lemma returned_forever_run sched s s' i t :
  run sched s = Some s' -> threads s !! i = Some t -> returned (pc t) = true ->
  threads s' !! i = Some t.
Proof.
  revert s. induction sched as [|a sched IH]; intros s Hrun Hi Hr; cbn in Hrun.
  - now injection Hrun as <-.
  - destruct (exec a s) as [s1|] eqn:Hex; [|done].
    eapply IH; eauto using returned_forever.
Qed.

(** C4: what the code does when the stream ends before nine bytes have
    arrived.  The thread returns at line 122 and registers nothing: the
    counter and the maximum are as before.  It does not close the
    connection, and since the thread never runs again the connection
    stays open in every continuation of the run. *)
Theorem eof_returns_without_close s i t :
  exited s = None ->
  threads s !! i = Some t -> pc t = L110 ->
  usable (sock t) = true ->
  stream_fails (incoming (sock t)) = false ->
  (length (stream_data (incoming (sock t))) < 9)%nat ->
  exists s' t',
    exec (Thread i) s = Some s' /\
    threads s' !! i = Some t' /\ pc t' = L122_returned /\
    num_feds_proposed_start s' = num_feds_proposed_start s /\
    max_start_time s' = max_start_time s /\
    exited s' = None /\
    is_open (sock t') = true /\
    forall sched s'', run sched s' = Some s'' ->
      exists t'', threads s'' !! i = Some t'' /\ is_open (sock t'') = true.
Proof.
  intros Hexit Hi Hpc Hu Hnf Hshort.
  pose proof (read_loop_from read_fuel (sock t) (buffer t) 0 Hu
                ltac:(lia) ltac:(unfold read_fuel; lia) ltac:(lia)) as H.
  cbn zeta in H. change (9 - 0)%nat with 9%nat in H.
  destruct (Nat.leb_spec 9 (length (stream_data (incoming (sock t))))) as [?|_];
    [lia|].
  rewrite Hnf in H. destruct H as (sk' & buf' & Hrd & _ & _ & Hsame).
  set (t' := mkThread L122_returned sk' buf' (timestamp t) (message t)).
  assert (Hlt : (i < length (threads s))%nat) by (eapply lookup_lt_Some; eauto).
  assert (Hopen : is_open sk' = true).
  { destruct Hsame as (_ & _ & _ & ->). unfold usable in Hu.
    now apply andb_true_iff in Hu as [_ ?]. }
  exists (set_thread i t' s), t'.
  assert (Hi' : threads (set_thread i t' s) !! i = Some t')
    by (cbn; now apply list_lookup_insert_eq).
  split_and!; auto.
  - unfold exec. rewrite Hexit, Hi. unfold federate. rewrite Hpc.
    unfold federate_receive. change (Z.of_nat 0) with 0 in Hrd.
    now rewrite Hrd.
  - intros sched s'' Hrun. exists t'. split; [|exact Hopen].
    eapply returned_forever_run; eauto.
Qed.

(** The transport faults that the code does detect: a failing [socket] or
    [bind] ends the process in [create_server], a failing [read] ends it
    in the read loop. *)
Lemma create_server_failure_is_fatal s :
  exited s = None -> main_pc s = M208 ->
  socket_ret (sys s) < 0 \/ bind_ret (sys s) <> 0 ->
  exists msg, exec Main s = Some (exit (Fatal msg) s).
Proof.
  intros Hexit Hmp Hfail. unfold exec, main, create_server, error.
  rewrite Hexit, Hmp.
  destruct (Z.ltb_spec (socket_ret (sys s)) 0); [eauto|].
  destruct (Z.eqb_spec (bind_ret (sys s)) 0); [|cbn; eauto].
  destruct Hfail; [lia|done].
Qed.

Lemma read_failure_is_fatal s i t :
  exited s = None ->
  threads s !! i = Some t -> pc t = L110 ->
  usable (sock t) = true ->
  stream_fails (incoming (sock t)) = true ->
  (length (stream_data (incoming (sock t))) < 9)%nat ->
  exec (Thread i) s
  = Some (exit (Fatal "ERROR on RTI reading from socket") s).
Proof.
  intros Hexit Hi Hpc Hu Hf Hshort.
  pose proof (read_loop_from read_fuel (sock t) (buffer t) 0 Hu
                ltac:(lia) ltac:(unfold read_fuel; lia) ltac:(lia)) as H.
  cbn zeta in H. change (9 - 0)%nat with 9%nat in H.
  destruct (Nat.leb_spec 9 (length (stream_data (incoming (sock t))))) as [?|_];
    [lia|].
  rewrite Hf in H. destruct H as (sk' & Hrd).
  unfold exec. rewrite Hexit, Hi. unfold federate. rewrite Hpc.
  unfold federate_receive. change (Z.of_nat 0) with 0 in Hrd.
  now rewrite Hrd.
Qed.

(** C5: what the code does when [accept] fails.  The test of line 198
    compares the pointer [fed_socket_descriptor] with 0, which never
    holds, so the negative descriptor goes unnoticed: the loop goes on and
    starts a thread on it, and the process ends only when that thread
    runs and its [read] fails, with the diagnostic of the read. *)
Theorem failed_accept_not_detected s i c :
  exited s = None ->
  main_pc s = M192 i -> i < number_of_federates s ->
  connections (sys s) !! length (threads s) = Some c ->
  fd (c_sock c) < 0 ->
  exists s',
    exec Main s = Some s' /\
    exited s' = None /\ stderr s' = stderr s /\
    threads s' = threads s ++ [mkThread L110 (c_sock c) (c_stack c) 0 0] /\
    exec (Thread (length (threads s))) s'
    = Some (exit (Fatal "ERROR on RTI reading from socket") s').
Proof.
  intros Hexit Hmp Hlt Hc Hfd.
  eexists. split.
  { unfold exec, main, connect_to_federates. rewrite Hexit, Hmp, Hc.
    destruct (Z.ltb_spec i (number_of_federates s)) as [_|?]; [|lia].
    unfold pointer_lt_0.
    destruct (Z.ltb_spec (Z.of_N (fed_socket_descriptor s)) 0) as [?|_]; [lia|].
    reflexivity. }
  cbn. split_and!; auto.
  unfold exec. cbn. rewrite Hexit.
  rewrite lookup_app_r, Nat.sub_diag by lia. cbn.
  unfold federate_receive, read_fuel. cbn [read_loop sock buffer].
  unfold read, usable.
  destruct (Z.leb_spec 0 (fd (c_sock c))) as [?|_]; [lia|].
  reflexivity.
Qed.

Lemma pointer_never_negative p : pointer_lt_0 p = false.
Proof. unfold pointer_lt_0. apply Z.ltb_ge. lia. Qed.

Lemma byte_eqb_neq (a b : byte) : a <> b -> Byte.eqb a b = false.
Proof.
  intros Hne. destruct (Byte.eqb a b) eqn:E; [|reflexivity].
  apply Byte.byte_dec_bl in E. contradiction.
Qed.

Lemma receive_step s i t c tag v :
  exited s = None ->
  threads s !! i = Some t -> pc t = L110 ->
  sock t = c_sock c -> buffer t = c_stack c ->
  sends c tag v -> is_ll v ->
  exists s' t',
    exec (Thread i) s = Some s' /\
    stderr s' = stderr s ++ (if Byte.eqb tag TIMESTAMP then []
                             else [Expected_TIMESTAMP tag]) /\
    threads s' !! i = Some t' /\ pc t' = L140 /\ timestamp t' = v /\
    exited s' = None.
Proof.
  intros Hexit Hi Hpc Hsk Hbuf Hs Hv.
  destruct (receive_sends c tag v Hs) as (sk' & buf' & Hrd & Htag & Hp & _).
  assert (Hlt : (i < length (threads s))%nat) by (eapply lookup_lt_Some; eauto).
  assert (Hdec : decode_timestamp buf' = v).
  { unfold decode_timestamp. rewrite Hp, swap_load_ll by apply (be64_bytes_length v).
    now apply be64_value_bytes. }
  eexists. exists (mkThread L140 sk' buf' v (message t)). split.
  { unfold exec. rewrite Hexit, Hi. unfold federate. rewrite Hpc.
    unfold federate_receive. rewrite Hsk, Hbuf, Hrd, Htag, Hdec. reflexivity. }
  cbn. split_and!; auto.
  now apply list_lookup_insert_eq.
Qed.


(** C10: the response goes out in two writes, the tag byte and then the
    eight bytes of the instant, and only a negative result of [write] is an
    error.  A write that transmits fewer bytes than asked, or none, counts
    as done: the thread goes on, closes the connection and returns, with
    nothing on [stderr], whatever part of the response reached the peer. *)
Theorem short_write_is_success s i t o :
  exited s = None ->
  threads s !! i = Some t -> pc t = L165 ->
  usable (sock t) = true ->
  (wr_oracle (sock t) = WrFail :: o ->
   exec (Thread i) s
   = Some (exit (Fatal "ERROR sending message ID to federate") s)) /\
  (forall n1, wr_oracle (sock t) = WrLen n1 :: WrFail :: o ->
   exists s1,
     exec (Thread i) s = Some s1 /\
     exec (Thread i) s1
     = Some (exit (Fatal "ERROR sending start time to federate") s1)) /\
  (forall n1 n2, wr_oracle (sock t) = WrLen n1 :: WrLen n2 :: o ->
   exists s' t',
     run [Thread i; Thread i; Thread i] s = Some s' /\
     threads s' !! i = Some t' /\ pc t' = L177_returned /\
     exited s' = None /\ stderr s' = stderr s /\
     is_open (sock t') = false /\
     sent (sock t')
     = sent (sock t) ++ take n1 [TIMESTAMP]
         ++ take n2 (be64_bytes (max_start_time s))).
Proof.
  intros Hexit Hi Hpc Hu.
  assert (Hlt : (i < length (threads s))%nat) by (eapply lookup_lt_Some; eauto).
  assert (Htake : forall n (l : list byte), take (Nat.min n (length l)) l = take n l).
  { intros n l. destruct (Nat.min_spec n (length l)) as [[_ ->]|[Hle ->]];
      [reflexivity|]. rewrite firstn_all. symmetry. now apply take_ge. }
  assert (Hnn : forall n, (Z.of_nat n <? 0) = false)
    by (intros n; apply Z.ltb_ge; lia).
  split_and!.
  - intros Ho. unfold exec. rewrite Hexit, Hi. unfold federate.
    rewrite Hpc. unfold write. rewrite Hu, Ho. reflexivity.
  - intros n1 Ho. eexists. split.
    + unfold exec. rewrite Hexit, Hi. unfold federate.
      rewrite Hpc. unfold write. rewrite Hu, Ho. cbn zeta.
      rewrite Hnn. reflexivity.
    + unfold exec. cbn. rewrite Hexit.
      rewrite list_lookup_insert_eq by exact Hlt.
      unfold federate. cbn. unfold write, usable in *. cbn.
      rewrite Hu. reflexivity.
  - intros n1 n2 Ho. eexists. eexists.
    split.
    { cbn [run]. unfold exec at 1. rewrite Hexit, Hi. unfold federate at 1.
      rewrite Hpc. unfold write at 1. rewrite Hu, Ho. cbn zeta.
      rewrite Hnn.
      unfold exec at 1. cbn. rewrite Hexit.
      rewrite list_lookup_insert_eq by exact Hlt.
      unfold federate at 1. cbn. unfold write, usable in *. cbn.
      rewrite Hu. cbn zeta. rewrite Hnn.
      unfold exec. cbn. rewrite Hexit.
      rewrite list_lookup_insert_eq
        by (rewrite length_insert; exact Hlt).
      unfold federate. cbn. reflexivity. }
    cbn -[be64_bytes]. split.
    { apply list_lookup_insert_eq. rewrite !length_insert. exact Hlt. }
    cbn -[be64_bytes]. split_and!; auto.
    rewrite store_swap_ll, Htake, <- app_assoc. do 2 f_equal.
    destruct n1 as [|[|n1]]; reflexivity.
Qed.

(** ** The response against the plain maximum *)

Lemma list_max_negative z l :
  Forall (fun v => v < 0) (z :: l) -> list_max z l < 0.
Proof.
  revert z. induction l as [|z' l IH]; intros z H.
  - apply Forall_cons in H as [Hz _]. exact Hz.
  - apply Forall_cons in H as [Hz H]. cbn [list_max].
    specialize (IH z' H). lia.
Qed.

Lemma list_max_ge z l v : In v (z :: l) -> v <= list_max z l.
Proof.
  revert z. induction l as [|z' l IH]; intros z [->|Hin]; cbn [list_max].
  - lia.
  - destruct Hin.
  - lia.
  - specialize (IH z' Hin). lia.
Qed.

(** When some proposal is not negative the response is the maximum of the
    proposals. *)
Lemma response_is_max_when_nonnegative e t1 ts s i t v :
  Forall2 (fun c v => sends c TIMESTAMP v) (connections e) (t1 :: ts) ->
  Forall is_ll (t1 :: ts) ->
  Z.of_nat (length (t1 :: ts)) = configured_federates ->
  In v (t1 :: ts) -> 0 <= v ->
  reachable e s ->
  threads s !! i = Some t ->
  responded (pc t) = true ->
  response_value t = list_max t1 ts.
Proof.
  intros Hs Hr Hlen Hin Hv Hreach Hi Hresp.
  destruct (response_max0 e (t1 :: ts) s i t Hs Hr Hlen Hreach Hi Hresp)
    as (_ & -> & _).
  rewrite max0_list_max. pose proof (list_max_ge t1 ts v Hin). lia.
Qed.

(** C1: what the code answers when every federate proposes a negative
    instant.  Each federate sends a complete proposal with the tag
    [TIMESTAMP]; the integer written back is 0, which is above the maximum
    of the proposals, and on a connection whose writes are complete the
    bytes sent are the tag and eight zero bytes. *)
Theorem negative_proposals_answered_with_zero e t1 ts s i t :
  Forall2 (fun c v => sends c TIMESTAMP v) (connections e) (t1 :: ts) ->
  Forall is_ll (t1 :: ts) ->
  Z.of_nat (length (t1 :: ts)) = configured_federates ->
  Forall (fun v => v < 0) (t1 :: ts) ->
  reachable e s ->
  threads s !! i = Some t ->
  responded (pc t) = true ->
  response_value t = 0 /\
  list_max t1 ts < response_value t /\
  (forall c, connections e !! i = Some c -> wr_oracle (c_sock c) = [] ->
             sent (sock t) = sent (c_sock c) ++ TIMESTAMP :: be64_bytes 0).
Proof.
  intros Hs Hr Hlen Hneg Hreach Hi Hresp.
  destruct (response_max0 e (t1 :: ts) s i t Hs Hr Hlen Hreach Hi Hresp)
    as (_ & _ & _ & Hz & Hsent).
  rewrite (Hz Hneg). split_and!; [reflexivity| |].
  - now apply list_max_negative.
  - intros c Hc Ho. rewrite (Hsent c Hc Ho).
    now rewrite (max0_all_negative _ Hneg).
Qed.

(** * Further properties of the code *)

(** ** The read loop on any connection *)

Lemma read_events_bound evs count :
  let '(more, data, _) := read_events evs count in
  (more = -1 /\ data = []) \/
  (more = Z.of_nat (length data) /\ (length data <= count)%nat).
Proof.
  induction evs as [|ev evs IH]; cbn [read_events].
  - right. cbn. split; [reflexivity|lia].
  - destruct ev as [bs|]; [|left; auto].
    destruct bs as [|b bs]; [exact IH|].
    destruct (Nat.leb_spec (length (b :: bs)) count) as [Hle|Hgt].
    + right. auto.
    + right. rewrite length_take. split; [f_equal|]; lia.
Qed.

Lemma read_bound s count more data s' :
  read s count = (more, data, s') ->
  (more = -1 /\ data = []) \/
  (more = Z.of_nat (length data) /\ (length data <= count)%nat).
Proof.
  unfold read. destruct (usable s).
  - pose proof (read_events_bound (incoming s) count) as H.
    destruct (read_events (incoming s) count) as [[m d] evs].
    intros [= <- <- _]. exact H.
  - intros [= <- <- _]. left. auto.
Qed.

Lemma read_loop_outcome_from fuel sk buf n :
  0 <= n <= 9 ->
  (Z.to_nat (9 - n) <= fuel)%nat ->
  match read_loop fuel sk buf n with
  | RecvFatal _ => True
  | RecvEof _ _ m => n <= m < 9
  | RecvDone _ _ m => m = 9
  | RecvOutOfFuel => False
  end.
Proof.
  revert sk buf n. induction fuel as [|fuel IH]; intros sk buf n Hn Hf;
    cbn [read_loop]; destruct (Z.ltb_spec n 9) as [Hlt|Hge]; try lia.
  destruct (read sk (Z.to_nat (8 + 1 - n))) as [[more data] sk1] eqn:Hr.
  apply read_bound in Hr.
  destruct (Z.ltb_spec more 0) as [_|Hpos]; [exact I|].
  destruct (Z.eqb_spec more 0) as [_|Hnz]; [lia|].
  destruct Hr as [[? _]|[Hmore Hlen]]; [lia|].
  rewrite wrap32_id by (unfold is_int, INT_MAX; lia).
  specialize (IH sk1 (store_at buf (Z.to_nat n) data) (n + more)
                ltac:(lia) ltac:(lia)).
  destruct (read_loop fuel sk1 _ (n + more)); try exact IH. lia.
Qed.


(** ** The shared variables in every state of a run *)

Lemma aggregate_attained (l : list thread) :
  aggregate l = 0 \/
  exists i t, l !! i = Some t /\ accepted (pc t) = true /\ timestamp t = aggregate l.
Proof.
  induction l as [|t0 l IH]; [left; reflexivity|].
  cbn [aggregate].
  assert (Hlift : (exists i t, l !! i = Some t /\ accepted (pc t) = true /\
                               timestamp t = aggregate l) ->
                  exists i t, (t0 :: l) !! i = Some t /\ accepted (pc t) = true /\
                              timestamp t = aggregate l).
  { intros (i & t & Hi & Ha & Ht). exists (S i), t. auto. }
  destruct (accepted (pc t0)) eqn:Ea.
  - destruct (Z.max_spec (timestamp t0) (aggregate l)) as [[_ ->]|[_ ->]].
    + destruct IH as [IH|IH]; [left; exact IH|right; apply Hlift, IH].
    + right. exists 0%nat, t0. auto.
  - destruct IH as [IH|IH]; [left; exact IH|right; apply Hlift, IH].
Qed.

(** X2: mutual exclusion.  In every state of a run at most one thread is
    between [pthread_mutex_lock] (line 140) and [pthread_mutex_unlock]
    (line 156), a thread suspended in [pthread_cond_wait] not counting,
    and that thread is the owner of the mutex. *)
Theorem mutual_exclusion e s i j ti tj :
  reachable e s ->
  threads s !! i = Some ti -> threads s !! j = Some tj ->
  holds_mutex (pc ti) = true -> holds_mutex (pc tj) = true ->
  i = j /\ mutex s = Some i.
Proof.
  intros Hreach Hi Hj Hhi Hhj.
  pose proof (reachable_inv e s Hreach) as HI.
  apply (inv_holder _ _ HI i ti Hi) in Hhi.
  apply (inv_holder _ _ HI j tj Hj) in Hhj.
  split; [congruence|exact Hhi].
Qed.

(** X3: [num_feds_proposed_start] is, in every state of a run, the number
    of threads that have executed line 141; it stays between 0 and the
    number of federates (the increment never overflows), and no more
    threads than federates are ever created. *)
Theorem counter_counts_arrivals e s :
  reachable e s ->
  num_feds_proposed_start s = Z.of_nat (count_threads counted (threads s)) /\
  0 <= num_feds_proposed_start s <= configured_federates /\
  Z.of_nat (length (threads s)) <= configured_federates.
Proof.
  intros Hreach. pose proof (reachable_inv e s Hreach) as HI.
  split_and!.
  - apply (inv_count _ _ HI).
  - apply (inv_count_le e s HI).
  - apply (inv_count_le e s HI).
  - apply (inv_len _ _ HI).
Qed.

(** X4: [max_start_time] is a running maximum.  In every state of a run
    it is at least the instant of every thread that has executed lines
    142-144, and it is either 0, its initial value, or the instant of one
    of those threads. *)
Theorem max_start_time_is_running_max e s :
  reachable e s ->
  (forall i t, threads s !! i = Some t -> accepted (pc t) = true ->
               timestamp t <= max_start_time s) /\
  (max_start_time s = 0 \/
   exists i t, threads s !! i = Some t /\ accepted (pc t) = true /\
               timestamp t = max_start_time s).
Proof.
  intros Hreach. pose proof (reachable_inv e s Hreach) as HI.
  rewrite (inv_max _ _ HI). split.
  - intros i t. apply aggregate_ge.
  - apply aggregate_attained.
Qed.

(** ** A federate that disconnects early *)

Lemma write_keeps s src :
  fd (snd (write s src)) = fd s /\ is_open (snd (write s src)) = is_open s.
Proof.
  unfold write. destruct (usable s); [|auto].
  destruct (wr_oracle s) as [|[n|] o]; cbn; auto.
Qed.

Lemma unreleased_sent_nothing e s i t c :
  reachable e s -> threads s !! i = Some t -> connections e !! i = Some c ->
  released (pc t) = false ->
  sent (sock t) = sent (c_sock c).
Proof.
  intros Hreach Hi Hc Hr.
  pose proof (reachable_inv e s Hreach) as HI.
  pose proof (reachable_transmitted e s i t c Hreach Hi Hc) as Ht.
  destruct (inv_conn _ _ HI i t Hi) as (c' & Hc' & Hs).
  assert (c' = c) as -> by congruence.
  unfold transmitted, serves in *. cbn zeta in Ht.
  destruct (pc t); try done; try (destruct Ht as (_ & _ & -> & _); reflexivity).
  destruct Hs as [-> _]. reflexivity.
Qed.

(** X5: an early disconnect stalls the barrier for good.  Once a thread
    has returned at line 122 (its federate closed the connection before
    nine bytes), in every continuation of the run the counter stays below
    the number of federates, no thread gets past the barrier, and nothing
    is ever written to any federate. *)
Theorem early_disconnect_stalls_barrier e s i t sched s' :
  reachable e s ->
  threads s !! i = Some t -> pc t = L122_returned ->
  run sched s = Some s' ->
  num_feds_proposed_start s' < configured_federates /\
  forall j tj, threads s' !! j = Some tj ->
    released (pc tj) = false /\
    forall c, connections e !! j = Some c -> sent (sock tj) = sent (c_sock c).
Proof.
  intros Hreach Hi Hpc Hrun.
  pose proof (reachable_run e sched s s' Hreach Hrun) as Hreach'.
  pose proof (reachable_inv e s' Hreach') as HI'.
  assert (Hi' : threads s' !! i = Some t).
  { eapply returned_forever_run; eauto. now rewrite Hpc. }
  assert (Hnone : forall j tj, threads s' !! j = Some tj -> released (pc tj) = false).
  { intros j tj Hj. destruct (released (pc tj)) eqn:Hr; [|reflexivity].
    destruct (inv_released _ _ HI' j tj Hj Hr) as [_ Hall].
    specialize (Hall i t Hi'). rewrite Hpc in Hall. done. }
  split.
  - rewrite (inv_count _ _ HI').
    pose proof (count_threads_lt counted (threads s') i t Hi'
                  ltac:(now rewrite Hpc)).
    pose proof (inv_len _ _ HI'). lia.
  - intros j tj Hj. split; [eauto|].
    intros c Hc. eapply unreleased_sent_nothing; eauto.
Qed.

(** ** The main thread *)

Lemma federate_frame i t s s' :
  federate i t s = Some s' ->
  main_pc s' = main_pc s /\ sys s' = sys s /\
  (exited s' = exited s \/ exists msg, exited s' = Some (Fatal msg)).
Proof.
  unfold federate, federate_receive, error. intros Hex.
  repeat case_match; simplify_eq; cbn; eauto.
Qed.

Lemma exec_length a s s' :
  exec a s = Some s' -> (length (threads s) <= length (threads s'))%nat.
Proof.
  intros Hex. destruct (exec_shape a s s' Hex) as (_ & _ & Hbw).
  destruct (length (threads s)) as [|n] eqn:En; [lia|].
  destruct (lookup_lt_is_Some_2 (threads s) n ltac:(lia)) as [tn Hn].
  destruct (Hbw n tn Hn) as (tn' & Hn' & _).
  apply lookup_lt_Some in Hn'. lia.
Qed.

Lemma returned_stay a s s' k t' :
  exec a s = Some s' ->
  threads s' !! k = Some t' ->
  (forall t, threads s !! k = Some t -> returned (pc t) = true) ->
  (k < length (threads s))%nat ->
  returned (pc t') = true.
Proof.
  intros Hex Hk Hret Hlt.
  destruct (lookup_lt_is_Some_2 (threads s) k Hlt) as [t Hk0].
  pose proof (returned_forever a s s' k t Hex Hk0 (Hret t Hk0)) as Hk'.
  assert (t' = t) as -> by congruence. eauto.
Qed.

Lemma joining_step e a s s' :
  Inv e s -> joining s -> exited s = None -> exec a s = Some s' -> joining s'.
Proof.
  intros HI Hj Hexit Hex.
  pose proof (exec_inv e a s s' HI Hex) as HI'.
  pose proof (exec_length a s s' Hex) as Hlen.
  pose proof (inv_len _ _ HI') as Hlen'.
  assert (Hthread : main_pc s' = main_pc s ->
            (exited s' = exited s \/ exists msg, exited s' = Some (Fatal msg)) ->
            joining s').
  { intros Hmp Hexit'. unfold joining in *. rewrite Hmp.
    destruct (main_pc s) as [| |i|i|].
    - destruct Hexit' as [->|(msg & ->)]; [rewrite Hexit|]; done.
    - destruct Hexit' as [->|(msg & ->)]; [rewrite Hexit|]; done.
    - destruct Hexit' as [->|(msg & ->)]; [rewrite Hexit|]; done.
    - destruct Hj as (_ & Hi & HN & Hret). split_and!; [|lia..|].
      { destruct Hexit' as [->|(msg & ->)]; [rewrite Hexit|]; done. }
      intros k t' Hlt Hk. eapply (returned_stay a s s' k t' Hex Hk); [|lia].
      intros t Hk0. eauto.
    - destruct Hj as (HN & Hret). split; [lia|].
      intros k t' Hk. eapply (returned_stay a s s' k t' Hex Hk); [eauto|].
      apply lookup_lt_Some in Hk. lia. }
  unfold exec in Hex. rewrite Hexit in Hex.
  destruct a as [|i|i].
  - (* the main thread *)
    clear Hthread. unfold main, connect_to_federates in Hex.
    pose proof (inv_main _ _ HI) as Hmain.
    pose proof (inv_started _ _ HI) as Hst.
    pose proof (inv_len _ _ HI) as Hlen0.
    unfold joining in *.
    destruct (main_pc s) as [| |i|i|] eqn:Hmp.
    + destruct (create_server _ _) as [k|] eqn:Hcs; injection Hex as <-; cbn.
      * rewrite Hmp. unfold create_server, error in Hcs.
        repeat case_match; simplify_eq; done.
      * now rewrite Hexit.
    + injection Hex as <-. cbn. now rewrite Hexit.
    + specialize (Hst eq_refl).
      destruct (Z.ltb_spec i (number_of_federates s)).
      * destruct (connections (sys s) !! length (threads s)); [|done].
        destruct (pointer_lt_0 _); injection Hex as <-; cbn.
        -- rewrite Hmp. done.
        -- now rewrite Hexit.
      * injection Hex as <-. cbn. split_and!; [now rewrite Hexit|lia..|].
        intros k t Hk. lia.
    + specialize (Hst eq_refl). destruct Hj as (_ & Hi & HN & Hret).
      destruct (Z.ltb_spec i (number_of_federates s)).
      * destruct (threads s !! Z.to_nat i) as [ti|] eqn:Hti; [|done].
        destruct (returned (pc ti)) eqn:Hr; [|done]. injection Hex as <-. cbn.
        rewrite wrap32_id by (unfold is_int, INT_MAX in *; lia).
        split_and!; [now rewrite Hexit|lia..|].
        intros k t Hk Hkt.
        destruct (decide (Z.of_nat k < i)) as [?|?]; [eauto|].
        assert (k = Z.to_nat i) as -> by lia. congruence.
      * injection Hex as <-. cbn. split; [exact HN|].
        intros k t Hk. apply (Hret k t); [|exact Hk].
        apply lookup_lt_Some in Hk. lia.
    + injection Hex as <-. cbn. rewrite Hmp. exact Hj.
  - destruct (threads s !! i) as [t|] eqn:Hi; [|done].
    destruct (federate_frame i t s s' Hex) as (Hmp & _ & Hexit').
    auto.
  - destruct (threads s !! i) as [t|] eqn:Hi; [|done].
    destruct (pc t); try done. injection Hex as <-.
    apply Hthread; cbn; auto.
Qed.

Lemma reachable_joining e s : reachable e s -> joining s.
Proof.
  intros [sched Hrun].
  assert (Hgen : forall s0, Inv e s0 -> joining s0 -> run sched s0 = Some s ->
                            joining s).
  { clear Hrun. induction sched as [|a sched IH]; intros s0 HI Hj Hrun; cbn in Hrun.
    - now injection Hrun as <-.
    - destruct (exec a s0) as [s1|] eqn:Hex; [|done].
      assert (exited s0 = None) as Hexit.
      { unfold exec in Hex. destruct (exited s0); done. }
      eapply (IH s1); eauto using exec_inv, joining_step. }
  apply (Hgen (init e)); [apply init_inv| |exact Hrun].
  unfold joining. cbn. done.
Qed.

Lemma threads_within_connections e s :
  Inv e s -> (length (threads s) <= length (connections e))%nat.
Proof.
  intros HI. destruct (length (threads s)) as [|n] eqn:En; [lia|].
  destruct (lookup_lt_is_Some_2 (threads s) n ltac:(lia)) as [tn Hn].
  destruct (inv_conn _ _ HI n tn Hn) as (c & Hc & _).
  apply lookup_lt_Some in Hc. lia.
Qed.

(** X6: [main] ends the process normally (line 227) only after it has
    created one thread per federate and joined them all: every thread has
    returned, and either all of them have answered their federate (line
    177) or all of them have returned at line 122 without a proposal. *)
Theorem normal_exit_after_all_returned e s :
  reachable e s ->
  exited s = Some Normal ->
  Z.of_nat (length (threads s)) = configured_federates /\
  (forall k t, threads s !! k = Some t -> returned (pc t) = true) /\
  ((forall k t, threads s !! k = Some t -> pc t = L177_returned) \/
   (forall k t, threads s !! k = Some t -> pc t = L122_returned)).
Proof.
  intros Hreach Hexit.
  pose proof (reachable_inv e s Hreach) as HI.
  pose proof (reachable_joining e s Hreach) as Hj. unfold joining in Hj.
  assert (Hall : Z.of_nat (length (threads s)) = configured_federates /\
                 forall k t, threads s !! k = Some t -> returned (pc t) = true).
  { destruct (main_pc s); try done. destruct Hj as [Hj _]. done. }
  destruct Hall as [HN Hret]. split_and!; [exact HN|exact Hret|].
  destruct (lookup_lt_is_Some_2 (threads s) 0 ltac:(lia)) as [t0 H0].
  pose proof (Hret 0%nat t0 H0) as Hr0.
  destruct (pc t0) eqn:Hpc0; try done.
  - right. intros k t Hk. pose proof (Hret k t Hk) as Hr.
    destruct (pc t) eqn:Hpc; try done.
    destruct (inv_released _ _ HI k t Hk ltac:(now rewrite Hpc)) as [_ Hacc].
    specialize (Hacc 0%nat t0 H0). rewrite Hpc0 in Hacc. done.
  - left. intros k t Hk. pose proof (Hret k t Hk) as Hr.
    destruct (inv_released _ _ HI 0%nat t0 H0 ltac:(now rewrite Hpc0)) as [_ Hacc].
    specialize (Hacc k t Hk). destruct (pc t); done.
Qed.

(** X7: with fewer connections than federates the accept loop of
    [connect_to_federates] never ends: in every state of the run [main]
    is still before its join loop, the process has not ended normally, and
    no thread has got past the barrier. *)
Theorem missing_federate_blocks_accept e s :
  Z.of_nat (length (connections e)) < configured_federates ->
  reachable e s ->
  match main_pc s with M220 _ | M224 => False | _ => True end /\
  exited s <> Some Normal /\
  forall j tj, threads s !! j = Some tj -> released (pc tj) = false.
Proof.
  intros Hfew Hreach.
  pose proof (reachable_inv e s Hreach) as HI.
  pose proof (reachable_joining e s Hreach) as Hj. unfold joining in Hj.
  pose proof (threads_within_connections e s HI) as Hlen.
  split_and!.
  - destruct (main_pc s); try exact I; lia.
  - destruct (main_pc s); try exact Hj; lia.
  - intros j tj Hjt. destruct (released (pc tj)) eqn:Hr; [|reflexivity].
    destruct (inv_released _ _ HI j tj Hjt Hr) as [Hn _].
    destruct (inv_full e s HI ltac:(lia)) as (HN & _). lia.
Qed.

(** X8: when [socket] or [bind] fails in [create_server] the process ends
    at once with the diagnostic of that call: the only states of the run
    are the initial one and the one where the process has exited, so no
    connection is accepted and no thread is created. *)
Theorem create_server_failure_accepts_nothing e s :
  socket_ret e < 0 \/ bind_ret e <> 0 ->
  reachable e s ->
  s = init e \/
  s = exit (Fatal (if socket_ret e <? 0 then "ERROR on creating RTI socket"
                   else "ERROR on binding RTI socket")) (init e).
Proof.
  intros Hfail [sched Hrun].
  set (dead := exit (Fatal (if socket_ret e <? 0 then "ERROR on creating RTI socket"
                            else "ERROR on binding RTI socket")) (init e)).
  assert (Hgen : forall s0, s0 = init e \/ s0 = dead -> run sched s0 = Some s ->
                            s = init e \/ s = dead).
  { clear Hrun. induction sched as [|a sched IH]; intros s0 H0 Hrun; cbn in Hrun.
    - now injection Hrun as <-.
    - destruct (exec a s0) as [s1|] eqn:Hex; [|done].
      apply (IH s1); [|exact Hrun]. right.
      destruct H0 as [->| ->]; [|done].
      destruct a as [|i|i]; [|done|done].
      unfold exec, main, create_server, error in Hex. cbn in Hex.
      subst dead.
      destruct (Z.ltb_spec (socket_ret e) 0); [now injection Hex as <-|].
      destruct (Z.eqb_spec (bind_ret e) 0); cbn in Hex; [|now injection Hex as <-].
      destruct Hfail; [lia|done]. }
  apply (Hgen (init e)); auto.
Qed.

(** X9: a thread only ever uses the descriptor that [accept] returned for
    it, and the connection is closed exactly when the thread has returned
    at line 177, after both writes: until then it is as open as it was
    accepted. *)
Theorem connection_closed_only_after_answer e s i t c :
  reachable e s ->
  threads s !! i = Some t -> connections e !! i = Some c ->
  fd (sock t) = fd (c_sock c) /\
  is_open (sock t) = match pc t with
                     | L177_returned => false
                     | _ => is_open (c_sock c)
                     end.
Proof.
  intros Hreach Hi Hc.
  pose proof (reachable_inv e s Hreach) as HI.
  pose proof (reachable_transmitted e s i t c Hreach Hi Hc) as Ht.
  destruct (inv_conn _ _ HI i t Hi) as (c' & Hc' & Hs).
  assert (c' = c) as -> by congruence.
  unfold transmitted, serves in *. cbn zeta in Ht.
  pose proof (write_keeps (c_sock c) [TIMESTAMP]) as [Hf1 Ho1].
  pose proof (write_keeps (snd (write (c_sock c) [TIMESTAMP]))
                (store_ll (message t))) as [Hf2 Ho2].
  destruct (pc t);
    [destruct Hs as [-> _]; auto
    |destruct Ht as (Hfd & _ & _ & Hopen); rewrite Hfd, Hopen; cbn;
     split; congruence..].
Qed.

Lemma exec_exited a s s' :
  exec a s = Some s' ->
  exited s' = None \/ exited s' = Some Normal \/
  exists msg,
    exited s' = Some (Fatal msg) /\
    In msg ["ERROR on creating RTI socket"; "ERROR on binding RTI socket";
            "ERROR on RTI reading from socket";
            "ERROR sending message ID to federate";
            "ERROR sending start time to federate"]%string.
Proof.
  unfold exec, main, connect_to_federates, create_server, federate,
    federate_receive, error.
  rewrite pointer_never_negative. intros Hex.
  repeat case_match; simplify_eq; cbn; auto;
    right; right; eexists; (split; [reflexivity|]); cbn; auto 10.
Qed.

(** X10: [error] is only ever called with one of five diagnostics, those
    of [socket], [bind], [read] and the two [write] calls: whenever a run
    has ended in a call of [error], its message is one of the five.  The
    call of line 198, with the diagnostic of a failing [accept], is never
    made on any run.  An end of the process without a call of [error] (a
    signal such as SIGPIPE) is not a state with [exited s = Some (Fatal
    msg)] and is not covered. *)
Theorem fatal_diagnostics e s msg :
  reachable e s ->
  exited s = Some (Fatal msg) ->
  In msg ["ERROR on creating RTI socket"; "ERROR on binding RTI socket";
          "ERROR on RTI reading from socket";
          "ERROR sending message ID to federate";
          "ERROR sending start time to federate"]%string /\
  msg <> "ERROR on server accept"%string.
Proof.
  intros [sched Hrun] Hexit.
  assert (Hin : In msg ["ERROR on creating RTI socket"; "ERROR on binding RTI socket";
                        "ERROR on RTI reading from socket";
                        "ERROR sending message ID to federate";
                        "ERROR sending start time to federate"]%string).
  { destruct sched as [|a sched0 _] using rev_ind.
    - cbn in Hrun. injection Hrun as <-. cbn in Hexit. done.
    - rewrite run_app in Hrun.
      destruct (run sched0 (init e)) as [s0|]; [|done]. cbn in Hrun.
      destruct (exec a s0) as [s1|] eqn:Hex; [|done]. injection Hrun as ->.
      destruct (exec_exited a s0 s Hex) as [H|[H|(m & H & Hm)]]; congruence. }
  split; [exact Hin|].
  intros ->. cbn in Hin. intuition discriminate.
Qed.

Lemma exec_stderr a s s' :
  exec a s = Some s' ->
  stderr s' = stderr s \/
  exists i t sk buf n,
    threads s !! i = Some t /\ pc t = L110 /\
    read_loop read_fuel (sock t) (buffer t) 0 = RecvDone sk buf n /\
    buffer_tag buf <> TIMESTAMP /\
    stderr s' = stderr s ++ [Expected_TIMESTAMP (buffer_tag buf)].
Proof.
  unfold exec. destruct (exited s); [done|].
  destruct a as [|i|i].
  - unfold main, connect_to_federates. intros Hex.
    repeat case_match; simplify_eq; cbn; auto.
  - destruct (threads s !! i) as [t|] eqn:Hi; [|done].
    unfold federate. destruct (pc t) eqn:Hpc;
      try (intros Hex; repeat case_match; simplify_eq; cbn; auto; fail).
    unfold federate_receive.
    destruct (read_loop read_fuel (sock t) (buffer t) 0) as [|sk buf n|sk buf n|]
      eqn:Hrd; intros Hex; simplify_eq; cbn; auto.
    destruct (Byte.eqb (buffer_tag buf) TIMESTAMP) eqn:Heq.
    + left. apply app_nil_r.
    + right. exists i, t, sk, buf, n. split_and!; auto.
      intros Htag. rewrite Htag in Heq.
      assert (Byte.eqb TIMESTAMP TIMESTAMP = true) by now apply Byte.byte_dec_lb.
      congruence.
  - intros Hex. repeat case_match; simplify_eq; cbn; auto.
Qed.

Lemma stderr_origin e s :
  reachable e s ->
  Forall (fun d =>
            match d with
            | Expected_TIMESTAMP got =>
                got <> TIMESTAMP /\
                exists i c sk buf n,
                  connections e !! i = Some c /\
                  read_loop read_fuel (c_sock c) (c_stack c) 0 = RecvDone sk buf n /\
                  buffer_tag buf = got
            end) (stderr s).
Proof.
  intros [sched Hrun].
  revert s Hrun. induction sched as [|a sched IH] using rev_ind; intros s Hrun.
  - cbn in Hrun. injection Hrun as <-. cbn. constructor.
  - rewrite run_app in Hrun.
    destruct (run sched (init e)) as [s0|] eqn:H0; [|done]. cbn in Hrun.
    destruct (exec a s0) as [s1|] eqn:Hex; [|done]. injection Hrun as ->.
    specialize (IH s0 eq_refl).
    pose proof (run_inv e sched (init e) s0 (init_inv e) H0) as HI.
    destruct (exec_stderr a s0 s Hex)
      as [->|(i & t & sk & buf & n & Hi & Hpc & Hrd & Hne & ->)]; [exact IH|].
    apply Forall_app. split; [exact IH|].
    constructor; [|constructor]. split; [exact Hne|].
    destruct (inv_conn _ _ HI i t Hi) as (c & Hc & Hs).
    unfold serves in Hs. rewrite Hpc in Hs. destruct Hs as [Hsk Hbuf].
    exists i, c, sk, buf, n. rewrite <- Hsk, <- Hbuf. auto.
Qed.

(** X11: every warning of line 134 reports the first byte of a complete
    message that one of the federates sent, and that byte is not
    [TIMESTAMP]; when every federate sends the tag [TIMESTAMP] the warning
    of line 134 is never printed.  The field [stderr] holds the warnings
    of line 134 only; what [error] prints is kept in [exited]. *)
Theorem warnings_report_received_tags e s :
  reachable e s ->
  Forall (fun d =>
            match d with
            | Expected_TIMESTAMP got =>
                got <> TIMESTAMP /\
                exists i c sk buf n,
                  connections e !! i = Some c /\
                  read_loop read_fuel (c_sock c) (c_stack c) 0 = RecvDone sk buf n /\
                  buffer_tag buf = got
            end) (stderr s) /\
  ((forall i c, connections e !! i = Some c -> exists v, sends c TIMESTAMP v) ->
   stderr s = []).
Proof.
  intros Hreach. pose proof (stderr_origin e s Hreach) as Hall.
  split; [exact Hall|]. intros Hgood.
  destruct (stderr s) as [|[got] l]; [reflexivity|].
  apply Forall_cons in Hall as [(Hne & i & c & sk & buf & n & Hc & Hrd & Htag) _].
  destruct (Hgood i c Hc) as [v Hv].
  destruct (receive_sends c TIMESTAMP v Hv) as (sk' & buf' & Hrd' & Htag' & _).
  congruence.
Qed.

(** X12: a spurious wakeup is harmless.  A thread suspended in
    [pthread_cond_wait] that wakes while the counter is below the number
    of federates takes the mutex, tests the condition of line 151 again
    and suspends itself again: the state is the one before the wakeup. *)
Theorem spurious_wakeup_is_harmless s i t :
  exited s = None -> mutex s = None ->
  threads s !! i = Some t -> pc t = L153_blocked ->
  num_feds_proposed_start s < number_of_federates s ->
  run [Wakeup i; Thread i; Thread i] s = Some s.
Proof.
  intros Hexit Hmutex Hi Hpc Hlt.
  assert (Hlen : (i < length (threads s))%nat) by (eapply lookup_lt_Some; eauto).
  apply Z.ltb_lt in Hlt.
  destruct s as [e nf mx num mu fsd ths mpc err ex]. cbn in *. subst mu ex.
  destruct t as [l sk buf ts msg]. cbn in Hpc. subst l.
  set (t0 := mkThread L153_blocked sk buf ts msg) in *.
  set (s0 := mkState e nf mx num None fsd ths mpc err None).
  set (s1 := set_thread i (at_loc L153_woken t0) s0).
  set (s2 := set_mutex (Some i) (set_thread i (at_loc L151 t0) s1)).
  assert (H1 : exec (Wakeup i) s0 = Some s1).
  { unfold exec. simpl. now rewrite Hi. }
  assert (H2 : exec (Thread i) s1 = Some s2).
  { unfold exec. simpl. now rewrite list_lookup_insert_eq by done. }
  assert (H3 : exec (Thread i) s2 = Some s0).
  { unfold exec. simpl.
    rewrite list_lookup_insert_eq by (now rewrite length_insert).
    unfold federate. simpl. rewrite Hlt.
    unfold set_mutex, set_thread, at_loc, s0. simpl.
    rewrite !list_insert_insert_eq.
    now rewrite list_insert_id by exact Hi. }
  cbn [run]. now rewrite H1, H2, H3.
Qed.

(** X13: the instant travels through the response unchanged.  The eight
    bytes that line 170 writes for a value [v] of [max_start_time], put
    behind a tag byte, are decoded by line 137 to [v] again, whatever the
    byte order of the host. *)
Theorem response_decodes_to_itself tag v :
  is_ll v ->
  decode_timestamp (tag :: store_ll (swap_bytes_if_little_endian_ll v)) = v.
Proof.
  intros Hv. unfold decode_timestamp, buffer_payload.
  change (drop 1 (tag :: ?l)) with l.
  rewrite store_swap_ll.
  rewrite take_ge by (rewrite be64_bytes_length; lia).
  rewrite swap_load_ll by apply be64_bytes_length.
  now apply be64_value_bytes.
Qed.

(** ** The run can always be completed *)

Lemma workload_insert (l : list thread) i t t' :
  l !! i = Some t ->
  (workload (<[i:=t']> l) + effort (pc t) = workload l + effort (pc t'))%nat.
Proof.
  revert i. induction l as [|t0 l IH]; intros i Hi; [done|].
  destruct i as [|i]; simpl in Hi |- *.
  - injection Hi as ->. lia.
  - specialize (IH i Hi). lia.
Qed.

Lemma workload_pos (l : list thread) :
  (0 < workload l)%nat -> exists j tj, l !! j = Some tj /\ (0 < effort (pc tj))%nat.
Proof.
  induction l as [|t l IH]; cbn [workload]; [lia|]. intros Hp.
  destruct (decide (0 < effort (pc t))%nat) as [Hr|Hr].
  - exists 0%nat, t. auto.
  - destruct IH as (j & tj & Hj & Hrj); [lia|]. exists (S j), tj. auto.
Qed.

Lemma workload_zero (l : list thread) i t :
  workload l = 0%nat -> l !! i = Some t -> effort (pc t) = 0%nat.
Proof.
  revert i. induction l as [|t0 l IH]; intros i Hp Hi; [done|].
  cbn [workload] in Hp. destruct i as [|i]; simpl in Hi.
  - injection Hi as ->. lia.
  - eapply IH; eauto. lia.
Qed.

Lemma count_threads_find p (l : list thread) :
  (count_threads p l < length l)%nat ->
  exists i t, l !! i = Some t /\ p (pc t) = false.
Proof.
  induction l as [|t l IH]; cbn [count_threads length]; [lia|]. intros Hlt.
  destruct (p (pc t)) eqn:Hp.
  - destruct IH as (i & ti & Hi & Hpi); [lia|]. exists (S i), ti. auto.
  - exists 0%nat, t. auto.
Qed.

Lemma reliable_same_peer sk sk' : same_peer sk sk' -> reliable sk -> reliable sk'.
Proof.
  intros (Hfd & Ho & _ & Hopen) [Hu Hw]. unfold reliable, usable in *.
  now rewrite Hfd, Ho, Hopen.
Qed.

Lemma reliable_write sk src :
  reliable sk ->
  exists w sk', write sk src = (w, sk') /\ (w <? 0) = false /\ reliable sk'.
Proof.
  intros [Hu Hw]. unfold write. rewrite Hu.
  destruct (wr_oracle sk) as [|[n|] o] eqn:Ho.
  - eexists _, _. split_and!; [reflexivity|apply Z.ltb_ge; lia|].
    split; [exact Hu|]. cbn. constructor.
  - apply Forall_cons in Hw as [_ Hw].
    eexists _, _. split_and!; [reflexivity|apply Z.ltb_ge; lia|].
    split; [exact Hu|exact Hw].
  - apply Forall_cons in Hw as [Hw _]. done.
Qed.

Lemma run_trans sched1 sched2 s s1 s2 :
  run sched1 s = Some s1 -> run sched2 s1 = Some s2 ->
  run (sched1 ++ sched2) s = Some s2.
Proof. intros H1 H2. now rewrite run_app, H1. Qed.

Lemma thread_actions_main_pc sched s s' :
  Forall is_thread_action sched -> run sched s = Some s' ->
  main_pc s' = main_pc s.
Proof.
  revert s. induction sched as [|a sched IH]; intros s Hall Hrun; cbn in Hrun.
  - now injection Hrun as <-.
  - apply Forall_cons in Hall as [Ha Hall].
    destruct (exec a s) as [s1|] eqn:Hex; [|done].
    rewrite (IH s1 Hall Hrun).
    destruct a as [|i|i]; try done.
    unfold exec in Hex. destruct (exited s); [done|].
    destruct (threads s !! i) as [t|]; [|done].
    now destruct (federate_frame i t s s1 Hex) as [-> _].
Qed.

Section Completion.

Variable e : env.
Hypothesis socket_ok : 0 <= socket_ret e.
Hypothesis bind_ok : bind_ret e = 0.
Hypothesis enough : configured_federates <= Z.of_nat (length (connections e)).
Hypothesis well_behaved : forall i c,
  connections e !! i = Some c ->
  (exists tag v, sends c tag v) /\ reliable (c_sock c).

(** The accept loop takes the connections still missing. *)
Lemma accept_all k : forall s i,
  Inv e s -> exited s = None -> main_pc s = M192 i ->
  k = Z.to_nat (configured_federates - Z.of_nat (length (threads s))) ->
  exists sched s',
    run sched s = Some s' /\ exited s' = None /\ exists j, main_pc s' = M220 j.
Proof.
  induction k as [|k IH]; intros s i HI Hexit Hmp Hk;
    pose proof (inv_main _ _ HI) as Hmain; rewrite Hmp in Hmain;
    pose proof (inv_started _ _ HI ltac:(now rewrite Hmp)) as Hnf;
    pose proof (inv_len _ _ HI) as Hlen.
  - exists [Main], (set_main (M220 0) s). split_and!; [|exact Hexit|by exists 0].
    cbn. unfold exec, main, connect_to_federates. rewrite Hexit, Hmp, Hnf.
    destruct (Z.ltb_spec i configured_federates); [lia|reflexivity].
  - destruct (lookup_lt_is_Some_2 (connections e) (length (threads s)) ltac:(lia))
      as [c Hc].
    set (s1 := set_main (M192 (wrap32 (i + 1)))
                 (spawn (mkThread L110 (c_sock c) (c_stack c) 0 0) s)).
    assert (Hex : exec Main s = Some s1).
    { unfold exec, main, connect_to_federates.
      rewrite Hexit, Hmp, Hnf, (inv_sys _ _ HI), Hc, pointer_never_negative.
      destruct (Z.ltb_spec i configured_federates); [reflexivity|lia]. }
    destruct (IH s1 (wrap32 (i + 1)) (exec_inv _ _ _ _ HI Hex) Hexit eq_refl)
      as (sched & s' & Hrun & Hexit' & Hj).
    { subst s1. cbn. rewrite length_app. cbn. lia. }
    exists (Main :: sched), s'. split_and!; auto. cbn. now rewrite Hex.
Qed.

Lemma main_reaches_join s :
  Inv e s -> exited s = None ->
  exists sched s',
    run sched s = Some s' /\ exited s' = None /\
    match main_pc s' with M220 _ | M224 => True | _ => False end.
Proof.
  intros HI Hexit.
  assert (Hloop : forall s0 i, Inv e s0 -> exited s0 = None -> main_pc s0 = M192 i ->
            exists sched s',
              run sched s0 = Some s' /\ exited s' = None /\
              match main_pc s' with M220 _ | M224 => True | _ => False end).
  { intros s0 i HI0 Hexit0 Hmp0.
    destruct (accept_all _ s0 i HI0 Hexit0 Hmp0 eq_refl)
      as (sched & s' & Hrun & Hexit' & j & Hj).
    exists sched, s'. rewrite Hj. auto. }
  assert (Hinit : forall s0, Inv e s0 -> exited s0 = None -> main_pc s0 = M211 ->
            exists sched s',
              run sched s0 = Some s' /\ exited s' = None /\
              match main_pc s' with M220 _ | M224 => True | _ => False end).
  { intros s0 HI0 Hexit0 Hmp0.
    set (s1 := set_main (M192 0)
                 (set_globals configured_federates (malloc_ret (sys s0)) s0)).
    assert (Hex : exec Main s0 = Some s1).
    { unfold exec, main. now rewrite Hexit0, Hmp0. }
    destruct (Hloop s1 0 (exec_inv _ _ _ _ HI0 Hex) Hexit0 eq_refl)
      as (sched & s' & Hrun & Hrest).
    exists (Main :: sched), s'. split; [|exact Hrest]. cbn. now rewrite Hex. }
  destruct (main_pc s) as [| |i|i|] eqn:Hmp.
  - set (s1 := set_main M211 s).
    assert (Hex : exec Main s = Some s1).
    { unfold exec, main, create_server.
      rewrite Hexit, Hmp, (inv_sys _ _ HI), bind_ok.
      destruct (Z.ltb_spec (socket_ret e) 0); [lia|reflexivity]. }
    destruct (Hinit s1 (exec_inv _ _ _ _ HI Hex) Hexit eq_refl)
      as (sched & s' & Hrun & Hrest).
    exists (Main :: sched), s'. split; [|exact Hrest]. cbn. now rewrite Hex.
  - now apply Hinit.
  - now apply (Hloop s i).
  - exists [], s. rewrite Hmp. auto.
  - exists [], s. rewrite Hmp. auto.
Qed.

(** While a federate is still to be counted, some thread can run. *)
Lemma counting_progress s :
  Inv e s -> exited s = None ->
  Z.of_nat (length (threads s)) = configured_federates ->
  num_feds_proposed_start s < configured_federates ->
  exists i s',
    exec (Thread i) s = Some s' /\ exited s' = None /\
    (workload (threads s') < workload (threads s))%nat.
Proof.
  intros HI Hexit Hlen Hnum.
  assert (Hstep : forall i t t' s',
            threads s !! i = Some t ->
            federate i t s = Some s' ->
            threads s' = <[i:=t']> (threads s) ->
            (effort (pc t') < effort (pc t))%nat ->
            exited s' = None ->
            exists i s',
              exec (Thread i) s = Some s' /\ exited s' = None /\
              (workload (threads s') < workload (threads s))%nat).
  { intros i t t' s' Hi Hfs Hth Hr He. exists i, s'.
    unfold exec. rewrite Hexit, Hi. split_and!; auto.
    rewrite Hth. pose proof (workload_insert (threads s) i t t' Hi). lia. }
  assert (Hopen : forall k tk, threads s !! k = Some tk -> released (pc tk) = false).
  { intros k tk Hk. destruct (released (pc tk)) eqn:Hr; [|reflexivity].
    destruct (inv_released _ _ HI k tk Hk Hr). lia. }
  destruct (mutex s) as [k|] eqn:Hm.
  - (* the holder of the mutex runs *)
    destruct (inv_owner _ _ HI k Hm) as [tk Hk].
    pose proof (proj2 (inv_holder _ _ HI k tk Hk) Hm) as Hh.
    pose proof (thread_started e s k tk HI Hk) as Hnf.
    pose proof (Hopen k tk Hk) as Hrel.
    destruct (pc tk) eqn:Hpc; try done.
    + eapply (Hstep k tk (at_loc L142 tk)); [exact Hk| | | |].
      * unfold federate. rewrite Hpc. reflexivity.
      * reflexivity.
      * rewrite Hpc. cbn. lia.
      * exact Hexit.
    + eapply (Hstep k tk (at_loc L145 tk)); [exact Hk| | | |].
      * unfold federate. rewrite Hpc. reflexivity.
      * destruct (timestamp tk >? max_start_time s); reflexivity.
      * rewrite Hpc. cbn. lia.
      * destruct (timestamp tk >? max_start_time s); exact Hexit.
    + eapply (Hstep k tk (at_loc L151 tk)); [exact Hk| | | |].
      * unfold federate. rewrite Hpc, Hnf.
        destruct (Z.eqb_spec (num_feds_proposed_start s) configured_federates);
          [lia|reflexivity].
      * reflexivity.
      * rewrite Hpc. cbn. lia.
      * exact Hexit.
    + eapply (Hstep k tk (at_loc L153_blocked tk)); [exact Hk| | | |].
      * unfold federate. rewrite Hpc, Hnf.
        destruct (Z.ltb_spec (num_feds_proposed_start s) configured_federates);
          [reflexivity|lia].
      * reflexivity.
      * rewrite Hpc. cbn. lia.
      * exact Hexit.
  - (* the mutex is free: a thread that is not yet counted runs *)
    destruct (count_threads_find counted (threads s)) as (i & t & Hi & Hc).
    { pose proof (inv_count _ _ HI). lia. }
    destruct (inv_conn _ _ HI i t Hi) as (c & Hic & Hs).
    destruct (well_behaved i c Hic) as [(tag & v & Hsend) _].
    destruct (receive_sends c tag v Hsend) as (sk' & buf' & Hrd & _).
    unfold serves in Hs.
    destruct (pc t) eqn:Hpc; try done.
    + destruct Hs as [Hsk Hbuf].
      eapply (Hstep i t (mkThread L140 sk' buf' (decode_timestamp buf') (message t)));
        [exact Hi| | | |].
      * unfold federate, federate_receive. rewrite Hpc, Hsk, Hbuf, Hrd. reflexivity.
      * reflexivity.
      * rewrite Hpc. cbn. lia.
      * exact Hexit.
    + eapply (Hstep i t (at_loc L141 t)); [exact Hi| | | |].
      * unfold federate. rewrite Hpc, Hm. reflexivity.
      * reflexivity.
      * rewrite Hpc. cbn. lia.
      * exact Hexit.
    + assert (holds_mutex (pc t) = true) as Hh by now rewrite Hpc.
      apply (inv_holder _ _ HI i t Hi) in Hh. congruence.
    + unfold conn_proposal in Hs. rewrite Hrd in Hs. done.
Qed.

Lemma all_counted n : forall s,
  Inv e s -> exited s = None ->
  Z.of_nat (length (threads s)) = configured_federates ->
  workload (threads s) = n ->
  exists sched s',
    run sched s = Some s' /\ Forall is_thread_action sched /\
    exited s' = None /\ num_feds_proposed_start s' = configured_federates.
Proof.
  induction n as [n IH] using lt_wf_ind. intros s HI Hexit Hlen Hn.
  pose proof (inv_count_le e s HI) as Hle.
  destruct (decide (num_feds_proposed_start s = configured_federates)) as [Hfull|Hnot].
  - exists [], s. split_and!; auto.
  - destruct (counting_progress s HI Hexit Hlen ltac:(lia))
      as (i & s1 & Hex & Hexit1 & Hlt).
    pose proof (exec_inv _ _ _ _ HI Hex) as HI1.
    pose proof (exec_length _ _ _ Hex) as Hl.
    pose proof (inv_len _ _ HI1) as Hl1.
    destruct (IH (workload (threads s1)) ltac:(lia) s1 HI1 Hexit1 ltac:(lia) eq_refl)
      as (sched & s' & Hrun & Hall & Hexit' & Hfull).
    exists (Thread i :: sched), s'. split_and!; auto.
    + cbn. now rewrite Hex.
    + constructor; [exact I|exact Hall].
Qed.

(** A thread that has left the barrier can answer and return. *)
Lemma answer_progress s :
  reachable e s -> exited s = None ->
  (forall i t, threads s !! i = Some t -> passed (pc t) = true) ->
  (0 < workload (threads s))%nat ->
  exists i s',
    exec (Thread i) s = Some s' /\ exited s' = None /\
    (forall i t, threads s' !! i = Some t -> passed (pc t) = true) /\
    (workload (threads s') < workload (threads s))%nat.
Proof.
  intros Hreach Hexit Hpassed Hpos.
  pose proof (reachable_inv e s Hreach) as HI.
  assert (Hstep : forall i t t' s',
            threads s !! i = Some t ->
            federate i t s = Some s' ->
            threads s' = <[i:=t']> (threads s) ->
            (effort (pc t') < effort (pc t))%nat ->
            passed (pc t') = true ->
            exited s' = None ->
            exists i s',
              exec (Thread i) s = Some s' /\ exited s' = None /\
              (forall i t, threads s' !! i = Some t -> passed (pc t) = true) /\
              (workload (threads s') < workload (threads s))%nat).
  { intros i t t' s' Hi Hfs Hth Hr Hp He. exists i, s'.
    unfold exec. rewrite Hexit, Hi. split_and!; auto.
    - intros j tj Hj. rewrite Hth in Hj.
      destruct (lookup_update _ _ _ _ _ Hj) as [[_ ->]|[_ Hj0]]; eauto.
    - rewrite Hth. pose proof (workload_insert (threads s) i t t' Hi). lia. }
  destruct (workload_pos _ Hpos) as (j & tj & Hj & Hw).
  pose proof (Hpassed j tj Hj) as Hp.
  destruct (inv_conn _ _ HI j tj Hj) as (c & Hc & _).
  pose proof (reachable_transmitted e s j tj c Hreach Hj Hc) as Ht.
  destruct (well_behaved j c Hc) as [_ Hrel].
  unfold transmitted in Ht. cbn zeta in Ht.
  destruct (pc tj) eqn:Hpc; try done; try (cbn in Hw; lia).
  - (* line 165 *)
    pose proof (reliable_same_peer _ _ Ht Hrel) as Hrel'.
    destruct (reliable_write (sock tj) [TIMESTAMP] Hrel') as (w & sk' & Hwr & Hneg & _).
    eapply (Hstep j tj (mkThread L170 sk' (buffer tj) (timestamp tj) (message tj)));
      [exact Hj| | | | |].
    + unfold federate. rewrite Hpc, Hwr, Hneg. reflexivity.
    + reflexivity.
    + rewrite Hpc. cbn. lia.
    + reflexivity.
    + exact Hexit.
  - (* line 170 *)
    destruct (reliable_write (c_sock c) [TIMESTAMP] Hrel) as (w0 & sk0 & Hwr0 & _ & Hrel0).
    rewrite Hwr0 in Ht. cbn [snd] in Ht.
    pose proof (reliable_same_peer _ _ Ht Hrel0) as Hrel'.
    destruct (reliable_write (sock tj)
                (store_ll (swap_bytes_if_little_endian_ll (max_start_time s))) Hrel')
      as (w & sk' & Hwr & Hneg & _).
    eapply (Hstep j tj (mkThread L175 sk' (buffer tj) (timestamp tj)
                          (swap_bytes_if_little_endian_ll (max_start_time s))));
      [exact Hj| | | | |].
    + unfold federate. rewrite Hpc. cbn zeta. rewrite Hwr, Hneg. reflexivity.
    + reflexivity.
    + rewrite Hpc. cbn. lia.
    + reflexivity.
    + exact Hexit.
  - (* line 175 *)
    eapply (Hstep j tj (mkThread L177_returned (close (sock tj)) (buffer tj)
                          (timestamp tj) (message tj)));
      [exact Hj| | | | |].
    + unfold federate. rewrite Hpc. reflexivity.
    + reflexivity.
    + rewrite Hpc. cbn. lia.
    + reflexivity.
    + exact Hexit.
Qed.

Lemma all_answered n : forall s,
  reachable e s -> exited s = None ->
  (forall i t, threads s !! i = Some t -> passed (pc t) = true) ->
  workload (threads s) = n ->
  exists sched s',
    run sched s = Some s' /\ Forall is_thread_action sched /\
    exited s' = None /\
    forall i t, threads s' !! i = Some t -> pc t = L177_returned.
Proof.
  induction n as [n IH] using lt_wf_ind. intros s Hreach Hexit Hpassed Hn.
  destruct (decide (0 < n)%nat) as [Hpos|Hzero].
  - destruct (answer_progress s Hreach Hexit Hpassed ltac:(lia))
      as (i & s1 & Hex & Hexit1 & Hpassed1 & Hlt).
    assert (Hreach1 : reachable e s1).
    { apply (reachable_run e [Thread i] s s1 Hreach). cbn. now rewrite Hex. }
    destruct (IH (workload (threads s1)) ltac:(lia) s1 Hreach1 Hexit1 Hpassed1 eq_refl)
      as (sched & s' & Hrun & Hall & Hexit' & Hdone).
    exists (Thread i :: sched), s'. split_and!; auto.
    + cbn. now rewrite Hex.
    + constructor; [exact I|exact Hall].
  - exists [], s. split_and!; auto. intros i t Hi.
    pose proof (Hpassed i t Hi) as Hp.
    pose proof (workload_zero (threads s) i t ltac:(lia) Hi) as Hw.
    destruct (pc t); done.
Qed.

(** With every thread returned, [main] joins them all and returns. *)
Lemma join_all k : forall s i,
  Inv e s -> exited s = None -> main_pc s = M220 i -> 0 <= i ->
  Z.of_nat (length (threads s)) = configured_federates ->
  (forall j t, threads s !! j = Some t -> pc t = L177_returned) ->
  k = Z.to_nat (configured_federates - i) ->
  exists sched s',
    run sched s = Some s' /\ exited s' = Some Normal /\ threads s' = threads s.
Proof.
  assert (Hend : forall s, exited s = None -> main_pc s = M224 ->
            exists sched s',
              run sched s = Some s' /\ exited s' = Some Normal /\
              threads s' = threads s).
  { intros s Hexit Hmp. exists [Main], (exit Normal s). split_and!; auto.
    cbn. unfold exec, main. now rewrite Hexit, Hmp. }
  induction k as [|k IH]; intros s i HI Hexit Hmp Hi Hlen Hdone Hk;
    pose proof (inv_started _ _ HI ltac:(now rewrite Hmp)) as Hnf.
  - set (s1 := set_main M224 s).
    assert (Hex : exec Main s = Some s1).
    { unfold exec, main. rewrite Hexit, Hmp, Hnf.
      destruct (Z.ltb_spec i configured_federates); [lia|reflexivity]. }
    destruct (Hend s1 Hexit eq_refl) as (sched & s' & Hrun & Hrest).
    exists (Main :: sched), s'. split; [|exact Hrest]. cbn. now rewrite Hex.
  - destruct (lookup_lt_is_Some_2 (threads s) (Z.to_nat i) ltac:(lia)) as [t Ht].
    set (s1 := set_main (M220 (wrap32 (i + 1))) s).
    assert (Hex : exec Main s = Some s1).
    { unfold exec, main. rewrite Hexit, Hmp, Hnf, Ht, (Hdone _ _ Ht).
      destruct (Z.ltb_spec i configured_federates); [reflexivity|lia]. }
    assert (Hw : wrap32 (i + 1) = i + 1).
    { apply wrap32_id. unfold is_int. unfold INT_MAX in *. lia. }
    destruct (IH s1 (wrap32 (i + 1)) (exec_inv _ _ _ _ HI Hex) Hexit eq_refl)
      as (sched & s' & Hrun & Hrest); try done; try lia.
    exists (Main :: sched), s'. split; [|exact Hrest]. cbn. now rewrite Hex.
Qed.


End Completion.

Lemma list_max_in z l : In (list_max z l) (z :: l).
Proof.
  revert z. induction l as [|z' l IH]; intros z; cbn [list_max]; [now left|].
  destruct (Z.max_spec z (list_max z' l)) as [[_ ->]|[_ ->]].
  - right. apply IH.
  - now left.
Qed.


(** X16: a [read] that fails before the nine bytes of a proposal are in
    ends the whole process, with the diagnostic of line 121: the next
    statement of the thread serving that connection is the fatal exit,
    after it no thread runs any more, and no federate has been answered. *)
Theorem read_error_stops_the_process e s i t c :
  reachable e s -> exited s = None ->
  threads s !! i = Some t -> pc t = L110 ->
  connections e !! i = Some c ->
  usable (c_sock c) = true ->
  stream_fails (incoming (c_sock c)) = true ->
  (length (stream_data (incoming (c_sock c))) < 9)%nat ->
  exec (Thread i) s = Some (exit (Fatal "ERROR on RTI reading from socket") s) /\
  (forall a, exec a (exit (Fatal "ERROR on RTI reading from socket") s) = None) /\
  (forall j tj, threads s !! j = Some tj -> released (pc tj) = false).
Proof.
  intros Hreach Hexit Hi Hpc Hc Hu Hf Hshort.
  pose proof (reachable_inv e s Hreach) as HI.
  destruct (inv_conn _ _ HI i t Hi) as (c' & Hc' & Hs).
  assert (c' = c) as -> by congruence.
  unfold serves in Hs. rewrite Hpc in Hs. destruct Hs as [Hsk Hbuf].
  split_and!.
  - apply (read_failure_is_fatal s i t Hexit Hi Hpc); now rewrite Hsk.
  - intros a. reflexivity.
  - intros j tj Hj. destruct (released (pc tj)) eqn:Hr; [|reflexivity].
    destruct (inv_released _ _ HI j tj Hj Hr) as [_ Hacc].
    specialize (Hacc i t Hi). rewrite Hpc in Hacc. done.
Qed.

Lemma store_at_inside arr off data :
  (off + length data <= length arr)%nat ->
  length (store_at arr off data) = length arr.
Proof.
  intros Hle. unfold store_at.
  rewrite !length_app, length_take, length_drop. lia.
Qed.

Lemma read_loop_inside fuel : forall sk buf n,
  0 <= n <= 9 -> length buf = 9%nat ->
  match read_loop fuel sk buf n with
  | RecvEof _ buf' _ | RecvDone _ buf' _ => length buf' = 9%nat
  | _ => True
  end.
Proof.
  induction fuel as [|fuel IH]; intros sk buf n Hn Hlen;
    cbn [read_loop]; destruct (Z.ltb_spec n 9) as [Hlt|Hge]; try done.
  destruct (read sk (Z.to_nat (8 + 1 - n))) as [[more data] sk1] eqn:Hr.
  apply read_bound in Hr.
  destruct (Z.ltb_spec more 0) as [_|Hpos]; [exact I|].
  destruct (Z.eqb_spec more 0) as [_|Hnz]; [exact Hlen|].
  destruct Hr as [[-> _]|[-> Hd]]; [lia|].
  assert (Hw : wrap32 (n + Z.of_nat (length data)) = n + Z.of_nat (length data)).
  { apply wrap32_id. unfold is_int, INT_MAX. lia. }
  rewrite Hw. apply IH; [lia|].
  rewrite store_at_inside; [exact Hlen|lia].
Qed.

(** X17: the read loop never writes outside [buffer].  With the nine
    bytes that line 113 reserves, every [read] stores its bytes inside the
    array, on any connection and for any chunking: the array still has
    nine bytes when the loop ends. *)
Theorem read_loop_stays_in_buffer sk junk :
  length junk = 9%nat ->
  match read_loop read_fuel sk junk 0 with
  | RecvEof _ buffer' _ | RecvDone _ buffer' _ => length buffer' = 9%nat
  | _ => True
  end.
Proof. intros Hlen. apply read_loop_inside; [lia|exact Hlen]. Qed.

End Rti.

(** ** The statements on concrete runs

    The tag is taken to be 2 and the host little-endian; the number of
    federates is 2, as in [main], or 1. *)

Lemma federates_range_1 : 1 <= 1 <= INT_MAX.
Proof. unfold INT_MAX. lia. Defined.

Lemma federates_range_2 : 1 <= 2 <= INT_MAX.
Proof. unfold INT_MAX. lia. Defined.

Lemma negative_final_reachable :
  reachable x02 true 2 (negative_pair x02) (negative_final x02 true 2).
Proof. exists full_run. vm_compute. reflexivity. Defined.

Lemma scenario_A_final_reachable :
  reachable x02 true 2 (scenario_A x02) (scenario_A_final x02 true 2).
Proof. exists full_run. vm_compute. reflexivity. Defined.

Lemma scenario_A_accepted_reachable :
  reachable x02 true 2 (scenario_A x02) (scenario_A_accepted x02 true 2).
Proof. exists accepted_run. vm_compute. reflexivity. Defined.

Lemma scenario_A_swapped_final_reachable :
  reachable x02 true 2 (scenario_A_swapped x02)
    (scenario_A_swapped_final x02 true 2).
Proof. exists swapped_run. vm_compute. reflexivity. Defined.

Lemma scenario_C_final_reachable :
  reachable x02 true 2 (scenario_C x02 x07) (scenario_C_final x02 true 2 x07).
Proof. exists full_run. vm_compute. reflexivity. Defined.

Lemma negative_proposals_answered_with_zero_witness :
  pc (thread_of (negative_final x02 true 2) 1) = L177_returned /\
  response_value true (thread_of (negative_final x02 true 2) 1) = 0 /\
  list_max (-7) [-3]
  < response_value true (thread_of (negative_final x02 true 2) 1) /\
  sent (sock (thread_of (negative_final x02 true 2) 1)) = x02 :: be64_bytes 0.
Proof.
  assert (Hsends : Forall2 (fun c v => sends c x02 v)
                     (connections (negative_pair x02)) [-7; -3])
    by (repeat constructor; vm_compute; reflexivity).
  assert (Hrange : Forall is_ll [-7; -3])
    by (repeat constructor; unfold is_ll; lia).
  assert (Hneg : Forall (fun v => v < 0) [-7; -3])
    by (repeat constructor; lia).
  assert (Hi : threads (negative_final x02 true 2) !! 1%nat
               = Some (thread_of (negative_final x02 true 2) 1))
    by (vm_compute; reflexivity).
  assert (Hr : responded (pc (thread_of (negative_final x02 true 2) 1)) = true)
    by (vm_compute; reflexivity).
  destruct (negative_proposals_answered_with_zero x02 true 2 federates_range_2
              (negative_pair x02) (-7) [-3] (negative_final x02 true 2) 1
              (thread_of (negative_final x02 true 2) 1)
              Hsends Hrange eq_refl Hneg negative_final_reachable Hi Hr)
    as (Hzero & Habove & Hsent).
  split; [vm_compute; reflexivity|].
  split; [exact Hzero|].
  split; [exact Habove|].
  exact (Hsent _ eq_refl eq_refl).
Defined.

Lemma scenario_A_waiting_reachable :
  reachable x02 true 2 (scenario_A x02) (scenario_A_waiting x02 true 2).
Proof. exists (startup 2 ++ arrive_and_wait 0). vm_compute. reflexivity. Defined.

Lemma barrier_release_witness :
  (Z.of_nat (count_threads counted (threads (scenario_A_waiting x02 true 2))) = 1 /\
   forall i t, threads (scenario_A_waiting x02 true 2) !! i = Some t ->
               released (pc t) = false) /\
  (Z.of_nat (count_threads counted (threads (scenario_A_accepted x02 true 2))) = 2 /\
   num_feds_proposed_start (scenario_A_accepted x02 true 2)
   = number_of_federates (scenario_A_accepted x02 true 2) /\
   exists sched s',
     run x02 true 2 sched (scenario_A_accepted x02 true 2) = Some s' /\
     Forall is_thread_action sched /\
     exited s' = None /\
     forall i t, threads s' !! i = Some t -> passed (pc t) = true) /\
  (num_feds_proposed_start (scenario_A_final x02 true 2)
   = number_of_federates (scenario_A_final x02 true 2) /\
   Z.of_nat (count_threads accepted (threads (scenario_A_final x02 true 2))) = 2 /\
   response_value true (thread_of (scenario_A_final x02 true 2) 0)
   = response_value true (thread_of (scenario_A_final x02 true 2) 1) /\
   response_value true (thread_of (scenario_A_final x02 true 2) 0)
   = max_start_time (scenario_A_final x02 true 2)).
Proof.
  destruct (barrier_release x02 true 2 federates_range_2 (scenario_A x02)
              (scenario_A_waiting x02 true 2) scenario_A_waiting_reachable)
    as (_ & _ & Hfew & _).
  destruct (barrier_release x02 true 2 federates_range_2 (scenario_A x02)
              (scenario_A_accepted x02 true 2) scenario_A_accepted_reachable)
    as (_ & _ & _ & Hfull & _).
  destruct (barrier_release x02 true 2 federates_range_2 (scenario_A x02)
              (scenario_A_final x02 true 2) scenario_A_final_reachable)
    as (_ & Hsafe & _ & _ & _ & _ & Hsame).
  split; [|split].
  - split; [vm_compute; reflexivity|].
    apply Hfew. vm_compute; reflexivity.
  - split; [vm_compute; reflexivity|].
    apply Hfull; vm_compute; reflexivity.
  - destruct (Hsafe 0%nat (thread_of (scenario_A_final x02 true 2) 0))
      as (Hnum & _ & Hall); [vm_compute; reflexivity..|].
    split; [exact Hnum|]. split; [exact Hall|].
    apply (Hsame 0%nat 1%nat (thread_of (scenario_A_final x02 true 2) 0)
             (thread_of (scenario_A_final x02 true 2) 1));
      vm_compute; reflexivity.
Defined.

Lemma max_start_time_monotone_then_frozen_witness :
  run x02 true 2 answer_run (scenario_A_accepted x02 true 2)
  = Some (scenario_A_final x02 true 2) /\
  Z.of_nat (count_threads accepted (threads (scenario_A_accepted x02 true 2))) = 2 /\
  max_start_time (scenario_A_accepted x02 true 2) = 200 /\
  max_start_time (scenario_A_final x02 true 2)
  = max_start_time (scenario_A_accepted x02 true 2) /\
  response_value true (thread_of (scenario_A_final x02 true 2) 0)
  = max_start_time (scenario_A_accepted x02 true 2).
Proof.
  assert (Hrun : run x02 true 2 answer_run (scenario_A_accepted x02 true 2)
                 = Some (scenario_A_final x02 true 2))
    by (vm_compute; reflexivity).
  assert (Hall : Z.of_nat (count_threads accepted
                             (threads (scenario_A_accepted x02 true 2))) = 2)
    by (vm_compute; reflexivity).
  destruct (max_start_time_monotone_then_frozen x02 true 2 federates_range_2
              (scenario_A x02) (scenario_A_accepted x02 true 2) answer_run
              (scenario_A_final x02 true 2) scenario_A_accepted_reachable Hrun)
    as [_ Hfrozen].
  destruct (Hfrozen Hall) as [Hmax Hresp].
  split; [exact Hrun|].
  split; [exact Hall|].
  split; [vm_compute; reflexivity|].
  split; [exact Hmax|].
  apply (Hresp 0%nat (thread_of (scenario_A_final x02 true 2) 0));
    vm_compute; reflexivity.
Defined.

Lemma eof_returns_without_close_witness :
  exists s' t',
    exec x02 true 2 (Thread 0) (scenario_D_connected x02 true 2) = Some s' /\
    threads s' !! 0%nat = Some t' /\ pc t' = L122_returned /\
    num_feds_proposed_start s'
    = num_feds_proposed_start (scenario_D_connected x02 true 2) /\
    max_start_time s' = max_start_time (scenario_D_connected x02 true 2) /\
    exited s' = None /\
    is_open (sock t') = true /\
    forall sched s'', run x02 true 2 sched s' = Some s'' ->
      exists t'', threads s'' !! 0%nat = Some t'' /\ is_open (sock t'') = true.
Proof.
  apply (eof_returns_without_close x02 true 2 (scenario_D_connected x02 true 2) 0
           (thread_of (scenario_D_connected x02 true 2) 0)).
  - vm_compute; reflexivity.
  - vm_compute; reflexivity.
  - vm_compute; reflexivity.
  - vm_compute; reflexivity.
  - vm_compute; reflexivity.
  - vm_compute; lia.
Defined.

Lemma failed_accept_not_detected_witness :
  main_pc (refused_listening x02 true 1) = M192 0 /\
  exists s',
    exec x02 true 1 Main (refused_listening x02 true 1) = Some s' /\
    exited s' = None /\ stderr s' = stderr (refused_listening x02 true 1) /\
    threads s'
    = threads (refused_listening x02 true 1)
        ++ [mkThread L110 (c_sock (peer (-1) [] []))
              (c_stack (peer (-1) [] [])) 0 0] /\
    exec x02 true 1 (Thread (length (threads (refused_listening x02 true 1)))) s'
    = Some (exit (Fatal "ERROR on RTI reading from socket") s').
Proof.
  split; [vm_compute; reflexivity|].
  apply (failed_accept_not_detected x02 true 1 (refused_listening x02 true 1) 0
           (peer (-1) [] [])).
  - vm_compute; reflexivity.
  - vm_compute; reflexivity.
  - vm_compute; reflexivity.
  - vm_compute; reflexivity.
  - vm_compute; reflexivity.
Defined.


Lemma aggregation_order_independent_witness :
  max_start_time (scenario_A_final x02 true 2)
  = max_start_time (scenario_A_swapped_final x02 true 2) /\
  max_start_time (scenario_A_final x02 true 2) = max0 [100; 200].
Proof.
  apply (aggregation_order_independent x02 true 2 federates_range_2
           (scenario_A x02) (scenario_A_swapped x02) [100; 200] [200; 100]
           (scenario_A_final x02 true 2) (scenario_A_swapped_final x02 true 2)).
  - repeat constructor; exists x02; split; vm_compute; reflexivity.
  - repeat constructor; exists x02; split; vm_compute; reflexivity.
  - repeat constructor; unfold is_ll; lia.
  - reflexivity.
  - apply perm_swap.
  - exact scenario_A_final_reachable.
  - exact scenario_A_swapped_final_reachable.
  - vm_compute; reflexivity.
  - vm_compute; reflexivity.
Defined.

Lemma read_loop_accumulates_witness :
  (exists sk' buffer',
     read_loop read_fuel chunked_socket [xaa; xbb] 0 = RecvDone sk' buffer' 9 /\
     take 9 buffer' = [x02; x00; x00; x00; x00; x00; x00; x00; x01] /\
     stream_data (incoming sk') = [x2c; x55]) /\
  (exists sk' buffer',
     read_loop read_fuel short_socket [xaa; xbb] 0 = RecvEof sk' buffer' 5 /\
     take 5 buffer' = [x02; x00; x00; x00; x01] /\
     stream_data (incoming sk') = []).
Proof.
  split.
  - apply (read_loop_accumulates chunked_socket [xaa; xbb]
             [[x02; x00; x00]; [x00; x00; x00; x00; x00]; [x01; x2c; x55]]
             [RdFail]).
    + reflexivity.
    + reflexivity.
    + left. simpl. lia.
  - apply (read_loop_accumulates short_socket [xaa; xbb]
             [[x02; x00]; [x00; x00; x01]] []).
    + reflexivity.
    + reflexivity.
    + right. reflexivity.
Defined.

Lemma response_is_max_with_zero_witness :
  response_value true (thread_of (negative_final x02 true 2) 0) = max0 [-7; -3] /\
  0 <= response_value true (thread_of (negative_final x02 true 2) 0) /\
  response_value true (thread_of (negative_final x02 true 2) 0) = 0 /\
  sent (sock (thread_of (negative_final x02 true 2) 0))
  = x02 :: be64_bytes (max0 [-7; -3]).
Proof.
  assert (Hsends : Forall2 (fun c v => sends c x02 v)
                     (connections (negative_pair x02)) [-7; -3])
    by (repeat constructor; vm_compute; reflexivity).
  assert (Hrange : Forall is_ll [-7; -3])
    by (repeat constructor; unfold is_ll; lia).
  assert (Hneg : Forall (fun v => v < 0) [-7; -3])
    by (repeat constructor; lia).
  assert (Hi : threads (negative_final x02 true 2) !! 0%nat
               = Some (thread_of (negative_final x02 true 2) 0))
    by (vm_compute; reflexivity).
  assert (Hr : responded (pc (thread_of (negative_final x02 true 2) 0)) = true)
    by (vm_compute; reflexivity).
  destruct (response_is_max_with_zero x02 true 2 federates_range_2
              (negative_pair x02) [-7; -3] (negative_final x02 true 2) 0
              (thread_of (negative_final x02 true 2) 0)
              Hsends Hrange eq_refl negative_final_reachable Hi Hr)
    as (_ & Hmax & Hpos & Hzero & Hsent).
  split; [exact Hmax|].
  split; [exact Hpos|].
  split; [exact (Hzero Hneg)|].
  exact (Hsent _ eq_refl eq_refl).
Defined.

Lemma short_write_is_success_witness :
  pc (thread_of (lossy_released x02 true 1) 0) = L165 /\
  exists s' t',
    run x02 true 1 [Thread 0; Thread 0; Thread 0] (lossy_released x02 true 1)
    = Some s' /\
    threads s' !! 0%nat = Some t' /\ pc t' = L177_returned /\
    exited s' = None /\ stderr s' = stderr (lossy_released x02 true 1) /\
    is_open (sock t') = false /\
    sent (sock t')
    = sent (sock (thread_of (lossy_released x02 true 1) 0)) ++ take 0 [x02]
        ++ take 3 (be64_bytes (max_start_time (lossy_released x02 true 1))).
Proof.
  split; [vm_compute; reflexivity|].
  assert (Hexit : exited (lossy_released x02 true 1) = None)
    by (vm_compute; reflexivity).
  assert (Hi : threads (lossy_released x02 true 1) !! 0%nat
               = Some (thread_of (lossy_released x02 true 1) 0))
    by (vm_compute; reflexivity).
  assert (Hpc : pc (thread_of (lossy_released x02 true 1) 0) = L165)
    by (vm_compute; reflexivity).
  assert (Hu : usable (sock (thread_of (lossy_released x02 true 1) 0)) = true)
    by (vm_compute; reflexivity).
  destruct (short_write_is_success x02 true 1 (lossy_released x02 true 1) 0
              (thread_of (lossy_released x02 true 1) 0) [] Hexit Hi Hpc Hu)
    as (_ & _ & Hshort).
  apply (Hshort 0%nat 3%nat). vm_compute; reflexivity.
Defined.

(** ** The further properties on concrete runs *)

Lemma scenario_A_locked_reachable :
  reachable x02 true 2 (scenario_A x02) (scenario_A_locked x02 true 2).
Proof. exists (startup 2 ++ [Thread 0; Thread 0]). vm_compute. reflexivity. Defined.

Lemma scenario_A_exited_reachable :
  reachable x02 true 2 (scenario_A x02) (scenario_A_exited x02 true 2).
Proof. exists (full_run ++ shutdown). vm_compute. reflexivity. Defined.

Lemma scenario_D_left_reachable :
  reachable x02 true 2 (scenario_D x02) (scenario_D_left x02 true 2).
Proof. exists (startup 2 ++ [Thread 0]). vm_compute. reflexivity. Defined.

Lemma lonely_waiting_reachable :
  reachable x02 true 2 (lossy x02) (lonely_waiting x02 true 2).
Proof. exists (startup 1 ++ arrive_and_wait 0). vm_compute. reflexivity. Defined.

Lemma no_socket_exited_reachable :
  reachable x02 true 2 no_socket (no_socket_exited x02 true 2).
Proof. exists [Main]. vm_compute. reflexivity. Defined.

Lemma refused_exited_reachable :
  reachable x02 true 1 refused (refused_exited x02 true 1).
Proof. exists (startup 1 ++ [Thread 0]). vm_compute. reflexivity. Defined.

Lemma broken_connected_reachable :
  reachable x02 true 1 (broken x02) (broken_connected x02 true 1).
Proof. exists (startup 1). vm_compute. reflexivity. Defined.

Lemma mutual_exclusion_witness :
  pc (thread_of (scenario_A_locked x02 true 2) 0) = L141 /\
  0%nat = 0%nat /\ mutex (scenario_A_locked x02 true 2) = Some 0%nat.
Proof.
  split; [vm_compute; reflexivity|].
  apply (mutual_exclusion x02 true 2 federates_range_2 (scenario_A x02)
           (scenario_A_locked x02 true 2) 0 0
           (thread_of (scenario_A_locked x02 true 2) 0)
           (thread_of (scenario_A_locked x02 true 2) 0)
           scenario_A_locked_reachable).
  - vm_compute; reflexivity.
  - vm_compute; reflexivity.
  - vm_compute; reflexivity.
  - vm_compute; reflexivity.
Defined.

Lemma counter_counts_arrivals_witness :
  num_feds_proposed_start (scenario_A_accepted x02 true 2)
  = Z.of_nat (count_threads counted (threads (scenario_A_accepted x02 true 2))) /\
  0 <= num_feds_proposed_start (scenario_A_accepted x02 true 2) <= 2 /\
  Z.of_nat (length (threads (scenario_A_accepted x02 true 2))) <= 2.
Proof.
  exact (counter_counts_arrivals x02 true 2 federates_range_2 (scenario_A x02)
           (scenario_A_accepted x02 true 2) scenario_A_accepted_reachable).
Defined.

Lemma max_start_time_is_running_max_witness :
  timestamp (thread_of (scenario_A_accepted x02 true 2) 0)
  <= max_start_time (scenario_A_accepted x02 true 2) /\
  (max_start_time (scenario_A_accepted x02 true 2) = 0 \/
   exists i t,
     threads (scenario_A_accepted x02 true 2) !! i = Some t /\
     accepted (pc t) = true /\
     timestamp t = max_start_time (scenario_A_accepted x02 true 2)).
Proof.
  destruct (max_start_time_is_running_max x02 true 2 federates_range_2
              (scenario_A x02) (scenario_A_accepted x02 true 2)
              scenario_A_accepted_reachable) as [Hge Hat].
  split; [|exact Hat].
  apply (Hge 0%nat (thread_of (scenario_A_accepted x02 true 2) 0));
    vm_compute; reflexivity.
Defined.

Lemma early_disconnect_stalls_barrier_witness :
  run x02 true 2 (arrive_and_wait 1) (scenario_D_left x02 true 2)
  = Some (scenario_D_stalled x02 true 2) /\
  num_feds_proposed_start (scenario_D_stalled x02 true 2) < 2 /\
  forall j tj, threads (scenario_D_stalled x02 true 2) !! j = Some tj ->
    released (pc tj) = false /\
    forall c, connections (scenario_D x02) !! j = Some c ->
              sent (sock tj) = sent (c_sock c).
Proof.
  assert (Hrun : run x02 true 2 (arrive_and_wait 1) (scenario_D_left x02 true 2)
                 = Some (scenario_D_stalled x02 true 2))
    by (vm_compute; reflexivity).
  split; [exact Hrun|].
  apply (early_disconnect_stalls_barrier x02 true 2 federates_range_2
           (scenario_D x02) (scenario_D_left x02 true 2) 0
           (thread_of (scenario_D_left x02 true 2) 0) (arrive_and_wait 1)
           (scenario_D_stalled x02 true 2) scenario_D_left_reachable).
  - vm_compute; reflexivity.
  - vm_compute; reflexivity.
  - exact Hrun.
Defined.

Lemma normal_exit_after_all_returned_witness :
  Z.of_nat (length (threads (scenario_A_exited x02 true 2))) = 2 /\
  (forall k t, threads (scenario_A_exited x02 true 2) !! k = Some t ->
               returned (pc t) = true) /\
  ((forall k t, threads (scenario_A_exited x02 true 2) !! k = Some t ->
                pc t = L177_returned) \/
   (forall k t, threads (scenario_A_exited x02 true 2) !! k = Some t ->
                pc t = L122_returned)).
Proof.
  apply (normal_exit_after_all_returned x02 true 2 federates_range_2
           (scenario_A x02) (scenario_A_exited x02 true 2)
           scenario_A_exited_reachable).
  vm_compute; reflexivity.
Defined.

Lemma missing_federate_blocks_accept_witness :
  match main_pc (lonely_waiting x02 true 2) with
  | M220 _ | M224 => False
  | _ => True
  end /\
  exited (lonely_waiting x02 true 2) <> Some Normal /\
  forall j tj, threads (lonely_waiting x02 true 2) !! j = Some tj ->
               released (pc tj) = false.
Proof.
  apply (missing_federate_blocks_accept x02 true 2 federates_range_2
           (lossy x02) (lonely_waiting x02 true 2)).
  - vm_compute; reflexivity.
  - exact lonely_waiting_reachable.
Defined.

Lemma create_server_failure_accepts_nothing_witness :
  no_socket_exited x02 true 2 = init no_socket \/
  no_socket_exited x02 true 2
  = exit (Fatal "ERROR on creating RTI socket") (init no_socket).
Proof.
  apply (create_server_failure_accepts_nothing x02 true 2 no_socket
           (no_socket_exited x02 true 2)).
  - left. vm_compute; reflexivity.
  - exact no_socket_exited_reachable.
Defined.

Lemma connection_closed_only_after_answer_witness :
  fd (sock (thread_of (scenario_A_final x02 true 2) 0)) = 4 /\
  is_open (sock (thread_of (scenario_A_final x02 true 2) 0)) = false.
Proof.
  apply (connection_closed_only_after_answer x02 true 2 federates_range_2
           (scenario_A x02) (scenario_A_final x02 true 2) 0
           (thread_of (scenario_A_final x02 true 2) 0)
           (peer 4 [x02 :: be64_bytes 100] [])
           scenario_A_final_reachable).
  - vm_compute; reflexivity.
  - vm_compute; reflexivity.
Defined.

Lemma fatal_diagnostics_witness :
  In "ERROR on RTI reading from socket"%string
    ["ERROR on creating RTI socket"; "ERROR on binding RTI socket";
     "ERROR on RTI reading from socket";
     "ERROR sending message ID to federate";
     "ERROR sending start time to federate"]%string /\
  "ERROR on RTI reading from socket"%string <> "ERROR on server accept"%string.
Proof.
  apply (fatal_diagnostics x02 true 1 federates_range_1 refused
           (refused_exited x02 true 1) "ERROR on RTI reading from socket"
           refused_exited_reachable).
  vm_compute; reflexivity.
Defined.

Lemma warnings_report_received_tags_witness :
  Forall (fun d =>
            match d with
            | Expected_TIMESTAMP got =>
                got <> x02 /\
                exists i c sk buf n,
                  connections (scenario_C x02 x07) !! i = Some c /\
                  read_loop read_fuel (c_sock c) (c_stack c) 0 = RecvDone sk buf n /\
                  buffer_tag buf = got
            end) [Expected_TIMESTAMP x07] /\
  ((forall i c, connections (scenario_A x02) !! i = Some c ->
                exists v, sends c x02 v) ->
   stderr (scenario_A_final x02 true 2) = []).
Proof.
  split.
  - apply (warnings_report_received_tags x02 true 2 federates_range_2
             (scenario_C x02 x07) (scenario_C_final x02 true 2 x07)
             scenario_C_final_reachable).
  - apply (warnings_report_received_tags x02 true 2 federates_range_2
             (scenario_A x02) (scenario_A_final x02 true 2)
             scenario_A_final_reachable).
Defined.

Lemma spurious_wakeup_is_harmless_witness :
  pc (thread_of (scenario_A_waiting x02 true 2) 0) = L153_blocked /\
  run x02 true 2 [Wakeup 0; Thread 0; Thread 0] (scenario_A_waiting x02 true 2)
  = Some (scenario_A_waiting x02 true 2).
Proof.
  split; [vm_compute; reflexivity|].
  apply (spurious_wakeup_is_harmless x02 true 2 (scenario_A_waiting x02 true 2) 0
           (thread_of (scenario_A_waiting x02 true 2) 0)).
  - vm_compute; reflexivity.
  - vm_compute; reflexivity.
  - vm_compute; reflexivity.
  - vm_compute; reflexivity.
  - vm_compute; reflexivity.
Defined.

Lemma response_decodes_to_itself_witness :
  decode_timestamp true
    (x02 :: store_ll true (swap_bytes_if_little_endian_ll true (-7))) = -7.
Proof.
  apply (response_decodes_to_itself true x02 (-7)). unfold is_ll. lia.
Defined.



Lemma read_error_stops_the_process_witness :
  exec x02 true 1 (Thread 0) (broken_connected x02 true 1)
  = Some (exit (Fatal "ERROR on RTI reading from socket")
            (broken_connected x02 true 1)) /\
  (forall a, exec x02 true 1 a
               (exit (Fatal "ERROR on RTI reading from socket")
                  (broken_connected x02 true 1)) = None) /\
  (forall j tj, threads (broken_connected x02 true 1) !! j = Some tj ->
                released (pc tj) = false).
Proof.
  apply (read_error_stops_the_process x02 true 1 federates_range_1 (broken x02)
           (broken_connected x02 true 1) 0
           (thread_of (broken_connected x02 true 1) 0)
           (mkConn (mkSocket 4 [Chunk [x02; x00]; RdFail] [] [] true) [])
           broken_connected_reachable).
  - vm_compute; reflexivity.
  - vm_compute; reflexivity.
  - vm_compute; reflexivity.
  - vm_compute; reflexivity.
  - vm_compute; reflexivity.
  - vm_compute; reflexivity.
  - vm_compute; lia.
Defined.

Lemma read_loop_stays_in_buffer_witness :
  match read_loop read_fuel chunked_socket
          [xaa; xbb; xcc; xdd; xee; xff; x11; x22; x33] 0 with
  | RecvEof _ buffer' _ | RecvDone _ buffer' _ => length buffer' = 9%nat
  | _ => True
  end.
Proof.
  apply (read_loop_stays_in_buffer chunked_socket
           [xaa; xbb; xcc; xdd; xee; xff; x11; x22; x33]).
  reflexivity.
Defined.
